(** * MuseMorphose-Diff data loader: a shallow embedding of [dataloader.py]

    The development follows the source file top-down: the REMI event
    encoder ([to_remi_event_sequence], [get_remi_indexer]), the pitch
    augmenter ([check_extreme_pitch], [transpose_chord],
    [transpose_events], [pitch_augment]), the bar-aligned window
    sampler and tensor builder of [REMIFullSongTransformerDataset], and the
    loader of [MSREMIFullSongTransformerDataset].

    Conventions.
    - Python integers are [Z]; lengths and array shapes are [nat].
    - A call either returns ([Ok]), raises ([Raise], with the exception
      class), or is still running when the random draws it was given are
      used up ([Pending]).
    - [random.choice] takes its draw as an explicit argument.
    - NumPy [int64] arithmetic is taken in the range where it does not wrap,
      and [ceil(a / b)] on integers is the exact rational ceiling (the
      float64 quotient has the same ceiling whenever |a| < 2^53). *)

From stdpp Require Import base list option strings sorting gmap pretty.
From Stdlib Require Import ZArith Lia Ascii.

Local Open Scope Z_scope.

(** ** Outcomes of a Python call *)

Inductive exn : Type :=
  | RuntimeError (msg : string)
  | IndexError
  | KeyError
  | TypeError
  | ValueError
  | AttributeError
  | AssertionError
  | ZeroDivisionError
  | OverflowError.

Inductive result (A : Type) : Type :=
  | Ok (a : A)
  | Raise (e : exn)
  | Pending.

Arguments Ok {A} a.
Arguments Raise {A} e.
Arguments Pending {A}.

#[global] Instance result_ret : MRet result := λ A a, Ok a.
#[global] Instance result_bind : MBind result := λ A B f r,
  match r with
  | Ok a => f a
  | Raise e => Raise e
  | Pending => Pending
  end.
#[global] Instance result_fmap : FMap result := λ A B f r,
  match r with
  | Ok a => Ok (f a)
  | Raise e => Raise e
  | Pending => Pending
  end.

(** A lookup that raises [e] when it misses. *)
Definition or_raise {A} (e : exn) (o : option A) : result A :=
  match o with
  | Some a => Ok a
  | None => Raise e
  end.

(** [assert P] *)
Definition assert (P : Prop) `{Decision P} : result unit :=
  if decide P then Ok () else Raise AssertionError.

(** ** Python list primitives *)

Module Py.

Section Lists.
Context {A : Type}.

(** [l[i]]: a negative index counts from the end; out of range raises. *)
Definition index (l : list A) (i : Z) : result A :=
  or_raise IndexError
    (if decide (0 ≤ i) then l !! Z.to_nat i
     else if decide (0 ≤ Z.of_nat (length l) + i)
          then l !! Z.to_nat (Z.of_nat (length l) + i)
          else None).

(** Slice bounds: a negative bound is shifted by the length, then
    every bound is clamped to [0, len]. *)
Definition bound (len : nat) (i : Z) : nat :=
  if decide (i < 0) then Z.to_nat (Z.of_nat len + i)
  else Nat.min len (Z.to_nat i).

(** [l[lo:hi]] *)
Definition slice (l : list A) (lo hi : Z) : list A :=
  let a := bound (length l) lo in
  let b := bound (length l) hi in
  take (b - a)%nat (drop a l).

(** [l[:hi]] *)
Definition slice_to (l : list A) (hi : Z) : list A :=
  take (bound (length l) hi) l.

(** [l[lo:]] *)
Definition slice_from (l : list A) (lo : Z) : list A :=
  drop (bound (length l) lo) l.

(** [random.choice(l)] with the draw made explicit: every draw picks an
    element, every element is picked by some draw; the empty sequence
    raises. *)
Definition choice (draw : nat) (l : list A) : result A :=
  or_raise IndexError (l !! (draw `mod` length l)%nat).

(** [a[lo:hi] = v] on a NumPy vector: the slice is clipped to the
    array and every cell inside it is overwritten. *)
Definition fill (l : list A) (lo hi : Z) (v : A) : list A :=
  let a := bound (length l) lo in
  let b := bound (length l) hi in
  take a l ++ replicate (b - a)%nat v ++ drop (a + (b - a))%nat l.

(** [enumerate(l)] *)
Definition enumerate (l : list A) : list (nat * A) :=
  zip (seq 0 (length l)) l.

End Lists.

(** [range(n)] *)
Definition range (n : Z) : list Z := Z.of_nat <$> seq 0 (Z.to_nat n).

(** [range(lo, hi)] *)
Definition range2 (lo hi : Z) : list Z :=
  (λ i, lo + Z.of_nat i) <$> seq 0 (Z.to_nat (hi - lo)).

(** [s.split('_')[0]]: the text before the first underscore. *)
Fixpoint split_head (s : string) : string :=
  match s with
  | EmptyString => EmptyString
  | String c s' =>
      if Ascii.eqb c "_"%char then EmptyString else String c (split_head s')
  end.

(** [s.replace(old, new)] for a non-empty [old]: the occurrences are
    found left to right and do not overlap. [skip] counts the characters
    of the occurrence just replaced that are still to be passed over. *)
Fixpoint replace_from (old new : string) (skip : nat) (s : string) : string :=
  match s with
  | EmptyString => EmptyString
  | String c s' =>
      match skip with
      | S k => replace_from old new k s'
      | O =>
          if String.prefix old s
          then new +:+ replace_from old new (String.length old - 1) s'
          else String c (replace_from old new 0 s')
      end
  end.

Definition replace (s old new : string) : string := replace_from old new 0 s.

(** [int(s)] on a string, for the plain decimal literals (an optional
    sign, then digits); anything else is a [ValueError]. *)
Definition digit (c : ascii) : option Z :=
  let n := Z.of_N (Ascii.N_of_ascii c) in
  if decide (48 ≤ n ≤ 57) then Some (n - 48) else None.

Fixpoint digits (acc : Z) (s : string) : option Z :=
  match s with
  | EmptyString => Some acc
  | String c s' => d ← digit c; digits (10 * acc + d) s'
  end.

Definition int_of_string (s : string) : result Z :=
  or_raise ValueError
    match s with
    | EmptyString => None
    | String "-" (String _ _ as s') => Z.opp <$> digits 0 s'
    | String "+" (String _ _ as s') => digits 0 s'
    | _ => digits 0 s
    end.

End Py.

(** ** The REMI event encoder *)

(** A music object as [to_remi_event_sequence] reads it, after
    [music.adjust_resolution(res)] has rescaled its times. *)
Record note := Note {
  note_time : Z;
  note_pitch : Z;
  note_duration : Z;
  note_velocity : Z;
}.

Record tempo := Tempo {
  tempo_time : Z;
  tempo_qpm : Z;
}.

Record music := Music {
  tracks : list (list note);
  tempos : list tempo;
  barlines : list Z;
}.

(** [f"{prefix}{i}"] for an integer [i] *)
Definition fstring (prefix : string) (i : Z) : string := prefix +:+ pretty i.

(** The event constructors below are methods of [REMIEventSequence], a
    class of a muspy fork that is not part of the source file. They build
    the event-id strings that [get_remi_indexer] enumerates. *)

(** Modelled from the spec: [REMIEventSequence.to_bar_event], the bar
    marker (the encoder compares event groups with the string "bar"). *)
Definition to_bar_event : string := "bar".

(** Modelled from the spec: [REMIEventSequence.to_note_on_event]. *)
Definition to_note_on_event (pitch : Z) : string := fstring "note_on_" pitch.

(** Modelled from the spec: [REMIEventSequence.to_note_duration_event]. *)
Definition to_note_duration_event (d : Z) : string := fstring "note_duration_" d.

(** Modelled from the spec: [REMIEventSequence.to_note_velocity_event]. *)
Definition to_note_velocity_event (v : Z) : string := fstring "note_velocity_" v.

(** Modelled from the spec: [REMIEventSequence.to_position_event]. *)
Definition to_position_event (p : Z) : string := fstring "position_" p.

(** Modelled from the spec: [REMIEventSequence.to_tempo_event]. *)
Definition to_tempo_event (q : Z) : string := fstring "tempo_" q.

(** *** [get_remi_indexer] *)

(** The loop state: the dictionary built so far and the next code [idx].
    [put] is [indexer[key] = idx; idx += 1]. *)
Definition put (key : string) (st : gmap string Z * Z) : gmap string Z * Z :=
  (<[key := st.2]> st.1, st.2 + 1).

Definition put_all (f : Z → string) (ks : list Z) (st : gmap string Z * Z)
  : gmap string Z * Z :=
  foldl (λ st i, put (f i) st) st ks.

Definition remi_indexer_dict : gmap string Z :=
  let st := (∅, 0) in
  let st := put "bar" st in
  let st := put "eos" st in
  let st := put_all (fstring "note_on_") (Py.range 128) st in
  let st := put_all (fstring "note_duration_") (Py.range2 1 65) st in
  let st := put_all (fstring "note_velocity_") (Py.range 32) st in
  let st := put_all (fstring "position_") (Py.range 24) st in
  let st := put_all (fstring "tempo_") (Py.range2 30 210) st in
  st.1.

(** [bidict(d)]: the forward dictionary with its inverse; two keys with one
    value are refused. *)
Record bidict := Bidict {
  forward : gmap string Z;
  inverse : gmap Z string;
}.

Definition invert (d : gmap string Z) : gmap Z string :=
  list_to_map (prod_swap <$> map_to_list d).

Definition make_bidict (d : gmap string Z) : result bidict :=
  if decide (size (invert d) = size d) then Ok (Bidict d (invert d))
  else Raise ValueError.

Definition get_remi_indexer : result bidict := make_bidict remi_indexer_dict.

(** Encoding an event id and decoding a code through a [bidict]. *)
Definition encode (b : bidict) (s : string) : option Z := forward b !! s.
Definition decode (b : bidict) (c : Z) : option string := inverse b !! c.

(** *** [_get_measure_position] *)

(** [np.sort] *)
Definition np_sort (l : list Z) : list Z := merge_sort Z.le l.

(** [np.searchsorted(a, v, "right")] on a sorted array: the number of
    entries that are at most [v]. *)
Definition searchsorted_right (a : list Z) (v : Z) : Z :=
  Z.of_nat (length (filter (λ x, x ≤ v) a)).

(** [ceil(a / b)]: true division, then the ceiling. Dividing a NumPy
    integer by zero gives an infinity or a NaN, which [math.ceil] refuses. *)
Definition ceil_div (a b : Z) : result Z :=
  if decide (b = 0)
  then Raise (if decide (a = 0) then ValueError else OverflowError)
  else Ok (- ((- a) `div` b)).

(** [a % b] on Python integers *)
Definition py_mod (a b : Z) : result Z :=
  if decide (b = 0) then Raise ZeroDivisionError else Ok (a `mod` b).

Definition _get_measure_position (measure_times : list Z) (res : Z) (time : Z)
  : result (Z * Z) :=
  let measure_idx := searchsorted_right measure_times time - 1 in
  measure_length ←
    (if decide (measure_idx < Z.of_nat (length measure_times) - 1) then
       nxt ← Py.index measure_times (measure_idx + 1);
       cur ← Py.index measure_times measure_idx;
       Ok (nxt - cur)
     else
       cur ← Py.index measure_times measure_idx;
       prv ← Py.index measure_times (measure_idx - 1);
       Ok (cur - prv));
  cur ← Py.index measure_times measure_idx;
  position ← ceil_div (res * (time - cur)) measure_length;
  p ← py_mod position res;
  Ok (measure_idx, p).

(** *** [to_remi_event_sequence] *)

(** An entry of the [events] list: the sort key and the event group. *)
Definition timed_group : Type := (Z * Z) * list string.

(** Tuple comparison [a <= b] on keys. *)
Definition key_le (a b : Z * Z) : Prop := a.1 < b.1 ∨ (a.1 = b.1 ∧ a.2 ≤ b.2).

#[global] Instance key_le_dec a b : Decision (key_le a b).
Proof. unfold key_le. apply _. Defined.

(** [events.sort(key=itemgetter(0))]: a stable sort, so entries with equal
    keys keep their order. *)
Fixpoint insert_stable (x : timed_group) (l : list timed_group) : list timed_group :=
  match l with
  | [] => [x]
  | y :: l' => if decide (key_le x.1 y.1) then x :: l else y :: insert_stable x l'
  end.

Definition sort_by_key (l : list timed_group) : list timed_group :=
  foldr insert_stable [] l.

(** The barline times after [barline_times.insert(0, 0)]. *)
Definition with_zero_barline (barline_times : list Z) : result (list Z) :=
  first ← Py.index barline_times 0;
  Ok (if decide (first ≠ 0) then 0 :: barline_times else barline_times).

(** The three notes-to-events loops. A note whose duration is not positive
    adds nothing. *)
Definition bar_group (mt : list Z) (res : Z) (t : Z) : result timed_group :=
  k ← _get_measure_position mt res t; Ok (k, [to_bar_event]).

Definition tempo_group (mt : list Z) (res : Z) (t : tempo) : result timed_group :=
  k ← _get_measure_position mt res (tempo_time t);
  Ok (k, [to_tempo_event (Z.min 209 (Z.max (tempo_qpm t) 30))]).

Definition note_group (mt : list Z) (res : Z) (n : note) : result (list timed_group) :=
  if decide (note_duration n > 0) then
    k ← _get_measure_position mt res (note_time n);
    Ok [(k, [to_note_on_event (note_pitch n);
             to_note_velocity_event (note_velocity n);
             to_note_duration_event
               (Z.min (Z.max (note_duration n) 1) (res * 2))])]
  else Ok [].

(** Writing one sorted entry to the sequence: a position event first,
    unless the group is a bar. *)
Definition serialise (g : timed_group) : result (list string) :=
  head_ev ← Py.index g.2 0;
  Ok (if decide (head_ev ≠ "bar") then to_position_event g.1.2 :: g.2 else g.2).

Definition to_remi_event_sequence (m : music) (res : Z) : result (list string) :=
  let notes := concat (tracks m) in
  if bool_decide (length notes = 0%nat) then Raise (RuntimeError "No notes found.") else
  _ ← get_remi_indexer;
  barline_times ← with_zero_barline (barlines m);
  let measure_times := np_sort barline_times in
  _ ← assert (1 < length measure_times)%nat;
  bars ← mapM (bar_group measure_times res) barline_times;
  tmps ← mapM (tempo_group measure_times res) (tempos m);
  nts ← mapM (note_group measure_times res) notes;
  let events := sort_by_key (bars ++ tmps ++ concat nts) in
  body ← mapM serialise events;
  Ok (concat body ++ ["eos"]).

(** ** The pitch augmenter *)

(** A raw event: the dictionary [{'name': ..., 'value': ...}] of the piece
    files. The value is an integer (pitch, velocity, duration, tempo,
    beat), a string (chord quality) or [None] (bar, end of sequence). *)
Inductive pyval : Type :=
  | VInt (z : Z)
  | VStr (s : string)
  | VNone.

Record event := Event {
  name : string;
  value : pyval;
}.

#[global] Instance pyval_eq_dec : EqDecision pyval.
Proof. solve_decision. Defined.

#[global] Instance event_eq_dec : EqDecision event.
Proof. solve_decision. Defined.

Definition IDX_TO_KEY : gmap Z string :=
  list_to_map
    [(0, "A"); (1, "A#"); (2, "B"); (3, "C"); (4, "C#"); (5, "D");
     (6, "D#"); (7, "E"); (8, "F"); (9, "F#"); (10, "G"); (11, "G#")].

Definition KEY_TO_IDX : gmap string Z :=
  list_to_map (prod_swap <$> map_to_list IDX_TO_KEY).

(** [int(v)] *)
Definition py_int (v : pyval) : result Z :=
  match v with
  | VInt z => Ok z
  | VStr s => Py.int_of_string s
  | VNone => Raise TypeError
  end.

(** [v + n_keys] with an integer [n_keys] *)
Definition py_add (v : pyval) (n : Z) : result pyval :=
  match v with
  | VInt z => Ok (VInt (z + n))
  | VStr _ | VNone => Raise TypeError
  end.

(** ['{}'.format(v)] *)
Definition py_format (v : pyval) : string :=
  match v with
  | VInt z => pretty z
  | VStr s => s
  | VNone => "None"
  end.

(** A method of [str] called on a value that may not be a string. *)
Definition as_str (v : pyval) : result string :=
  match v with
  | VStr s => Ok s
  | VInt _ | VNone => Raise AttributeError
  end.

Definition get_chord_tone (chord_event : event) : result string :=
  s ← as_str (value chord_event); Ok (Py.split_head s).

Definition transpose_chord (chord_event : event) (n_keys : Z) : result event :=
  if decide (value chord_event = VStr "N_N") then Ok chord_event else
  orig_tone ← get_chord_tone chord_event;
  orig_tone_idx ← or_raise KeyError (KEY_TO_IDX !! orig_tone);
  let new_tone_idx := (orig_tone_idx + 12 + n_keys) `mod` 12 in
  s ← as_str (value chord_event);
  new_tone ← or_raise KeyError (IDX_TO_KEY !! new_tone_idx);
  let new_chord_value := Py.replace s (orig_tone +:+ "_") (new_tone +:+ "_") in
  Ok (Event (name chord_event) (VStr new_chord_value)).

(** The running pair [(low, high)] of [check_extreme_pitch]. *)
Definition extreme_step (acc : Z * Z) (ev : event) : result (Z * Z) :=
  if decide (name ev = "Note_Pitch") then
    p ← py_int (value ev);
    p' ← py_int (value ev);
    Ok (Z.min acc.1 p, Z.max acc.2 p')
  else Ok acc.

Fixpoint extreme_from (acc : Z * Z) (raw_events : list event) : result (Z * Z) :=
  match raw_events with
  | [] => Ok acc
  | ev :: rest => acc' ← extreme_step acc ev; extreme_from acc' rest
  end.

Definition check_extreme_pitch (raw_events : list event) : result (Z * Z) :=
  extreme_from (128, 0) raw_events.

Definition transpose_event (n_keys : Z) (ev : event) : result event :=
  if decide (name ev = "Note_Pitch") then
    v ← py_add (value ev) n_keys; Ok (Event (name ev) v)
  else if decide (name ev = "Chord") then transpose_chord ev n_keys
  else Ok ev.

Definition transpose_events (raw_events : list event) (n_keys : Z)
  : result (list event) :=
  transposed ← mapM (transpose_event n_keys) raw_events;
  _ ← assert (length transposed = length raw_events);
  Ok transposed.

(** [pickle_load]: what a piece file and its attribute files hold. *)
Record piece_file := PieceFile {
  file_bar_pos : list Z;
  file_events : list event;
  file_polyph : list Z;
  file_rhythm : list Z;
}.

(** ** [REMIFullSongTransformerDataset] *)

Record dataset := Dataset {
  event2idx : gmap string Z;
  pieces : list piece_file;
  piece_bar_pos : list (list Z);
  model_enc_seqlen : nat;
  model_dec_seqlen : nat;
  model_max_bars : nat;
  do_augment : bool;
  augment_range : list Z;
  min_pitch : Z;
  max_pitch : Z;
  pad_to_same : bool;
  use_attr_cls : bool;
  appoint_st_bar : option Z;
  dec_end_pad_value : Z;
}.

(** [read_vocab]: the pad code is one past the vocabulary. *)
Definition pad_token (ds : dataset) : Z := Z.of_nat (size (event2idx ds)).

(** *** [build_dataset]

    The loop body applied to the pair loaded from a piece file: drop a
    trailing boundary equal to the sequence length, drop the boundary of a
    final bar of exactly two tokens, append the token count.
    [bar_pos[-1]] raises on an empty list. *)
Definition normalize_bar_pos (bar_pos : list Z) (n_evs : nat) : result (list Z) :=
  last1 ← Py.index bar_pos (-1);
  let bar_pos1 :=
    if decide (last1 = Z.of_nat n_evs) then Py.slice_to bar_pos (-1) else bar_pos in
  last2 ← Py.index bar_pos1 (-1);
  let bar_pos2 :=
    if decide (Z.of_nat n_evs - last2 = 2) then Py.slice_to bar_pos1 (-1) else bar_pos1 in
  Ok (bar_pos2 ++ [Z.of_nat n_evs]).

Definition build_dataset (files : list piece_file) : result (list (list Z)) :=
  mapM (λ f, normalize_bar_pos (file_bar_pos f) (length (file_events f))) files.

(** A dataset object as [__init__] leaves it. *)
Definition constructed (ds : dataset) : Prop :=
  build_dataset (pieces ds) = Ok (piece_bar_pos ds).

(** A loop whose body may raise. *)
Fixpoint for_each {A B} (body : B → A → result B) (l : list A) (acc : B) : result B :=
  match l with
  | [] => Ok acc
  | x :: rest => acc' ← body acc x; for_each body rest acc'
  end.

(** [zip(bar_pos[:-1], bar_pos[1:])]: the bars between consecutive
    boundaries. *)
Definition bar_spans (bar_pos : list Z) : list (Z * Z) :=
  zip (Py.slice_to bar_pos (-1)) (Py.slice_from bar_pos 1).

(** *** [get_sample_from_file]

    [draw] is the outcome of the one [random.choice] of the method. The
    result is [(piece_evs, picked_st_bar, picked_bar_pos, n_bars)]. *)
Definition pick_st_bar (ds : dataset) (draw : nat) (n_pos : nat) : result Z :=
  let M := Z.of_nat (model_max_bars ds) in
  match appoint_st_bar ds with
  | None =>
      if decide (Z.of_nat n_pos > M)
      then Py.choice draw (Py.range (Z.of_nat n_pos - M))
      else Ok 0
  | Some a => if decide (a < Z.of_nat n_pos - M) then Ok a else Ok 0
  end.

Definition get_sample_from_file (ds : dataset) (draw : nat) (piece_idx : nat)
  : result (list event * Z * list Z * nat) :=
  let M := Z.of_nat (model_max_bars ds) in
  file ← or_raise IndexError (pieces ds !! piece_idx);
  let piece_evs := file_events file in
  bar_pos ← or_raise IndexError (piece_bar_pos ds !! piece_idx);
  picked_st_bar ← pick_st_bar ds draw (length bar_pos);
  if decide (Z.of_nat (length bar_pos) > M) then
    st ← Py.index bar_pos picked_st_bar;
    ed ← Py.index bar_pos (picked_st_bar + M);
    let piece_evs := Py.slice piece_evs st ed in
    st' ← Py.index bar_pos picked_st_bar;
    let picked_bar_pos :=
      (λ b, b - st') <$> Py.slice bar_pos picked_st_bar (picked_st_bar + M) in
    Ok (piece_evs, picked_st_bar, picked_bar_pos, model_max_bars ds)
  else
    last ← Py.index bar_pos (-1);
    let picked_bar_pos :=
      bar_pos ++ replicate (model_max_bars ds - length bar_pos)%nat last in
    _ ← assert (length picked_bar_pos = model_max_bars ds);
    Ok (piece_evs, picked_st_bar, picked_bar_pos, length bar_pos).

(** *** [pad_sequence] *)
Definition pad_sequence (seq : list Z) (maxlen : nat) (pad_value : Z) : list Z :=
  seq ++ replicate (maxlen - length seq)%nat pad_value.

(** *** [pitch_augment]

    [draws] lists the outcomes of the successive [random.choice] calls. The
    first draw is made before the loop; each rejected shift costs one more
    draw. With the draws used up and no shift accepted the loop is still
    running. *)
Definition rejected (ds : dataset) (lo hi n_keys : Z) : Prop :=
  lo + n_keys < min_pitch ds ∨ hi + n_keys > max_pitch ds.

#[global] Instance rejected_dec ds lo hi n : Decision (rejected ds lo hi n).
Proof. unfold rejected. apply _. Defined.

Fixpoint draw_n_keys (ds : dataset) (lo hi : Z) (draws : list nat) : result Z :=
  match draws with
  | [] => Pending
  | d :: rest =>
      n_keys ← Py.choice d (augment_range ds);
      if decide (rejected ds lo hi n_keys) then draw_n_keys ds lo hi rest
      else Ok n_keys
  end.

Definition pitch_augment (ds : dataset) (draws : list nat) (bar_events : list event)
  : result (list event) :=
  ext ← check_extreme_pitch bar_events;
  n_keys ← draw_n_keys ds ext.1 ext.2 draws;
  transpose_events bar_events n_keys.

(** *** [get_attr_classes] *)
Definition attr_slice (ds : dataset) (labels : list Z) (st_bar : Z) : list Z :=
  let cls := Py.slice labels st_bar (st_bar + Z.of_nat (model_max_bars ds)) in
  cls ++ replicate (model_max_bars ds - length cls)%nat 0.

Definition get_attr_classes (ds : dataset) (file : piece_file) (st_bar : Z)
  : result (list Z * list Z) :=
  let polyph_cls := attr_slice ds (file_polyph file) st_bar in
  let rfreq_cls := attr_slice ds (file_rhythm file) st_bar in
  _ ← assert (length polyph_cls = model_max_bars ds);
  _ ← assert (length rfreq_cls = model_max_bars ds);
  Ok (polyph_cls, rfreq_cls).

(** *** [get_encoder_input_data]

    The result is [(padded_enc_input, enc_padding_mask, enc_lens)]; rows
    are bars, columns are positions inside the bar. *)
Definition encoder_state : Type := list (list Z) * list (list bool) * list Z.

Definition encoder_step (ds : dataset) (bar_events : list Z)
    (acc : encoder_state) (x : nat * (Z * Z)) : result encoder_state :=
  let '(padded_enc_input, enc_padding_mask, enc_lens) := acc in
  let '(b, (st, ed)) := x in
  mask_row ← or_raise IndexError (enc_padding_mask !! b);
  let enc_padding_mask := <[b := Py.fill mask_row 0 (ed - st) false]> enc_padding_mask in
  _ ← or_raise IndexError (enc_lens !! b);
  let enc_lens := <[b := ed - st]> enc_lens in
  let within_bar_events :=
    pad_sequence (Py.slice bar_events st ed) (model_enc_seqlen ds) (pad_token ds) in
  _ ← or_raise IndexError (padded_enc_input !! b);
  let row := Py.slice_to within_bar_events (Z.of_nat (model_enc_seqlen ds)) in
  let padded_enc_input := <[b := row]> padded_enc_input in
  Ok (padded_enc_input, enc_padding_mask, enc_lens).

Definition get_encoder_input_data (ds : dataset) (bar_positions : list Z)
    (bar_events : list Z) : result encoder_state :=
  let M := model_max_bars ds in
  let E := model_enc_seqlen ds in
  _ ← assert (length bar_positions = M + 1)%nat;
  let enc_padding_mask := replicate M (Py.fill (replicate E true) 0 2 false) in
  let padded_enc_input := replicate M (replicate E (pad_token ds)) in
  let enc_lens := replicate M 0 in
  for_each (encoder_step ds bar_events) (Py.enumerate (bar_spans bar_positions))
    (padded_enc_input, enc_padding_mask, enc_lens).

(** *** [convert_event]

    The piece files of this class hold dictionary events, so the
    [isinstance] test takes its first branch; [event_seq[0]] raises on an
    empty sequence. *)
Definition event_key (e : event) : string :=
  name e +:+ "_" +:+ py_format (value e).

Definition convert_event (event_seq : list event) (vocab : gmap string Z)
  : result (list Z) :=
  _ ← Py.index event_seq 0;
  mapM (λ e, or_raise KeyError (vocab !! event_key e)) event_seq.

(** *** [__getitem__] *)

(** The two label arrays are written in the same loop iteration. *)
Definition expand_step (polyph_cls rfreq_cls : list Z)
    (acc : list Z * list Z) (x : nat * (Z * Z)) : result (list Z * list Z) :=
  let '(i, (b_st, b_ed)) := x in
  p ← Py.index polyph_cls (Z.of_nat i);
  let polyph_cls_expanded := Py.fill acc.1 b_st b_ed p in
  r ← Py.index rfreq_cls (Z.of_nat i);
  let rfreq_cls_expanded := Py.fill acc.2 b_st b_ed r in
  Ok (polyph_cls_expanded, rfreq_cls_expanded).

(** The label arrays of a window, from the boundary array that
    [get_sample_from_file] returned. *)
Definition expand_attr_classes (ds : dataset) (polyph_cls rfreq_cls : list Z)
    (bar_pos : list Z) : result (list Z * list Z) :=
  let zeros := replicate (model_dec_seqlen ds) 0 in
  for_each (expand_step polyph_cls rfreq_cls)
    (Py.enumerate (bar_spans bar_pos)) (zeros, zeros).

(** The record that [__getitem__] returns ([piece_id], which is read off
    the file name, is left out). *)
Record sample := Sample {
  s_id : nat;
  s_st_bar_id : Z;
  s_bar_pos : list Z;
  s_enc_input : list (list Z);
  s_dec_input : list Z;
  s_dec_target : list Z;
  s_polyph_cls : list Z;
  s_rhymfreq_cls : list Z;
  s_polyph_cls_bar : list Z;
  s_rhymfreq_cls_bar : list Z;
  s_length : nat;
  s_enc_padding_mask : list (list bool);
  s_enc_length : list Z;
  s_enc_n_bars : nat;
}.

(** The attribute block of [__getitem__]:
    [(polyph_cls, rfreq_cls, polyph_cls_expanded, rfreq_cls_expanded)]. *)
Definition attr_block (ds : dataset) (file : piece_file) (st_bar : Z)
    (bar_pos : list Z) : result (list Z * list Z * (list Z * list Z)) :=
  if use_attr_cls ds then
    cls ← get_attr_classes ds file st_bar;
    expanded ← expand_attr_classes ds cls.1 cls.2 bar_pos;
    Ok (cls.1, cls.2, expanded)
  else Ok ([0], [0], ([0], [0])).

(** [draw] feeds the window sampler, [draws] the augmenter. *)
Definition __getitem__ (ds : dataset) (draw : nat) (draws : list nat) (idx : nat)
  : result sample :=
  smp ← get_sample_from_file ds draw idx;
  let '(bar_events, st_bar, bar_pos, enc_n_bars) := smp in
  bar_events ←
    (if do_augment ds then pitch_augment ds draws bar_events else Ok bar_events);
  file ← or_raise IndexError (pieces ds !! idx);
  attrs ← attr_block ds file st_bar bar_pos;
  let '(polyph_cls, rfreq_cls, (polyph_cls_expanded, rfreq_cls_expanded)) := attrs in
  bar_tokens ← convert_event bar_events (event2idx ds);
  let bar_pos := bar_pos ++ [Z.of_nat (length bar_tokens)] in
  enc ← get_encoder_input_data ds bar_pos bar_tokens;
  let '(enc_inp, enc_padding_mask, enc_lens) := enc in
  let len := length bar_tokens in
  let inp :=
    if pad_to_same ds
    then pad_sequence bar_tokens (model_dec_seqlen ds + 1) (pad_token ds)
    else pad_sequence bar_tokens (length bar_tokens + 1) (dec_end_pad_value ds) in
  let target := Py.slice_from inp 1 in
  let inp := Py.slice_to inp (-1) in
  _ ← assert (length inp = length target);
  Ok {| s_id := idx;
        s_st_bar_id := st_bar;
        s_bar_pos := bar_pos;
        s_enc_input := enc_inp;
        s_dec_input := Py.slice_to inp (Z.of_nat (model_dec_seqlen ds));
        s_dec_target := Py.slice_to target (Z.of_nat (model_dec_seqlen ds));
        s_polyph_cls := polyph_cls_expanded;
        s_rhymfreq_cls := rfreq_cls_expanded;
        s_polyph_cls_bar := polyph_cls;
        s_rhymfreq_cls_bar := rfreq_cls;
        s_length := Nat.min len (model_dec_seqlen ds);
        s_enc_padding_mask := enc_padding_mask;
        s_enc_length := enc_lens;
        s_enc_n_bars := enc_n_bars |}.

(** ** Vocabulary of the specification

    The event ids in the order the specification lists them; the theorems
    compare [get_remi_indexer] with this enumeration. *)
Definition spec_event_ids : list string :=
  ["bar"; "eos"]
  ++ (fstring "note_on_" <$> Py.range 128)
  ++ (fstring "note_duration_" <$> Py.range2 1 65)
  ++ (fstring "note_velocity_" <$> Py.range 32)
  ++ (fstring "position_" <$> Py.range 24)
  ++ (fstring "tempo_" <$> Py.range2 30 210).

(** The bars of a window that hold tokens of the piece: the boundary list
    delivered by [__getitem__] is the piece's list followed by padding. *)
Definition real_bars (piece_bar_pos : list Z) : nat := (length piece_bar_pos - 1)%nat.

(** Bar boundaries as the data model has them: strictly increasing. *)
Definition increasing (l : list Z) : Prop := StronglySorted Z.lt l.

(** ** Sample datasets

    [default_dataset] fills in the default arguments of [__init__]. *)
Definition default_dataset (vocab : gmap string Z) (files : list piece_file)
    (bar_pos : list (list Z)) : dataset :=
  {| event2idx := vocab;
     pieces := files;
     piece_bar_pos := bar_pos;
     model_enc_seqlen := 128;
     model_dec_seqlen := 1280;
     model_max_bars := 16;
     do_augment := true;
     augment_range := Py.range2 (-6) 7;
     min_pitch := 22;
     max_pitch := 107;
     pad_to_same := true;
     use_attr_cls := true;
     appoint_st_bar := None;
     dec_end_pad_value := Z.of_nat (size vocab) |}.

Definition sample_vocab : gmap string Z :=
  list_to_map
    [("Bar_None", 0); ("Note_Pitch_60", 1); ("Note_Pitch_62", 2);
     ("Note_Velocity_100", 3); ("Note_Duration_4", 4); ("EOS_None", 5)].

(** A piece of one bar and five tokens. *)
Definition one_bar_piece : piece_file :=
  {| file_bar_pos := [0];
     file_events :=
       [Event "Bar" VNone; Event "Note_Pitch" (VInt 60);
        Event "Note_Velocity" (VInt 100); Event "Note_Duration" (VInt 4);
        Event "EOS" VNone];
     file_polyph := [3];
     file_rhythm := [5] |}.

Definition one_bar_dataset : dataset :=
  default_dataset sample_vocab [one_bar_piece] [[0; 5]].

(** A piece of two bars of three tokens each, sampled with windows of two
    bars. *)
Definition two_bar_piece : piece_file :=
  {| file_bar_pos := [0; 3];
     file_events :=
       [Event "Bar" VNone; Event "Note_Pitch" (VInt 60);
        Event "Note_Velocity" (VInt 100);
        Event "Bar" VNone; Event "Note_Pitch" (VInt 62);
        Event "Note_Velocity" (VInt 100)];
     file_polyph := [3; 4];
     file_rhythm := [5; 6] |}.

Definition two_bar_dataset : dataset :=
  {| event2idx := sample_vocab;
     pieces := [two_bar_piece];
     piece_bar_pos := [[0; 3; 6]];
     model_enc_seqlen := 4;
     model_dec_seqlen := 8;
     model_max_bars := 2;
     do_augment := false;
     augment_range := Py.range2 (-6) 7;
     min_pitch := 22;
     max_pitch := 107;
     pad_to_same := true;
     use_attr_cls := true;
     appoint_st_bar := None;
     dec_end_pad_value := 6 |}.

(** A start bar is a bar index: when one is appointed it is not negative. *)
Definition appointed_ok (ds : dataset) : Prop :=
  ∀ a, appoint_st_bar ds = Some a → 0 ≤ a.

(** Row [b] of the encoder arrays as one pass of the loop body leaves it:
    the bar's tokens padded and cut to the row width, and the mask row with
    the bar's columns cleared. *)
Definition enc_row (ds : dataset) (bar_events : list Z) (span : Z * Z) : list Z :=
  Py.slice_to
    (pad_sequence (Py.slice bar_events span.1 span.2) (model_enc_seqlen ds) (pad_token ds))
    (Z.of_nat (model_enc_seqlen ds)).

Definition enc_mask_row (mask_row : list bool) (span : Z * Z) : list bool :=
  Py.fill mask_row 0 (span.2 - span.1) false.

(** Two windows for the augmenter: one that some shifts fit, and one that
    spans the piano keyboard (pitches 21 to 108), which no shift of the
    default range brings inside the default band 22 to 107. *)
Definition sample_window : list event :=
  [Event "Bar" VNone; Event "Chord" (VStr "N_N"); Event "Chord" (VStr "C_maj");
   Event "Note_Pitch" (VInt 25); Event "Note_Velocity" (VInt 100);
   Event "Note_Pitch" (VInt 60)].

Definition keyboard_window : list event :=
  [Event "Bar" VNone; Event "Note_Pitch" (VInt 21); Event "Note_Pitch" (VInt 108)].

(** ** Notes that sound

    [sounding] keeps the notes that pass the duration test of the note
    loop; [drop_silent] is the music object without the other notes. *)
Definition sounding (notes : list note) : list note :=
  filter (λ n, note_duration n > 0) notes.

Definition drop_silent (m : music) : music :=
  {| tracks := sounding <$> tracks m; tempos := tempos m; barlines := barlines m |}.

(** The call raised a [RuntimeError]. *)
Definition is_runtime_error {A} (r : result A) : Prop :=
  ∃ msg, r = Raise (RuntimeError msg).

(** One bar of 96 ticks holding a single note of duration 0. *)
Definition silent_music : music :=
  {| tracks := [[Note 0 60 0 100]]; tempos := []; barlines := [0; 96] |}.

(** Consecutive bars: every span runs forward from a position that is not
    negative and not before the end of the spans in front of it. *)
Definition ordered_spans (spans : list (Z * Z)) : Prop :=
  StronglySorted (λ a b : Z * Z, a.2 ≤ b.1) spans
  ∧ Forall (λ a : Z * Z, 0 ≤ a.1 ≤ a.2) spans.

(** ** Chord values

    The chord values of the piece files are a root of the key table, an
    underscore and a quality that holds no underscore (["C_maj"],
    ["A#_o7"]); ["N_N"] stands for no chord. *)
Fixpoint underscore_free (s : string) : bool :=
  match s with
  | EmptyString => true
  | String c s' => negb (Ascii.eqb c "_"%char) && underscore_free s'
  end.

Definition chord_value (tone quality : string) : string :=
  tone +:+ "_" +:+ quality.

(** An event as the piece files hold them: a pitch carries an integer, a
    chord carries the no-chord mark or a root and a quality. *)
Definition well_formed_event (e : event) : Prop :=
  (name e = "Note_Pitch" → ∃ z, value e = VInt z) ∧
  (name e = "Chord" →
     value e = VStr "N_N" ∨
     ∃ tone quality i,
       value e = VStr (chord_value tone quality) ∧
       KEY_TO_IDX !! tone = Some i ∧ underscore_free quality = true).

(** The shifts that the band check lets through for the extremes
    [(lo, hi)]. *)
Definition accepted (ds : dataset) (lo hi n_keys : Z) : Prop :=
  min_pitch ds ≤ lo + n_keys ∧ hi + n_keys ≤ max_pitch ds.

(** ** The output loop of the encoder *)

(** What the output loop writes for one group: the group's events, behind
    a position event unless the group starts with a bar. *)
Definition emitted (g : timed_group) : list string :=
  match g.2 with
  | [] => []
  | head_ev :: _ =>
      if decide (head_ev ≠ "bar") then to_position_event g.1.2 :: g.2 else g.2
  end.

(** The number of entries of [l] equal to [x]. *)
Definition occurrences (x : string) (l : list string) : nat :=
  length (filter (λ y, y = x) l).

(** ** [MSREMIFullSongTransformerDataset]

    A piece file of this class holds the token array of the piece and its
    difficulty, which [build_dataset] uses only when it is an [int]. *)
Record ms_piece_file := MSPieceFile {
  ms_events : list Z;
  ms_diffs : option Z;
}.

(** [list(np.argwhere(p_evs == 0).flatten())]: the positions of the tokens
    equal to 0, in order; [i] is the position of the head of [p_evs]. *)
Fixpoint zero_positions_from (i : nat) (p_evs : list Z) : list Z :=
  match p_evs with
  | [] => []
  | x :: rest =>
      if decide (x = 0) then Z.of_nat i :: zero_positions_from (S i) rest
      else zero_positions_from (S i) rest
  end.

Definition zero_positions (p_evs : list Z) : list Z := zero_positions_from 0 p_evs.

(** The state of the loop: [(piece_bar_pos, piece_bar_diffs)]. *)
Definition ms_state : Type := list (list Z) * list (list Z).

(** The body of the [try] block. The boundary list goes through the same
    statements as in the class above; both lists are appended to at the
    end, after everything that can raise. *)
Definition ms_try (st : ms_state) (f : ms_piece_file) : result ms_state :=
  let p_evs := ms_events f in
  bar_pos ← normalize_bar_pos (zero_positions p_evs) (length p_evs);
  let piece_bar_diffs :=
    match ms_diffs f with
    | Some cur_diffs => st.2 ++ [replicate (length bar_pos) (cur_diffs - 1)]
    | None => st.2
    end in
  Ok (st.1 ++ [bar_pos], piece_bar_diffs).

(** [except: print('???')]: whatever is raised, the loop goes on with the
    next piece. *)
Definition ms_step (st : ms_state) (f : ms_piece_file) : ms_state :=
  match ms_try st f with
  | Ok st' => st'
  | Raise _ | Pending => st
  end.

Definition ms_build_dataset (files : list ms_piece_file) : ms_state :=
  foldl ms_step ([], []) files.

(** One bar of 96 ticks with a tempo change and a note at its start. *)
Definition one_note_music : music :=
  {| tracks := [[Note 0 60 24 100]]; tempos := [Tempo 0 120]; barlines := [0; 96] |}.

(** A piece of two bars of three tokens each; 0 is the bar token. *)
Definition ms_sample_piece : ms_piece_file :=
  {| ms_events := [0; 5; 7; 0; 6; 8]; ms_diffs := Some 3 |}.

(** *** [get_sample_from_file], [pitch_augment], [get_attr_classes] and
    [__getitem__] of [MSREMIFullSongTransformerDataset]

    The attributes that [build_dataset] of this class fills ([pieces] and
    the two lists of the loop state) are explicit arguments; the others are
    set by the same statements of [__init__] in both classes and are read
    from [ds]. [get_encoder_input_data] and [pad_sequence] are the same
    code in both classes. *)
Definition ms_get_sample_from_file (ds : dataset) (files : list ms_piece_file)
    (st : ms_state) (draw : nat) (piece_idx : nat)
  : result (list Z * Z * list Z * nat) :=
  let M := Z.of_nat (model_max_bars ds) in
  file ← or_raise IndexError (files !! piece_idx);
  let piece_evs := ms_events file in
  bar_pos ← or_raise IndexError (st.1 !! piece_idx);
  picked_st_bar ← pick_st_bar ds draw (length bar_pos);
  if decide (Z.of_nat (length bar_pos) > M) then
    s ← Py.index bar_pos picked_st_bar;
    e ← Py.index bar_pos (picked_st_bar + M);
    let piece_evs := Py.slice piece_evs s e in
    s' ← Py.index bar_pos picked_st_bar;
    let picked_bar_pos :=
      (λ b, b - s') <$> Py.slice bar_pos picked_st_bar (picked_st_bar + M) in
    Ok (piece_evs, picked_st_bar, picked_bar_pos, model_max_bars ds)
  else
    last ← Py.index bar_pos (-1);
    let picked_bar_pos :=
      bar_pos ++ replicate (model_max_bars ds - length bar_pos)%nat last in
    _ ← assert (length picked_bar_pos = model_max_bars ds);
    Ok (piece_evs, picked_st_bar, picked_bar_pos, length bar_pos).

(** The window of this class is an array of codes, and [check_extreme_pitch]
    reads [ev['name']] of its first entry: subscripting a NumPy integer
    raises, with the exception [scalar_subscript]. On an empty window the
    loop of [check_extreme_pitch] has nothing to read, the extremes are
    [(128, 0)], and [transpose_events] returns the empty list. *)
Definition ms_pitch_augment (scalar_subscript : exn) (ds : dataset)
    (draws : list nat) (bar_events : list Z) : result (list Z) :=
  match bar_events with
  | [] => _ ← draw_n_keys ds 128 0 draws; Ok []
  | _ :: _ => Raise scalar_subscript
  end.

Definition ms_get_attr_classes (ds : dataset) (st : ms_state) (idx : nat) (st_bar : Z)
  : result (list Z) :=
  diffs ← or_raise IndexError (st.2 !! idx);
  let diff_cls := attr_slice ds diffs st_bar in
  _ ← assert (length diff_cls = model_max_bars ds);
  Ok diff_cls.

Definition ms_expand_step (diff_cls : list Z) (acc : list Z) (x : nat * (Z * Z))
  : result (list Z) :=
  let '(i, (b_st, b_ed)) := x in
  d ← Py.index diff_cls (Z.of_nat i);
  Ok (Py.fill acc b_st b_ed d).

(** The record that [__getitem__] of this class returns ([piece_id] is
    left out, as above). *)
Record ms_sample := MSSample {
  m_id : nat;
  m_st_bar_id : Z;
  m_bar_pos : list Z;
  m_enc_input : list (list Z);
  m_dec_input : list Z;
  m_dec_target : list Z;
  m_diff_cls : list Z;
  m_diff_cls_bar : list Z;
  m_length : nat;
  m_enc_padding_mask : list (list bool);
  m_enc_length : list Z;
  m_enc_n_bars : nat;
}.

(** Without [use_attr_cls] the method assigns [polyph_cls] and
    [rfreq_cls] and their expansions, but the record it returns reads
    [diff_cls_expanded] and [diff_cls], which have no value then: building
    the record raises [UnboundLocalError]. *)
Inductive ms_outcome : Type :=
  | MSReturn (s : ms_sample)
  | MSRaise (e : exn)
  | MSUnboundLocal (variable : string)
  | MSPending.

(** Everything up to the [return] statement: the labels (when they were
    computed) and the other entries of the record. *)
Definition ms_before_return (scalar_subscript : exn) (ds : dataset)
    (files : list ms_piece_file) (st : ms_state) (draw : nat) (draws : list nat)
    (idx : nat) : result (option (list Z * list Z) * (list Z → list Z → ms_sample)) :=
  smp ← ms_get_sample_from_file ds files st draw idx;
  let '(bar_events, st_bar, bar_pos, enc_n_bars) := smp in
  bar_events ←
    (if do_augment ds then ms_pitch_augment scalar_subscript ds draws bar_events
     else Ok bar_events);
  attrs ←
    (if use_attr_cls ds then
       diff_cls ← ms_get_attr_classes ds st idx st_bar;
       diff_cls_expanded ←
         for_each (ms_expand_step diff_cls) (Py.enumerate (bar_spans bar_pos))
           (replicate (model_dec_seqlen ds) 0);
       Ok (Some (diff_cls, diff_cls_expanded))
     else Ok None);
  let bar_tokens := bar_events in
  let bar_pos := bar_pos ++ [Z.of_nat (length bar_tokens)] in
  enc ← get_encoder_input_data ds bar_pos bar_tokens;
  let '(enc_inp, enc_padding_mask, enc_lens) := enc in
  let len := length bar_tokens in
  let inp :=
    if pad_to_same ds
    then pad_sequence bar_tokens (model_dec_seqlen ds + 1) (pad_token ds)
    else pad_sequence bar_tokens (length bar_tokens + 1) (dec_end_pad_value ds) in
  let target := Py.slice_from inp 1 in
  let inp := Py.slice_to inp (-1) in
  _ ← assert (length inp = length target);
  Ok (attrs,
      λ diff_cls diff_cls_expanded,
        {| m_id := idx;
           m_st_bar_id := st_bar;
           m_bar_pos := bar_pos;
           m_enc_input := enc_inp;
           m_dec_input := Py.slice_to inp (Z.of_nat (model_dec_seqlen ds));
           m_dec_target := Py.slice_to target (Z.of_nat (model_dec_seqlen ds));
           m_diff_cls := diff_cls_expanded;
           m_diff_cls_bar := diff_cls;
           m_length := Nat.min len (model_dec_seqlen ds);
           m_enc_padding_mask := enc_padding_mask;
           m_enc_length := enc_lens;
           m_enc_n_bars := enc_n_bars |}).

Definition ms_getitem (scalar_subscript : exn) (ds : dataset)
    (files : list ms_piece_file) (st : ms_state) (draw : nat) (draws : list nat)
    (idx : nat) : ms_outcome :=
  match ms_before_return scalar_subscript ds files st draw draws idx with
  | Ok (Some (diff_cls, diff_cls_expanded), record) =>
      MSReturn (record diff_cls diff_cls_expanded)
  | Ok (None, _) => MSUnboundLocal "diff_cls_expanded"
  | Raise e => MSRaise e
  | Pending => MSPending
  end.

(** A dataset of this class over the sample piece, with windows of two
    bars, configured like the unit test of the source file: no
    augmentation, with labels. *)
Definition ms_sample_dataset : dataset :=
  {| event2idx := sample_vocab;
     pieces := [];
     piece_bar_pos := [];
     model_enc_seqlen := 4;
     model_dec_seqlen := 8;
     model_max_bars := 2;
     do_augment := false;
     augment_range := Py.range2 (-6) 7;
     min_pitch := 22;
     max_pitch := 107;
     pad_to_same := true;
     use_attr_cls := true;
     appoint_st_bar := None;
     dec_end_pad_value := 6 |}.

(** * Theorems *)

(** ** Facts about the outcome monad and the Python primitives *)

Lemma bind_Ok {A B} (r : result A) (f : A → result B) (b : B) :
  r ≫= f = Ok b → ∃ a, r = Ok a ∧ f a = Ok b.
Proof. destruct r as [a| |]; simpl; [eauto|done|done]. Qed.

Lemma assert_Ok (P : Prop) `{Decision P} : assert P = Ok () ↔ P.
Proof. unfold assert. destruct (decide P); split; intros; done. Qed.

Lemma assert_true (P : Prop) `{Decision P} : P → assert P = Ok ().
Proof. apply assert_Ok. Qed.

Section PyFacts.
Context {A : Type}.
Implicit Types (l : list A) (x : A).

Lemma index_nat l (i : nat) x : l !! i = Some x → Py.index l (Z.of_nat i) = Ok x.
Proof.
  intros Hl. unfold Py.index.
  destruct (decide (0 ≤ Z.of_nat i)) as [_|?]; [|lia].
  by rewrite Nat2Z.id, Hl.
Qed.

Lemma index_Ok_nonneg l (i : Z) x :
  0 ≤ i → Py.index l i = Ok x → l !! Z.to_nat i = Some x.
Proof.
  intros Hi. unfold Py.index.
  destruct (decide (0 ≤ i)) as [_|?]; [|lia].
  destruct (l !! Z.to_nat i); simpl; congruence.
Qed.

Lemma index_last_snoc l x : Py.index (l ++ [x]) (-1) = Ok x.
Proof.
  unfold Py.index. rewrite length_app. simpl.
  destruct (decide (0 ≤ -1)) as [?|_]; [lia|].
  destruct (decide (0 ≤ Z.of_nat (length l + 1) + -1)) as [_|?]; [|lia].
  replace (Z.to_nat (Z.of_nat (length l + 1) + -1)) with (length l) by lia.
  by rewrite list_lookup_middle.
Qed.

Lemma index_last_nil : Py.index (@nil A) (-1) = Raise IndexError.
Proof. reflexivity. Qed.

Lemma slice_to_last_snoc l x : Py.slice_to (l ++ [x]) (-1) = l.
Proof.
  unfold Py.slice_to, Py.bound. rewrite length_app. simpl.
  destruct (decide (-1 < 0)) as [_|?]; [|lia].
  replace (Z.to_nat (Z.of_nat (length l + 1) + -1)) with (length l) by lia.
  by rewrite take_app_length.
Qed.

Lemma slice_to_last l : Py.slice_to l (-1) = take (length l - 1) l.
Proof.
  unfold Py.slice_to, Py.bound.
  destruct (decide (-1 < 0)) as [_|?]; [|lia].
  f_equal. lia.
Qed.

Lemma slice_from_1 l : Py.slice_from l 1 = drop 1 l.
Proof.
  unfold Py.slice_from, Py.bound.
  destruct (decide (1 < 0)) as [?|_]; [lia|].
  destruct l as [|a l]; [done|]. simpl length.
  replace (Nat.min (S (length l)) (Z.to_nat 1)) with 1%nat by lia. done.
Qed.

Lemma bound_nat (len n : nat) : Py.bound len (Z.of_nat n) = Nat.min len n.
Proof.
  unfold Py.bound. destruct (decide (Z.of_nat n < 0)) as [?|_]; [lia|].
  by rewrite Nat2Z.id.
Qed.

Lemma snoc_cases l : l = [] ∨ ∃ l' x, l = l' ++ [x].
Proof. destruct l as [|a l] using rev_ind; [by left|right; eauto]. Qed.

Lemma choice_range_Ok (d : nat) l : l ≠ [] → ∃ x, Py.choice d l = Ok x ∧ x ∈ l.
Proof.
  intros Hl. unfold Py.choice.
  assert (length l ≠ 0)%nat as Hn by (destruct l; simpl; [done|lia]).
  destruct (lookup_lt_is_Some_2 l (d `mod` length l)%nat) as [x Hx].
  { by apply Nat.mod_upper_bound. }
  exists x. rewrite Hx. split; [done|]. by eapply list_elem_of_lookup_2.
Qed.

End PyFacts.

Lemma increasing_snoc_inv (l : list Z) (x y : Z) :
  increasing ((l ++ [x]) ++ [y]) → x < y ∧ increasing (l ++ [x]).
Proof.
  unfold increasing. intros H.
  apply StronglySorted_app in H as (Hlt & Hl & _).
  split; [|done].
  apply Hlt; [apply elem_of_app; right|]; apply list_elem_of_singleton; done.
Qed.

(** ** Piece boundary normalisation *)

Lemma normalize_shape (bar_pos : list Z) (n : nat) (bar_pos' : list Z) :
  normalize_bar_pos bar_pos n = Ok bar_pos' →
  ∃ core, bar_pos' = core ++ [Z.of_nat n].
Proof.
  unfold normalize_bar_pos. intros H.
  apply bind_Ok in H as (last1 & _ & H).
  apply bind_Ok in H as (last2 & _ & H).
  injection H as <-. eauto.
Qed.

(** Normalising a list that already ends in the token count: the count is
    dropped, the two-token test is made on what is left, and the count is
    put back. *)
Lemma normalize_snoc (core : list Z) (n : nat) :
  normalize_bar_pos (core ++ [Z.of_nat n]) n =
    last2 ← Py.index core (-1);
    Ok ((if decide (Z.of_nat n - last2 = 2) then Py.slice_to core (-1) else core)
          ++ [Z.of_nat n]).
Proof.
  unfold normalize_bar_pos. rewrite index_last_snoc. simpl.
  destruct (decide (Z.of_nat n = Z.of_nat n)) as [_|?]; [|done].
  by rewrite slice_to_last_snoc.
Qed.

(** Exactly when a second pass changes nothing. *)
Lemma normalize_twice_iff (core : list Z) (n : nat) :
  normalize_bar_pos (core ++ [Z.of_nat n]) n = Ok (core ++ [Z.of_nat n]) ↔
  ∃ core' c, core = core' ++ [c] ∧ Z.of_nat n - c ≠ 2.
Proof.
  rewrite normalize_snoc.
  destruct (snoc_cases core) as [->|(core' & c & ->)].
  - split; [done|]. intros (core' & c & Hc & _). by destruct core'.
  - rewrite index_last_snoc. simpl. rewrite slice_to_last_snoc.
    destruct (decide (Z.of_nat n - c = 2)) as [Hc|Hc].
    + split.
      * intros H. injection H as H. apply app_inv_tail in H.
        apply (f_equal length) in H. rewrite length_app in H. simpl in H. lia.
      * intros (core'' & c' & Heq & Hne). apply app_inj_tail in Heq as [_ <-]. done.
    + split; [eauto|done].
Qed.

Lemma normalize_increasing_core (bar_pos : list Z) (n : nat) (core core' : list Z) (c : Z) :
  increasing bar_pos →
  normalize_bar_pos bar_pos n = Ok (core ++ [Z.of_nat n]) →
  core = core' ++ [c] →
  Z.of_nat n - c ≠ 2.
Proof.
  intros Hinc H ->. unfold normalize_bar_pos in H.
  destruct (snoc_cases bar_pos) as [->|(l & x & ->)]; [done|].
  rewrite index_last_snoc in H. simpl in H. rewrite slice_to_last_snoc in H.
  destruct (decide (x = Z.of_nat n)) as [->|Hx].
  - destruct (snoc_cases l) as [->|(l' & y & ->)]; [done|].
    rewrite index_last_snoc in H. simpl in H. rewrite slice_to_last_snoc in H.
    apply increasing_snoc_inv in Hinc as [Hyn Hinc].
    destruct (decide (Z.of_nat n - y = 2)) as [Hy|Hy].
    + injection H as H. apply app_inv_tail in H. subst l'.
      apply increasing_snoc_inv in Hinc as [Hcy _]. lia.
    + injection H as H. apply app_inv_tail in H.
      apply app_inj_tail in H as [_ ->]. done.
  - rewrite index_last_snoc in H. simpl in H. rewrite slice_to_last_snoc in H.
    destruct (decide (Z.of_nat n - x = 2)) as [Hx2|Hx2].
    + injection H as H. apply app_inv_tail in H. subst l.
      apply increasing_snoc_inv in Hinc as [Hcx _]. lia.
    + injection H as H. apply app_inv_tail in H.
      apply app_inj_tail in H as [_ ->]. done.
Qed.

(** C8, as the specification words it, fails: a one-bar piece of two tokens
    with boundary list [0] normalises to [2], and normalising [2] again
    raises, because the list is empty once the trailing count is dropped.
    With a repeated boundary the second pass changes the list: [0, 3, 3]
    and five tokens give [0, 3, 5], and then [0, 5]. *)
Lemma normalize_twice_counterexample :
  (normalize_bar_pos [0] 2 = Ok [2] ∧ normalize_bar_pos [2] 2 = Raise IndexError) ∧
  (normalize_bar_pos [0; 3; 3] 5 = Ok [0; 3; 5] ∧
   normalize_bar_pos [0; 3; 5] 5 = Ok [0; 5]).
Proof. repeat split; reflexivity. Qed.

(** C8 (amended). For a strictly increasing boundary list whose normal form
    keeps at least one bar start (two entries or more), normalising the
    normal form again returns it unchanged. *)
Theorem normalize_idempotent (bar_pos : list Z) (n : nat) (bar_pos' : list Z) :
  increasing bar_pos →
  normalize_bar_pos bar_pos n = Ok bar_pos' →
  (2 ≤ length bar_pos')%nat →
  normalize_bar_pos bar_pos' n = Ok bar_pos'.
Proof.
  intros Hinc H Hlen.
  destruct (normalize_shape _ _ _ H) as [core ->].
  apply normalize_twice_iff.
  destruct (snoc_cases core) as [->|(core' & c & ->)].
  { simpl in Hlen. lia. }
  exists core', c. split; [done|].
  by eapply normalize_increasing_core.
Qed.

Lemma normalize_idempotent_witness :
  increasing [0; 4; 7; 9] ∧
  normalize_bar_pos [0; 4; 7; 9] 9 = Ok [0; 4; 9] ∧
  normalize_bar_pos [0; 4; 9] 9 = Ok [0; 4; 9].
Proof.
  assert (increasing [0; 4; 7; 9]) as Hinc.
  { unfold increasing. repeat constructor; lia. }
  split; [exact Hinc|]. split; [reflexivity|].
  apply (normalize_idempotent [0; 4; 7; 9] 9 [0; 4; 9] Hinc).
  - reflexivity.
  - simpl. lia.
Defined.

(** ** Loops in the outcome monad *)

Lemma mapM_Ok_length {A B} (f : A → result B) (l : list A) (k : list B) :
  mapM f l = Ok k → length k = length l.
Proof.
  revert k. induction l as [|x l IH]; intros k H; simpl in H.
  - injection H as <-. done.
  - apply bind_Ok in H as (y & _ & H). apply bind_Ok in H as (k' & Hk' & H).
    injection H as <-. simpl. f_equal. by apply IH.
Qed.

Lemma mapM_Ok_lookup {A B} (f : A → result B) (l : list A) (k : list B) i x :
  mapM f l = Ok k → l !! i = Some x → ∃ y, k !! i = Some y ∧ f x = Ok y.
Proof.
  revert k i. induction l as [|x' l IH]; intros k i H Hi; [done|].
  simpl in H.
  apply bind_Ok in H as (y & Hy & H). apply bind_Ok in H as (k' & Hk' & H).
  injection H as <-.
  destruct i as [|i]; simpl in *.
  - injection Hi as ->. eauto.
  - eauto.
Qed.

Lemma mapM_Ok_lookup_inv {A B} (f : A → result B) (l : list A) (k : list B) i y :
  mapM f l = Ok k → k !! i = Some y → ∃ x, l !! i = Some x ∧ f x = Ok y.
Proof.
  intros H Hi.
  destruct (lookup_lt_is_Some_2 l i) as [x Hx].
  { rewrite <- (mapM_Ok_length _ _ _ H). by eapply lookup_lt_Some. }
  destruct (mapM_Ok_lookup _ _ _ _ _ H Hx) as (y' & Hy' & Hf).
  exists x. split; [done|]. congruence.
Qed.

(** A constructed dataset stores, for every piece file, the normal form of
    its boundary list. *)
Lemma constructed_lookup (ds : dataset) (idx : nat) (file : piece_file) :
  constructed ds → pieces ds !! idx = Some file →
  ∃ bar_pos, piece_bar_pos ds !! idx = Some bar_pos ∧
    normalize_bar_pos (file_bar_pos file) (length (file_events file)) = Ok bar_pos.
Proof. intros H Hf. by eapply (mapM_Ok_lookup _ _ _ _ _ H Hf). Qed.

Lemma constructed_nonempty (ds : dataset) (idx : nat) (file : piece_file) (bar_pos : list Z) :
  constructed ds → pieces ds !! idx = Some file →
  piece_bar_pos ds !! idx = Some bar_pos →
  ∃ core, bar_pos = core ++ [Z.of_nat (length (file_events file))].
Proof.
  intros H Hf Hb.
  destruct (constructed_lookup _ _ _ H Hf) as (bp & Hbp & Hn).
  rewrite Hb in Hbp. injection Hbp as <-. by eapply normalize_shape.
Qed.

(** ** The window sampler *)

Lemma elem_of_range (k x : Z) : x ∈ Py.range k ↔ 0 ≤ x < k.
Proof.
  unfold Py.range. rewrite list_elem_of_fmap. split.
  - intros (i & -> & Hi). apply elem_of_seq in Hi. lia.
  - intros Hx. exists (Z.to_nat x). split; [lia|]. apply elem_of_seq. lia.
Qed.

Lemma elem_of_range2 (lo hi x : Z) : x ∈ Py.range2 lo hi ↔ lo ≤ x < hi.
Proof.
  unfold Py.range2. rewrite list_elem_of_fmap. split.
  - intros (i & -> & Hi). apply elem_of_seq in Hi. lia.
  - intros Hx. exists (Z.to_nat (x - lo)). split; [lia|]. apply elem_of_seq. lia.
Qed.

Lemma range_nonempty (k : Z) : 0 < k → Py.range k ≠ [].
Proof.
  intros Hk Hnil. assert (0 ∈ Py.range k) as H by (apply elem_of_range; lia).
  rewrite Hnil in H. by apply elem_of_nil in H.
Qed.

Lemma pick_st_bar_spec (ds : dataset) (draw n : nat) :
  appointed_ok ds →
  ∃ st, pick_st_bar ds draw n = Ok st ∧ 0 ≤ st ∧
    (Z.of_nat n > Z.of_nat (model_max_bars ds) →
       st < Z.of_nat n - Z.of_nat (model_max_bars ds)) ∧
    (Z.of_nat n ≤ Z.of_nat (model_max_bars ds) → st = 0).
Proof.
  intros Hok. unfold pick_st_bar.
  destruct (appoint_st_bar ds) as [a|] eqn:Ha.
  - specialize (Hok a Ha).
    destruct (decide (a < Z.of_nat n - Z.of_nat (model_max_bars ds))).
    + exists a. repeat split; [done|lia|lia].
    + exists 0. repeat split; lia.
  - destruct (decide (Z.of_nat n > Z.of_nat (model_max_bars ds))) as [Hn|Hn].
    + destruct (choice_range_Ok draw
                  (Py.range (Z.of_nat n - Z.of_nat (model_max_bars ds))))
        as (x & Hx & Hin).
      { apply range_nonempty. lia. }
      apply elem_of_range in Hin. exists x. repeat split; [done|lia|lia|lia].
    + exists 0. repeat split; lia.
Qed.

Lemma slice_inside {A} (l : list A) (lo : Z) (k : nat) :
  0 ≤ lo → (Z.to_nat lo + k ≤ length l)%nat →
  Py.slice l lo (lo + Z.of_nat k) = take k (drop (Z.to_nat lo) l).
Proof.
  intros Hlo Hk. unfold Py.slice, Py.bound.
  destruct (decide (lo < 0)) as [?|_]; [lia|].
  destruct (decide (lo + Z.of_nat k < 0)) as [?|_]; [lia|].
  replace (Nat.min (length l) (Z.to_nat lo)) with (Z.to_nat lo) by lia.
  f_equal. lia.
Qed.

(** The padding branch: the whole piece, start bar 0, the boundary list
    followed by copies of its last entry. *)
Lemma sample_padding_branch (ds : dataset) (draw idx : nat) (file : piece_file)
    (bar_pos : list Z) :
  constructed ds → appointed_ok ds →
  pieces ds !! idx = Some file → piece_bar_pos ds !! idx = Some bar_pos →
  (length bar_pos ≤ model_max_bars ds)%nat →
  get_sample_from_file ds draw idx =
    Ok (file_events file, 0,
        bar_pos ++ replicate (model_max_bars ds - length bar_pos)
                     (Z.of_nat (length (file_events file))),
        length bar_pos).
Proof.
  intros Hc Hok Hf Hb Hlen. unfold get_sample_from_file.
  rewrite Hf, Hb. simpl.
  destruct (pick_st_bar_spec ds draw (length bar_pos) Hok) as (st & -> & _ & _ & Hst).
  simpl. rewrite Hst by lia.
  destruct (decide (Z.of_nat (length bar_pos) > Z.of_nat (model_max_bars ds))); [lia|].
  destruct (constructed_nonempty _ _ _ _ Hc Hf Hb) as [core ->].
  rewrite index_last_snoc. simpl.
  rewrite assert_true; [done|].
  rewrite length_app, length_replicate. lia.
Qed.

(** The truncating branch: [model_max_bars] boundaries from the start bar
    on, shifted to start at zero. *)
Lemma sample_truncating_branch (ds : dataset) (draw idx : nat) (file : piece_file)
    (bar_pos : list Z) :
  appointed_ok ds →
  pieces ds !! idx = Some file → piece_bar_pos ds !! idx = Some bar_pos →
  (model_max_bars ds < length bar_pos)%nat →
  ∃ (st : nat) (s e : Z),
    pick_st_bar ds draw (length bar_pos) = Ok (Z.of_nat st) ∧
    (st + model_max_bars ds < length bar_pos)%nat ∧
    bar_pos !! st = Some s ∧ bar_pos !! (st + model_max_bars ds)%nat = Some e ∧
    get_sample_from_file ds draw idx =
      Ok (Py.slice (file_events file) s e, Z.of_nat st,
          (λ b, b - s) <$> take (model_max_bars ds) (drop st bar_pos),
          model_max_bars ds).
Proof.
  intros Hok Hf Hb Hlen. unfold get_sample_from_file.
  rewrite Hf, Hb. simpl.
  destruct (pick_st_bar_spec ds draw (length bar_pos) Hok) as (st & Hpick & Hst0 & Hst & _).
  rewrite Hpick. simpl.
  destruct (decide (Z.of_nat (length bar_pos) > Z.of_nat (model_max_bars ds))) as [Hgt|?]; [|lia].
  specialize (Hst Hgt).
  destruct (Z_of_nat_complete st Hst0) as [n ->].
  destruct (lookup_lt_is_Some_2 bar_pos n) as [s Hs]; [lia|].
  destruct (lookup_lt_is_Some_2 bar_pos (n + model_max_bars ds)) as [e He]; [lia|].
  exists n, s, e.
  split; [done|]. split; [lia|]. split; [done|]. split; [done|].
  rewrite (index_nat _ _ _ Hs). simpl.
  rewrite <- Nat2Z.inj_add, (index_nat _ _ _ He). simpl.
  rewrite Nat2Z.inj_add, slice_inside by lia.
  by rewrite Nat2Z.id.
Qed.

(** ** Slice assignment *)

Section FillFacts.
Context {A : Type}.
Implicit Types (l : list A) (v : A).

Lemma bound_le (len : nat) (i : Z) : (Py.bound len i ≤ len)%nat.
Proof. unfold Py.bound. destruct (decide (i < 0)); lia. Qed.

Lemma length_fill l lo hi v : length (Py.fill l lo hi v) = length l.
Proof.
  unfold Py.fill.
  pose proof (bound_le (length l) lo). pose proof (bound_le (length l) hi).
  rewrite !length_app, length_take, length_replicate, length_drop. lia.
Qed.

Lemma fill_lookup_in l lo hi v (j : nat) :
  (Py.bound (length l) lo ≤ j < Py.bound (length l) hi)%nat →
  Py.fill l lo hi v !! j = Some v.
Proof.
  intros Hj. unfold Py.fill.
  pose proof (bound_le (length l) lo). pose proof (bound_le (length l) hi).
  rewrite lookup_app_r; rewrite length_take; [|lia].
  rewrite lookup_app_l; [|rewrite length_replicate; lia].
  apply lookup_replicate_2. lia.
Qed.

Lemma fill_lookup_out l lo hi v (j : nat) :
  ¬ (Py.bound (length l) lo ≤ j < Py.bound (length l) hi)%nat →
  Py.fill l lo hi v !! j = l !! j.
Proof.
  intros Hj. unfold Py.fill.
  pose proof (bound_le (length l) lo). pose proof (bound_le (length l) hi).
  destruct (decide (j < Py.bound (length l) lo)%nat) as [Hlt|Hge].
  - rewrite lookup_app_l; [|rewrite length_take; lia].
    by rewrite lookup_take_lt.
  - rewrite lookup_app_r; rewrite length_take; [|lia].
    rewrite lookup_app_r; rewrite length_replicate; [|lia].
    rewrite lookup_drop. f_equal. lia.
Qed.

End FillFacts.

(** ** The bars of a boundary list *)

Lemma length_bar_spans (bar_pos : list Z) :
  length (bar_spans bar_pos) = (length bar_pos - 1)%nat.
Proof.
  unfold bar_spans. rewrite slice_to_last, slice_from_1.
  rewrite length_zip, length_take, length_drop. lia.
Qed.

Lemma bar_spans_lookup (bar_pos : list Z) (b : nat) (st ed : Z) :
  bar_spans bar_pos !! b = Some (st, ed) ↔
  bar_pos !! b = Some st ∧ bar_pos !! S b = Some ed.
Proof.
  unfold bar_spans. rewrite slice_to_last, slice_from_1.
  rewrite lookup_zip_with_Some. split.
  - intros (x & y & Heq & Hx & Hy). injection Heq as <- <-.
    apply lookup_take_Some in Hx as [Hx _]. rewrite lookup_drop in Hy. done.
  - intros [Hst Hed]. exists st, ed. split; [done|]. split.
    + apply lookup_take_Some. split; [done|].
      apply lookup_lt_Some in Hed. lia.
    + by rewrite lookup_drop.
Qed.

(** ** The encoder arrays *)

(** The loop over the bars, started at row [s] on arrays of [N] rows: it
    returns, keeps the shapes, leaves the rows outside [s, s + len) alone
    and writes each row inside once. *)
Lemma encoder_loop (ds : dataset) (toks : list Z) (N : nat) (spans : list (Z * Z)) :
  ∀ (s : nat) (inp : list (list Z)) (mask : list (list bool)) (lens : list Z),
    length inp = N → length mask = N → length lens = N →
    (s + length spans ≤ N)%nat →
    ∃ inp' mask' lens',
      for_each (encoder_step ds toks) (zip (seq s (length spans)) spans)
        (inp, mask, lens) = Ok (inp', mask', lens') ∧
      length inp' = N ∧ length mask' = N ∧ length lens' = N ∧
      (∀ b, (b < s)%nat →
         inp' !! b = inp !! b ∧ mask' !! b = mask !! b ∧ lens' !! b = lens !! b) ∧
      (∀ i sp, spans !! i = Some sp →
         ∃ m0, mask !! (s + i)%nat = Some m0 ∧
           inp' !! (s + i)%nat = Some (enc_row ds toks sp) ∧
           mask' !! (s + i)%nat = Some (enc_mask_row m0 sp) ∧
           lens' !! (s + i)%nat = Some (sp.2 - sp.1)).
Proof.
  induction spans as [|[st ed] spans IH]; intros s inp mask lens Hi Hm Hl Hs.
  - exists inp, mask, lens. simpl. repeat split; try done.
  - simpl in Hs. simpl.
    destruct (lookup_lt_is_Some_2 mask s) as [m0 Hm0]; [lia|].
    destruct (lookup_lt_is_Some_2 lens s) as [l0 Hl0]; [lia|].
    destruct (lookup_lt_is_Some_2 inp s) as [i0 Hi0]; [lia|].
    rewrite Hm0. simpl. rewrite Hl0. simpl. rewrite Hi0. simpl.
    edestruct (IH (S s)) as (inp' & mask' & lens' & Hrun & Hi' & Hm' & Hl' & Hlow & Hin).
    4: { lia. }
    4: { exists inp', mask', lens'. split; [exact Hrun|].
         split; [done|]. split; [done|]. split; [done|]. split.
         - intros b Hb. destruct (Hlow b ltac:(lia)) as (-> & -> & ->).
           rewrite !list_lookup_insert_ne by lia. done.
         - intros [|i] sp Hsp; simpl in Hsp.
           + injection Hsp as <-. exists m0. rewrite Nat.add_0_r.
             split; [done|].
             destruct (Hlow s ltac:(lia)) as (-> & -> & ->).
             rewrite !list_lookup_insert_eq by lia. done.
           + destruct (Hin i sp Hsp) as (m1 & Hm1 & Ha & Hb & Hc).
             replace (s + S i)%nat with (S s + i)%nat by lia.
             rewrite list_lookup_insert_ne in Hm1 by lia.
             exists m1. done. }
    all: by rewrite length_insert.
Qed.

Lemma enc_row_take (ds : dataset) (toks : list Z) (sp : Z * Z) :
  enc_row ds toks sp =
    take (model_enc_seqlen ds)
      (Py.slice toks sp.1 sp.2
       ++ replicate (model_enc_seqlen ds - length (Py.slice toks sp.1 sp.2)) (pad_token ds)).
Proof.
  unfold enc_row, Py.slice_to, pad_sequence. rewrite bound_nat.
  set (x := Py.slice toks sp.1 sp.2 ++ _).
  destruct (decide (length x ≤ model_enc_seqlen ds)%nat).
  - rewrite Nat.min_l by done. rewrite !take_ge by lia. done.
  - f_equal. lia.
Qed.

Lemma length_enc_row (ds : dataset) (toks : list Z) (sp : Z * Z) :
  length (enc_row ds toks sp) = model_enc_seqlen ds.
Proof.
  rewrite enc_row_take, length_take, length_app, length_replicate. lia.
Qed.

(** The initial mask row: everything masked but the first two columns. *)
Lemma initial_mask_row (E j : nat) :
  (j < E)%nat →
  Py.fill (replicate E true) 0 2 false !! j = Some (bool_decide (2 ≤ j)%nat).
Proof.
  intros Hj.
  assert (Py.bound E 0 = 0%nat) as H0 by (unfold Py.bound; simpl; lia).
  assert (Py.bound E 2 = Nat.min E 2) as H2 by (apply (bound_nat E 2)).
  destruct (decide (2 ≤ j)%nat) as [Hge|Hlt].
  - rewrite fill_lookup_out by (rewrite length_replicate, H0, H2; lia).
    rewrite bool_decide_eq_true_2 by done. by apply lookup_replicate_2.
  - rewrite fill_lookup_in by (rewrite length_replicate, H0, H2; lia).
    by rewrite bool_decide_eq_false_2.
Qed.

(** A finished mask row: a column is clear when it is one of the first two
    or lies inside the bar, and masked otherwise. *)
Lemma enc_mask_row_lookup (E j : nat) (st ed : Z) :
  (j < E)%nat → 0 ≤ ed - st →
  enc_mask_row (Py.fill (replicate E true) 0 2 false) (st, ed) !! j =
    Some (bool_decide ((2 ≤ j)%nat ∧ ed - st ≤ Z.of_nat j)).
Proof.
  intros Hj Hl. unfold enc_mask_row. simpl.
  set (m0 := Py.fill (replicate E true) 0 2 false).
  assert (length m0 = E) as Hm0 by (unfold m0; by rewrite length_fill, length_replicate).
  assert (Py.bound E 0 = 0%nat) as H0 by (unfold Py.bound; simpl; lia).
  assert (Py.bound E (ed - st) = Nat.min E (Z.to_nat (ed - st))) as Hb.
  { unfold Py.bound. destruct (decide (ed - st < 0)); [lia|done]. }
  destruct (decide (Z.of_nat j < ed - st)) as [Hin|Hout].
  - rewrite fill_lookup_in by (rewrite Hm0, H0, Hb; lia).
    rewrite bool_decide_eq_false_2; [done|lia].
  - rewrite fill_lookup_out by (rewrite Hm0, H0, Hb; lia).
    unfold m0. rewrite initial_mask_row by done. f_equal.
    apply bool_decide_ext. lia.
Qed.

(** The call returns whenever it is given [model_max_bars + 1] boundaries,
    and row [b] is what the loop body computes from bar [b]. *)
Lemma get_encoder_input_data_rows (ds : dataset) (bar_positions toks : list Z) :
  length bar_positions = (model_max_bars ds + 1)%nat →
  ∃ inp mask lens,
    get_encoder_input_data ds bar_positions toks = Ok (inp, mask, lens) ∧
    length inp = model_max_bars ds ∧ length mask = model_max_bars ds ∧
    length lens = model_max_bars ds ∧
    ∀ b sp, bar_spans bar_positions !! b = Some sp →
      inp !! b = Some (enc_row ds toks sp) ∧
      mask !! b =
        Some (enc_mask_row (Py.fill (replicate (model_enc_seqlen ds) true) 0 2 false) sp) ∧
      lens !! b = Some (sp.2 - sp.1).
Proof.
  intros Hlen. unfold get_encoder_input_data.
  rewrite assert_true by done. simpl. unfold Py.enumerate.
  pose proof (length_bar_spans bar_positions) as Hspans.
  edestruct (encoder_loop ds toks (model_max_bars ds) (bar_spans bar_positions) 0)
    as (inp & mask & lens & Hrun & Hi & Hm & Hl & _ & Hin).
  4: { lia. }
  4: { exists inp, mask, lens. split; [exact Hrun|].
       split; [done|]. split; [done|]. split; [done|].
       intros b sp Hsp. destruct (Hin b sp Hsp) as (m0 & Hm0 & Ha & Hb & Hc).
       simpl in *. apply lookup_replicate_1 in Hm0 as [-> _]. done. }
  all: by rewrite length_replicate.
Qed.

(** C7. Given exactly [model_max_bars + 1] boundaries,
    [get_encoder_input_data] returns an input array and a mask of shape
    [(model_max_bars, model_enc_seqlen)] and [model_max_bars] lengths. For
    bar [b] from [st] to [ed]: [enc_lens[b]] is [ed - st]; row [b] is the
    slice of the bar's tokens, padded with the pad code and cut to
    [model_enc_seqlen]; in mask row [b] the first two columns are clear
    whatever the bar's length, every column below [ed - st] is clear, and
    (for a bar of non-negative length) every other column stays masked. *)
Theorem get_encoder_input_data_spec (ds : dataset) (bar_positions toks : list Z) :
  length bar_positions = (model_max_bars ds + 1)%nat →
  ∃ inp mask lens,
    get_encoder_input_data ds bar_positions toks = Ok (inp, mask, lens) ∧
    length inp = model_max_bars ds ∧
    Forall (λ row, length row = model_enc_seqlen ds) inp ∧
    length mask = model_max_bars ds ∧
    Forall (λ row, length row = model_enc_seqlen ds) mask ∧
    length lens = model_max_bars ds ∧
    ∀ (b : nat) (st ed : Z),
      bar_positions !! b = Some st → bar_positions !! S b = Some ed →
      ∃ row mrow,
        inp !! b = Some row ∧ mask !! b = Some mrow ∧ lens !! b = Some (ed - st) ∧
        row = take (model_enc_seqlen ds)
                (Py.slice toks st ed
                 ++ replicate (model_enc_seqlen ds - length (Py.slice toks st ed))
                      (pad_token ds)) ∧
        ∀ j : nat, (j < model_enc_seqlen ds)%nat →
          ((j < 2)%nat → mrow !! j = Some false) ∧
          (Z.of_nat j < ed - st → mrow !! j = Some false) ∧
          ((2 ≤ j)%nat → 0 ≤ ed - st ≤ Z.of_nat j → mrow !! j = Some true).
Proof.
  intros Hlen.
  destruct (get_encoder_input_data_rows ds bar_positions toks Hlen)
    as (inp & mask & lens & Hrun & Hi & Hm & Hl & Hrows).
  pose proof (length_bar_spans bar_positions) as Hspans.
  assert (∀ b, (b < model_max_bars ds)%nat → is_Some (bar_spans bar_positions !! b)) as Hsp.
  { intros b Hb. apply lookup_lt_is_Some_2. lia. }
  exists inp, mask, lens. split; [done|]. split; [done|]. split.
  { apply Forall_lookup. intros b row Hrow.
    destruct (Hsp b) as [sp Hb]; [apply lookup_lt_Some in Hrow; lia|].
    destruct (Hrows b sp Hb) as (Ha & _ & _).
    rewrite Ha in Hrow. injection Hrow as <-. apply length_enc_row. }
  split; [done|]. split.
  { apply Forall_lookup. intros b row Hrow.
    destruct (Hsp b) as [sp Hb]; [apply lookup_lt_Some in Hrow; lia|].
    destruct (Hrows b sp Hb) as (_ & Ha & _).
    rewrite Ha in Hrow. injection Hrow as <-.
    unfold enc_mask_row. by rewrite !length_fill, length_replicate. }
  split; [done|].
  intros b st ed Hst Hed.
  destruct (Hrows b (st, ed)) as (Ha & Hb & Hc); [by apply bar_spans_lookup|].
  eexists _, _. split; [exact Ha|]. split; [exact Hb|]. split; [exact Hc|].
  split; [apply enc_row_take|].
  intros j Hj.
  destruct (decide (0 ≤ ed - st)) as [Hpos|Hneg].
  - rewrite enc_mask_row_lookup by done.
    split; [|split]; intros; f_equal.
    + apply bool_decide_eq_false_2. lia.
    + apply bool_decide_eq_false_2. lia.
    + apply bool_decide_eq_true_2. lia.
  - split; [|split]; [|lia|lia]. intros Hj2.
    unfold enc_mask_row. simpl.
    set (m0 := Py.fill (replicate (model_enc_seqlen ds) true) 0 2 false).
    destruct (decide (Py.bound (length m0) 0 ≤ j < Py.bound (length m0) (ed - st))%nat).
    + by apply fill_lookup_in.
    + rewrite fill_lookup_out by done. unfold m0.
      rewrite initial_mask_row by done. f_equal. apply bool_decide_eq_false_2. lia.
Qed.

Lemma get_encoder_input_data_spec_witness :
  ∃ inp mask lens,
    get_encoder_input_data two_bar_dataset [0; 3; 6] [0; 1; 3; 0; 2; 3]
      = Ok (inp, mask, lens) ∧
    length inp = 2%nat ∧ length mask = 2%nat ∧ lens = [3; 3].
Proof.
  destruct (get_encoder_input_data_spec two_bar_dataset [0; 3; 6] [0; 1; 3; 0; 2; 3] eq_refl)
    as (inp & mask & lens & Hrun & Hi & _ & Hm & _ & Hl & _).
  exists inp, mask, lens. split; [exact Hrun|]. split; [exact Hi|]. split; [exact Hm|].
  vm_compute in Hrun. injection Hrun as _ _ <-. reflexivity.
Defined.



(** ** Windows of short pieces *)

(** A piece of fewer than [model_max_bars] bars: the window is the whole
    piece from bar 0, the boundary list is padded with its last entry, and
    [n_bars] is the number of boundaries, one more than the number of
    bars. *)
Lemma window_of_short_piece (ds : dataset) (draw idx : nat) (file : piece_file)
    (bar_pos : list Z) :
  constructed ds → appointed_ok ds →
  pieces ds !! idx = Some file → piece_bar_pos ds !! idx = Some bar_pos →
  (real_bars bar_pos < model_max_bars ds)%nat →
  ∃ picked n_bars,
    get_sample_from_file ds draw idx = Ok (file_events file, 0, picked, n_bars) ∧
    picked ++ [Z.of_nat (length (file_events file))] =
      bar_pos ++ replicate (model_max_bars ds + 1 - length bar_pos)
                   (Z.of_nat (length (file_events file))) ∧
    n_bars = (real_bars bar_pos + 1)%nat.
Proof.
  intros Hc Hok Hf Hb Hbars. unfold real_bars in *.
  destruct (constructed_nonempty _ _ _ _ Hc Hf Hb) as [core Hcore].
  assert (0 < length bar_pos)%nat as Hpos.
  { rewrite Hcore, length_app. simpl. lia. }
  eexists _, _. split; [apply sample_padding_branch; try done; lia|].
  split; [|lia].
  rewrite <- app_assoc. f_equal.
  replace (model_max_bars ds + 1 - length bar_pos)%nat
    with (S (model_max_bars ds - length bar_pos)) by lia.
  by rewrite replicate_S_end.
Qed.

(** A piece of exactly [model_max_bars] bars: the window starts at bar 0
    for every draw, [n_bars] is [model_max_bars], and the boundaries
    returned are the bar starts of the piece, none of them padding. *)
Lemma window_of_full_piece (ds : dataset) (draw idx : nat) (file : piece_file)
    (bar_pos : list Z) (s e : Z) :
  appointed_ok ds →
  pieces ds !! idx = Some file → piece_bar_pos ds !! idx = Some bar_pos →
  real_bars bar_pos = model_max_bars ds → (0 < length bar_pos)%nat →
  bar_pos !! 0%nat = Some s → bar_pos !! model_max_bars ds = Some e →
  get_sample_from_file ds draw idx =
    Ok (Py.slice (file_events file) s e, 0,
        (λ b, b - s) <$> take (model_max_bars ds) bar_pos, model_max_bars ds).
Proof.
  intros Hok Hf Hb Hbars Hpos Hs He. unfold real_bars in Hbars.
  destruct (sample_truncating_branch ds draw idx file bar_pos Hok Hf Hb)
    as (st & s' & e' & _ & Hst & Hs' & He' & Hrun); [lia|].
  assert (st = 0%nat) as -> by lia.
  simpl in *. rewrite Hs in Hs'. rewrite He in He'.
  injection Hs' as <-. injection He' as <-. exact Hrun.
Qed.

(** C3, at a piece of one bar. With [model_max_bars = 16] the window
    starts at bar 0 and [__getitem__] delivers 17 boundaries, the
    piece-ending boundary 5 followed by 15 copies of it; but the sample
    reports [n_bars = 2] for a window that holds one bar. *)
Theorem one_bar_window (draw : nat) :
  ∃ smp, __getitem__ one_bar_dataset draw [6%nat] 0 = Ok smp ∧
    s_st_bar_id smp = 0 ∧
    s_bar_pos smp = [0; 5] ++ replicate 15 5 ∧
    length (s_bar_pos smp) = 17%nat ∧
    real_bars [0; 5] = 1%nat ∧
    s_enc_n_bars smp = 2%nat.
Proof. eexists. split; [vm_compute; reflexivity|]. repeat split. Qed.

(** Every draw of a one-bar range picks its only element. *)
Lemma get_sample_single_start (ds : dataset) (draw idx : nat) (bar_pos : list Z) :
  piece_bar_pos ds !! idx = Some bar_pos →
  length bar_pos = (model_max_bars ds + 1)%nat →
  get_sample_from_file ds draw idx = get_sample_from_file ds 0 idx.
Proof.
  intros Hb Hlen. unfold get_sample_from_file. rewrite Hb.
  destruct (pieces ds !! idx); [|done]. simpl.
  replace (pick_st_bar ds draw (length bar_pos))
    with (pick_st_bar ds 0 (length bar_pos)); [done|].
  unfold pick_st_bar. destruct (appoint_st_bar ds); [done|].
  destruct (decide _); [|done].
  replace (Z.of_nat (length bar_pos) - Z.of_nat (model_max_bars ds)) with 1 by lia.
  unfold Py.choice. simpl. done.
Qed.

(** C9, at a piece of two bars sampled with [model_max_bars = 2]. The
    labels of the two bars are 3 and 4 (5 and 6 for the rhythm class). The
    first bar, positions 0 to 2, gets its label; the second bar, positions
    3 to 5, keeps 0: the loop runs over the boundaries before the token
    count is appended, so the last bar of a full window has no span. *)
Theorem two_bar_labels (draw : nat) :
  ∃ smp, __getitem__ two_bar_dataset draw [] 0 = Ok smp ∧
    s_bar_pos smp = [0; 3; 6] ∧
    s_polyph_cls_bar smp = [3; 4] ∧
    s_rhymfreq_cls_bar smp = [5; 6] ∧
    s_polyph_cls smp = [3; 3; 3; 0; 0; 0; 0; 0] ∧
    s_rhymfreq_cls smp = [5; 5; 5; 0; 0; 0; 0; 0] ∧
    s_enc_n_bars smp = 2%nat.
Proof.
  unfold __getitem__.
  rewrite (get_sample_single_start two_bar_dataset draw 0 [0; 3; 6] eq_refl eq_refl).
  eexists. split; [vm_compute; reflexivity|]. repeat split.
Qed.

(** ** The pitch augmenter *)

Lemma extreme_from_bounds (evs : list event) :
  ∀ (acc ext : Z * Z),
    extreme_from acc evs = Ok ext →
    ext.1 ≤ acc.1 ∧ acc.2 ≤ ext.2 ∧
    ∀ e z, e ∈ evs → name e = "Note_Pitch" → value e = VInt z →
      ext.1 ≤ z ≤ ext.2.
Proof.
  induction evs as [|ev evs IH]; intros acc ext H; simpl in H.
  - injection H as <-. split; [lia|]. split; [lia|].
    intros e z He. by apply elem_of_nil in He.
  - apply bind_Ok in H as (acc' & Hstep & H).
    destruct (IH _ _ H) as (Hlo & Hhi & Hall).
    unfold extreme_step in Hstep.
    destruct (decide (name ev = "Note_Pitch")) as [Hn|Hn].
    + apply bind_Ok in Hstep as (p & Hp & Hstep).
      apply bind_Ok in Hstep as (p' & Hp' & Hstep).
      injection Hstep as <-. simpl in *.
      assert (p' = p) as -> by congruence.
      split; [lia|]. split; [lia|].
      intros e z He Hname Hval. apply elem_of_cons in He as [->|He]; [|eauto].
      rewrite Hval in Hp. simpl in Hp. injection Hp as <-. lia.
    + injection Hstep as <-. split; [lia|]. split; [lia|].
      intros e z He Hname Hval. apply elem_of_cons in He as [->|He]; [done|eauto].
Qed.

(** A shift that leaves the loop has passed the band check. *)
Lemma draw_n_keys_accepted (ds : dataset) (lo hi : Z) (draws : list nat) (n_keys : Z) :
  draw_n_keys ds lo hi draws = Ok n_keys →
  n_keys ∈ augment_range ds ∧
  min_pitch ds ≤ lo + n_keys ∧ hi + n_keys ≤ max_pitch ds.
Proof.
  induction draws as [|d draws IH]; intros H; simpl in H; [done|].
  apply bind_Ok in H as (n & Hn & H).
  destruct (decide (rejected ds lo hi n)) as [Hr|Hr]; [by apply IH|].
  injection H as <-. unfold rejected in Hr. split; [|lia].
  unfold Py.choice in Hn.
  destruct (augment_range ds !! _) eqn:Hl; [|done].
  injection Hn as <-. by eapply list_elem_of_lookup_2.
Qed.

(** With no acceptable shift in the range the loop is still running after
    any number of draws. *)
Lemma draw_n_keys_pending (ds : dataset) (lo hi : Z) (draws : list nat) :
  augment_range ds ≠ [] →
  (∀ n, n ∈ augment_range ds → rejected ds lo hi n) →
  draw_n_keys ds lo hi draws = Pending.
Proof.
  intros Hne Hall. induction draws as [|d draws IH]; [done|]. simpl.
  destruct (choice_range_Ok d (augment_range ds) Hne) as (n & -> & Hin). simpl.
  destruct (decide (rejected ds lo hi n)) as [_|Hr]; [done|].
  destruct Hr. by apply Hall.
Qed.

(** The loop ends at the first draw whose shift passes the band check. *)
Lemma draw_n_keys_returns (ds : dataset) (lo hi : Z) (draws : list nat) (d : nat) (n : Z) :
  d ∈ draws → Py.choice d (augment_range ds) = Ok n → ¬ rejected ds lo hi n →
  ∃ n_keys, draw_n_keys ds lo hi draws = Ok n_keys.
Proof.
  intros Hd Hn Hacc. induction draws as [|d' draws IH]; [by apply elem_of_nil in Hd|].
  simpl. apply elem_of_cons in Hd as [<-|Hd].
  - rewrite Hn. simpl. destruct (decide (rejected ds lo hi n)); [done|eauto].
  - destruct (Py.choice d' (augment_range ds)) as [n'| |] eqn:Hn'; simpl.
    + destruct (decide (rejected ds lo hi n')); [by apply IH|eauto].
    + unfold Py.choice in Hn, Hn'.
      destruct (augment_range ds) as [|x l]; [done|].
      destruct (lookup_lt_is_Some_2 (x :: l) (d' `mod` length (x :: l))%nat) as [y Hy].
      { apply Nat.mod_upper_bound. simpl. lia. }
      rewrite Hy in Hn'. done.
    + unfold Py.choice in Hn'. by destruct (_ !! _).
Qed.

(** What [transpose_event] does to one event. *)
Lemma transpose_event_cases (n_keys : Z) (e e' : event) :
  transpose_event n_keys e = Ok e' →
  name e' = name e ∧
  (name e = "Note_Pitch" →
     ∃ z, value e = VInt z ∧ value e' = VInt (z + n_keys)) ∧
  (name e = "Chord" → value e = VStr "N_N" → e' = e) ∧
  (name e ≠ "Note_Pitch" → name e ≠ "Chord" → e' = e).
Proof.
  unfold transpose_event. intros H.
  destruct (decide (name e = "Note_Pitch")) as [Hp|Hp].
  - apply bind_Ok in H as (v & Hv & H). injection H as <-. simpl.
    split; [done|]. split; [|split; [congruence|done]].
    intros _. destruct (value e) as [z| |]; simpl in Hv; [|done|done].
    injection Hv as <-. eauto.
  - destruct (decide (name e = "Chord")) as [Hc|Hc].
    + unfold transpose_chord in H.
      destruct (decide (value e = VStr "N_N")) as [Hs|Hs].
      * injection H as <-. repeat split; done.
      * apply bind_Ok in H as (tone & _ & H). apply bind_Ok in H as (i & _ & H).
        apply bind_Ok in H as (s & _ & H). apply bind_Ok in H as (t & _ & H).
        injection H as <-. simpl. repeat split; done.
    + injection H as <-. repeat split; done.
Qed.

(** C6. Whenever [pitch_augment] returns, the output has the length of the
    input; every [Note_Pitch] event of the output carries an integer inside
    [min_pitch, max_pitch]; a [Chord] event whose value is the no-chord
    sentinel [N_N] is returned as it was; and so is every event that is
    neither a pitch nor a chord. *)
Theorem pitch_augment_spec (ds : dataset) (draws : list nat) (evs out : list event) :
  pitch_augment ds draws evs = Ok out →
  length out = length evs ∧
  (∀ i e, out !! i = Some e → name e = "Note_Pitch" →
     ∃ z, value e = VInt z ∧ min_pitch ds ≤ z ≤ max_pitch ds) ∧
  (∀ i e, evs !! i = Some e → name e = "Chord" → value e = VStr "N_N" →
     out !! i = Some e) ∧
  (∀ i e, evs !! i = Some e → name e ≠ "Note_Pitch" → name e ≠ "Chord" →
     out !! i = Some e).
Proof.
  unfold pitch_augment. intros H.
  apply bind_Ok in H as (ext & Hext & H).
  apply bind_Ok in H as (n_keys & Hn & H).
  unfold transpose_events in H.
  apply bind_Ok in H as (tr & Htr & H). apply bind_Ok in H as ([] & _ & H).
  injection H as <-.
  destruct (draw_n_keys_accepted _ _ _ _ _ Hn) as (_ & Hlo & Hhi).
  destruct (extreme_from_bounds _ _ _ Hext) as (_ & _ & Hband).
  split; [by eapply mapM_Ok_length|]. split; [|split].
  - intros i e' Hi Hname.
    destruct (mapM_Ok_lookup_inv _ _ _ _ _ Htr Hi) as (e & He & Hte).
    destruct (transpose_event_cases _ _ _ Hte) as (Hsame & Hpitch & _).
    destruct Hpitch as (z & Hz & ->); [congruence|].
    exists (z + n_keys). split; [done|].
    assert (ext.1 ≤ z ≤ ext.2) as Hzb.
    { eapply Hband; [by eapply list_elem_of_lookup_2|congruence|done]. }
    lia.
  - intros i e Hi Hname Hval.
    destruct (mapM_Ok_lookup _ _ _ _ _ Htr Hi) as (e' & He' & Hte).
    destruct (transpose_event_cases _ _ _ Hte) as (_ & _ & Hchord & _).
    by rewrite He', (Hchord Hname Hval).
  - intros i e Hi Hn1 Hn2.
    destruct (mapM_Ok_lookup _ _ _ _ _ Htr Hi) as (e' & He' & Hte).
    destruct (transpose_event_cases _ _ _ Hte) as (_ & _ & _ & Hother).
    by rewrite He', (Hother Hn1 Hn2).
Qed.

Lemma pitch_augment_spec_witness :
  pitch_augment one_bar_dataset [0%nat; 12%nat] sample_window =
    Ok [Event "Bar" VNone; Event "Chord" (VStr "N_N"); Event "Chord" (VStr "F#_maj");
        Event "Note_Pitch" (VInt 31); Event "Note_Velocity" (VInt 100);
        Event "Note_Pitch" (VInt 66)] ∧
  length sample_window = 6%nat ∧
  ∀ i e, sample_window !! i = Some e → name e = "Chord" → value e = VStr "N_N" →
    [Event "Bar" VNone; Event "Chord" (VStr "N_N"); Event "Chord" (VStr "F#_maj");
     Event "Note_Pitch" (VInt 31); Event "Note_Velocity" (VInt 100);
     Event "Note_Pitch" (VInt 66)] !! i = Some e.
Proof.
  assert (pitch_augment one_bar_dataset [0%nat; 12%nat] sample_window =
    Ok [Event "Bar" VNone; Event "Chord" (VStr "N_N"); Event "Chord" (VStr "F#_maj");
        Event "Note_Pitch" (VInt 31); Event "Note_Velocity" (VInt 100);
        Event "Note_Pitch" (VInt 66)]) as Hrun by (vm_compute; reflexivity).
  destruct (pitch_augment_spec _ _ _ _ Hrun) as (Hlen & _ & Hchord & _).
  split; [exact Hrun|]. split; [reflexivity|]. exact Hchord.
Defined.

(** C5, at a window that spans the keyboard. Its lowest pitch 21 needs a
    shift of at least +1 and its highest pitch 108 a shift of at most -1,
    so every shift is rejected: whatever the draws, and however many,
    [pitch_augment] neither returns nor raises. *)
Theorem pitch_augment_hangs (draws : list nat) :
  check_extreme_pitch keyboard_window = Ok (21, 108) ∧
  pitch_augment one_bar_dataset draws keyboard_window = Pending.
Proof.
  split; [reflexivity|].
  unfold pitch_augment.
  change (check_extreme_pitch keyboard_window) with (@Ok (Z * Z) (21, 108)).
  simpl. rewrite draw_n_keys_pending; [done| |].
  - done.
  - intros n Hn. unfold rejected. simpl. lia.
Qed.

(** ** The vocabulary *)

Lemma get_remi_indexer_value :
  get_remi_indexer = Ok (Bidict remi_indexer_dict (invert remi_indexer_dict)).
Proof.
  unfold get_remi_indexer, make_bidict.
  destruct (decide (size (invert remi_indexer_dict) = size remi_indexer_dict))
    as [_|Hne]; [done|].
  destruct Hne. vm_compute. reflexivity.
Qed.

Lemma forallb_elem_of {A} (f : A → bool) (l : list A) (x : A) :
  forallb f l = true → x ∈ l → f x = true.
Proof.
  intros H Hx. rewrite forallb_forall in H. apply H. by apply list_elem_of_In.
Qed.

(** Every id of the specification's enumeration has its rank as code. *)
Lemma indexer_codes_in_order (i : nat) (s : string) :
  spec_event_ids !! i = Some s → remi_indexer_dict !! s = Some (Z.of_nat i).
Proof.
  intros Hs.
  assert (forallb (λ p : nat * string,
                     bool_decide (remi_indexer_dict !! p.2 = Some (Z.of_nat p.1)))
            (zip (seq 0 430) spec_event_ids) = true) as Hall
    by (vm_compute; reflexivity).
  assert ((i, s) ∈ zip (seq 0 430) spec_event_ids) as Hin.
  { apply (list_elem_of_lookup_2 _ i). apply lookup_zip_with_Some.
    exists i, s. split; [done|]. split; [|done].
    apply lookup_seq. split; [done|].
    apply lookup_lt_Some in Hs. revert Hs.
    replace (length spec_event_ids) with 430%nat by (vm_compute; reflexivity). done. }
  apply (forallb_elem_of _ _ _ Hall) in Hin. by apply bool_decide_eq_true in Hin.
Qed.

(** Decoding a code of the range and encoding the result gives the code. *)
Lemma indexer_decode_encode (c : Z) :
  0 ≤ c < 430 →
  ∃ s, invert remi_indexer_dict !! c = Some s ∧ remi_indexer_dict !! s = Some c.
Proof.
  intros Hc.
  assert (forallb (λ c, match invert remi_indexer_dict !! c with
                        | Some s => bool_decide (remi_indexer_dict !! s = Some c)
                        | None => false
                        end) (Py.range 430) = true) as Hall
    by (vm_compute; reflexivity).
  assert (c ∈ Py.range 430) as Hin by (by apply elem_of_range).
  apply (forallb_elem_of _ _ _ Hall) in Hin.
  destruct (invert remi_indexer_dict !! c) as [s|]; [|done].
  exists s. split; [done|]. by apply bool_decide_eq_true in Hin.
Qed.

(** Encoding an id and decoding the code gives the id; the codes are the
    numbers below 430. *)
Lemma indexer_encode_decode (s : string) (c : Z) :
  remi_indexer_dict !! s = Some c →
  0 ≤ c < 430 ∧ invert remi_indexer_dict !! c = Some s.
Proof.
  intros Hs.
  assert (forallb (λ p : string * Z,
                     bool_decide (0 ≤ p.2 < 430 ∧
                                  invert remi_indexer_dict !! p.2 = Some p.1))
            (map_to_list remi_indexer_dict) = true) as Hall
    by (vm_compute; reflexivity).
  assert ((s, c) ∈ map_to_list remi_indexer_dict) as Hin
    by (by apply elem_of_map_to_list).
  apply (forallb_elem_of _ _ _ Hall) in Hin. by apply bool_decide_eq_true in Hin.
Qed.

(** C2. [get_remi_indexer] returns a two-way dictionary of 430 entries. The
    ids, in the order bar, eos, 128 note-ons, durations 1 to 64, velocities
    0 to 31, positions 0 to 23, tempos 30 to 209, have the codes 0, 1, 2,
    and so on; every code below 430 decodes to an id that encodes back to
    it, and every id encodes to a code below 430 that decodes back to it. *)
Theorem remi_indexer_bijection :
  ∃ b, get_remi_indexer = Ok b ∧
    length spec_event_ids = (2 + 128 + 64 + 32 + 24 + 180)%nat ∧
    size (forward b) = 430%nat ∧ size (inverse b) = 430%nat ∧
    (∀ (i : nat) s, spec_event_ids !! i = Some s → encode b s = Some (Z.of_nat i)) ∧
    (∀ c, 0 ≤ c < 430 → ∃ s, decode b c = Some s ∧ encode b s = Some c) ∧
    (∀ s c, encode b s = Some c → 0 ≤ c < 430 ∧ decode b c = Some s).
Proof.
  eexists. split; [apply get_remi_indexer_value|].
  split; [vm_compute; reflexivity|].
  split; [vm_compute; reflexivity|].
  split; [vm_compute; reflexivity|].
  unfold encode, decode. simpl.
  split; [apply indexer_codes_in_order|].
  split; [apply indexer_decode_encode|apply indexer_encode_decode].
Qed.

(** ** The note check of the encoder *)

Lemma Ok_quiet {A} (a : A) : ¬ is_runtime_error (Ok a).
Proof. intros [msg H]. discriminate H. Qed.

Lemma bind_quiet {A B} (r : result A) (f : A → result B) :
  ¬ is_runtime_error r → (∀ a, ¬ is_runtime_error (f a)) →
  ¬ is_runtime_error (r ≫= f).
Proof.
  intros Hr Hf. destruct r as [a|e|]; simpl; [apply Hf| |].
  - intros [msg H]. apply Hr. exists msg. congruence.
  - intros [msg H]. discriminate H.
Qed.

Lemma or_raise_quiet {A} (e : exn) (o : option A) :
  (∀ msg, e ≠ RuntimeError msg) → ¬ is_runtime_error (or_raise e o).
Proof.
  intros He. destruct o; simpl; [apply Ok_quiet|].
  intros [msg H]. injection H as H. by eapply He.
Qed.

Lemma index_quiet {A} (l : list A) (i : Z) : ¬ is_runtime_error (Py.index l i).
Proof. by apply or_raise_quiet. Qed.

Lemma assert_quiet (P : Prop) `{Decision P} : ¬ is_runtime_error (assert P).
Proof.
  unfold assert. destruct (decide P); [apply Ok_quiet|].
  intros [msg Hm]. discriminate Hm.
Qed.

Lemma mapM_quiet {A B} (f : A → result B) (l : list A) :
  (∀ x, ¬ is_runtime_error (f x)) → ¬ is_runtime_error (mapM f l).
Proof.
  intros Hf. induction l as [|x l IH]; simpl; [apply Ok_quiet|].
  apply bind_quiet; [apply Hf|]. intros y.
  apply bind_quiet; [apply IH|]. intros k. apply Ok_quiet.
Qed.

Ltac quiet_step :=
  first
    [ apply Ok_quiet | apply index_quiet | apply assert_quiet
    | apply mapM_quiet; intros ?
    | apply bind_quiet; [|intros ?] ].

Ltac quiet := repeat quiet_step.

Lemma get_measure_position_quiet (mt : list Z) (res t : Z) :
  ¬ is_runtime_error (_get_measure_position mt res t).
Proof.
  unfold _get_measure_position. quiet.
  - destruct (decide _); quiet.
  - unfold ceil_div. destruct (decide _); [|apply Ok_quiet].
    intros [msg Hm]. destruct (decide _); discriminate Hm.
  - unfold py_mod. destruct (decide _); [|apply Ok_quiet].
    intros [msg Hm]. discriminate Hm.
Qed.

(** Once the note check is passed nothing raises a [RuntimeError]. *)
Lemma encode_after_check_quiet (m : music) (res : Z) :
  length (concat (tracks m)) ≠ 0%nat →
  ¬ is_runtime_error (to_remi_event_sequence m res).
Proof.
  intros Hn. unfold to_remi_event_sequence.
  rewrite bool_decide_eq_false_2 by done.
  rewrite get_remi_indexer_value. simpl.
  repeat first [ apply get_measure_position_quiet | quiet_step ].
  unfold note_group. destruct (decide _); [|apply Ok_quiet].
  repeat first [ apply get_measure_position_quiet | quiet_step ].
Qed.

Lemma sounding_concat (tr : list (list note)) :
  concat (sounding <$> tr) = sounding (concat tr).
Proof.
  induction tr as [|t tr IH]; [done|].
  rewrite fmap_cons. simpl. rewrite IH. unfold sounding. by rewrite filter_app.
Qed.

(** The note loop adds the same groups with and without the notes that do
    not sound. *)
Lemma note_groups_sounding (mt : list Z) (res : Z) (notes : list note) :
  @concat timed_group <$> mapM (note_group mt res) notes =
  @concat timed_group <$> mapM (note_group mt res) (sounding notes).
Proof.
  unfold sounding. induction notes as [|x notes IH]; [done|].
  rewrite filter_cons. simpl.
  destruct (decide (note_duration x > 0)) as [Hx|Hx].
  - simpl. destruct (note_group mt res x) as [y| |]; simpl; [|done|done].
    destruct (mapM _ notes) as [a| |], (mapM _ (filter _ notes)) as [b| |];
      simpl in *; try done.
    injection IH as IH. by rewrite IH.
  - assert (note_group mt res x = Ok []) as ->.
    { unfold note_group. by destruct (decide (note_duration x > 0)). }
    simpl.
    destruct (mapM _ notes) as [a| |], (mapM _ (filter _ notes)) as [b| |];
      simpl in *; done.
Qed.

Lemma bind_concat {A B} (r : result (list (list A))) (g : list A → result B) :
  (nts ← r; g (concat nts)) = (c ← @concat A <$> r; g c).
Proof. by destruct r. Qed.

(** Notes whose duration is not positive are dropped without notice: as
    long as one note sounds, the encoder returns the same with and without
    them. *)
Lemma silent_notes_dropped (m : music) (res : Z) :
  sounding (concat (tracks m)) ≠ [] →
  to_remi_event_sequence m res = to_remi_event_sequence (drop_silent m) res.
Proof.
  intros Hs. unfold to_remi_event_sequence, drop_silent.
  cbn [tracks tempos barlines].
  rewrite sounding_concat.
  assert (length (concat (tracks m)) ≠ 0%nat) as Hn.
  { intros Hl. apply Hs. destruct (concat (tracks m)); [done|discriminate Hl]. }
  assert (length (sounding (concat (tracks m))) ≠ 0%nat) as Hn'.
  { intros Hl. apply Hs. destruct (sounding (concat (tracks m))); [done|discriminate Hl]. }
  rewrite !bool_decide_eq_false_2 by done.
  rewrite get_remi_indexer_value. cbn [mbind result_bind].
  destruct (with_zero_barline (barlines m)) as [bt| |]; [|done|done].
  cbn [mbind result_bind].
  destruct (assert _); [|done|done]. cbn [mbind result_bind].
  destruct (mapM (bar_group _ _) _) as [bars| |]; [|done|done].
  cbn [mbind result_bind].
  destruct (mapM (tempo_group _ _) _) as [tmps| |]; [|done|done].
  cbn [mbind result_bind].
  rewrite (bind_concat (mapM _ (concat (tracks m)))
             (λ c, body ← mapM serialise (sort_by_key (bars ++ tmps ++ c));
                   Ok (concat body ++ ["eos"]))).
  rewrite (bind_concat (mapM _ (sounding (concat (tracks m))))
             (λ c, body ← mapM serialise (sort_by_key (bars ++ tmps ++ c));
                   Ok (concat body ++ ["eos"]))).
  by rewrite note_groups_sounding.
Qed.



(** ** The time quantiser *)

Lemma increasing_le (l : list Z) : increasing l → StronglySorted Z.le l.
Proof.
  unfold increasing. induction 1 as [|x l Hl IH Hx]; constructor; [done|].
  eapply Forall_impl; [exact Hx|]. intros y Hy. simpl in Hy. lia.
Qed.

(** Sorting a table that is already increasing changes nothing. *)
Lemma np_sort_increasing (l : list Z) : increasing l → np_sort l = l.
Proof.
  intros Hl. unfold np_sort.
  apply (StronglySorted_unique_strong Z.le).
  - intros x y _ _ Hxy Hyx. lia.
  - apply StronglySorted_merge_sort; apply _.
  - by apply increasing_le.
  - apply merge_sort_Permutation.
Qed.

Lemma increasing_lookup_lt (l : list Z) (i j : nat) (x y : Z) :
  increasing l → l !! i = Some x → l !! j = Some y → (i < j)%nat → x < y.
Proof.
  unfold increasing. intros Hl. revert i j.
  induction Hl as [|a l Hl IH Ha]; intros i j Hi Hj Hij; [done|].
  destruct j as [|j]; [lia|]. simpl in Hj.
  destruct i as [|i]; simpl in Hi.
  - injection Hi as <-. rewrite Forall_forall in Ha.
    apply Ha. by eapply list_elem_of_lookup_2.
  - apply (IH i j); [done|done|lia].
Qed.

Lemma filter_le_none (a : list Z) (v : Z) :
  Forall (λ z, v < z) a → filter (λ z, z ≤ v) a = [].
Proof.
  induction 1 as [|z a Hz _ IH]; [done|].
  rewrite filter_cons. destruct (decide (z ≤ v)); [lia|done].
Qed.

(** On a sorted table the entries that are at most [v] are the first ones,
    and [searchsorted_right] counts them. *)
Lemma searchsorted_right_spec (a : list Z) (v : Z) (i : nat) (x : Z) :
  StronglySorted Z.le a → a !! i = Some x →
  (x ≤ v ↔ Z.of_nat i < searchsorted_right a v).
Proof.
  unfold searchsorted_right. intros Ha. revert i.
  induction Ha as [|y a Ha IH Hy]; intros i Hi; [done|].
  rewrite filter_cons. destruct (decide (y ≤ v)) as [Hyv|Hyv].
  - destruct i as [|i]; simpl in *.
    + injection Hi as <-. lia.
    + rewrite (IH i Hi). lia.
  - assert (filter (λ z, z ≤ v) a = []) as ->.
    { apply filter_le_none. eapply Forall_impl; [exact Hy|].
      intros z Hz. simpl in Hz. lia. }
    simpl. split; [|lia]. intros Hx.
    destruct i as [|i]; simpl in Hi.
    + injection Hi as <-. lia.
    + rewrite Forall_forall in Hy.
      assert (y ≤ x) by (apply Hy; by eapply list_elem_of_lookup_2). lia.
Qed.

Lemma searchsorted_right_le (a : list Z) (v : Z) :
  0 ≤ searchsorted_right a v ≤ Z.of_nat (length a).
Proof.
  unfold searchsorted_right. pose proof (length_filter (λ x, x ≤ v) a). lia.
Qed.

(** The table after the insertion of the zero barline. *)
Lemma with_zero_barline_increasing (barline_times bt : list Z) :
  increasing barline_times → (∀ b, b ∈ barline_times → 0 ≤ b) →
  with_zero_barline barline_times = Ok bt →
  increasing bt ∧ bt !! 0%nat = Some 0 ∧
  (bt = barline_times ∨ bt = 0 :: barline_times).
Proof.
  intros Hinc Hpos H. unfold with_zero_barline in H.
  apply bind_Ok in H as (first & Hfirst & H). injection H as <-.
  apply (index_Ok_nonneg _ 0) in Hfirst; [|lia].
  change (Z.to_nat 0) with 0%nat in Hfirst.
  destruct (decide (first ≠ 0)) as [Hne|Heq].
  - split; [|split; [done|by right]].
    unfold increasing. constructor; [done|].
    apply Forall_forall. intros b Hb.
    assert (0 ≤ first) by (apply Hpos; by eapply list_elem_of_lookup_2).
    destruct (list_elem_of_lookup_1 _ _ Hb) as [j Hj].
    destruct j as [|j]; [rewrite Hfirst in Hj; injection Hj as <-; lia|].
    assert (first < b); [|lia].
    by apply (increasing_lookup_lt barline_times 0 (S j)); [| | |lia].
  - split; [done|]. split; [|by left].
    rewrite Hfirst. f_equal. destruct (decide (first = 0)); [done|]. by destruct Heq.
Qed.

(** The ceiling of a quotient with a positive divisor is the least integer
    whose multiple reaches the dividend. *)
Lemma ceil_div_spec (a b : Z) :
  0 < b → ∃ c, ceil_div a b = Ok c ∧ (c - 1) * b < a ≤ c * b.
Proof.
  intros Hb. unfold ceil_div. destruct (decide (b = 0)); [lia|].
  eexists. split; [done|].
  pose proof (Z.div_mod (- a) b ltac:(lia)).
  pose proof (Z.mod_pos_bound (- a) b Hb). nia.
Qed.

Lemma sorted_lookup_le (l : list Z) (i j : nat) (x y : Z) :
  StronglySorted Z.le l → l !! i = Some x → l !! j = Some y → (i ≤ j)%nat → x ≤ y.
Proof.
  intros Hl. revert i j.
  induction Hl as [|a l Hl IH Ha]; intros i j Hi Hj Hij; [done|].
  destruct i as [|i], j as [|j]; simpl in *; try lia.
  - injection Hi as <-. injection Hj as <-. lia.
  - injection Hi as <-. rewrite Forall_forall in Ha.
    apply Ha. by eapply list_elem_of_lookup_2.
  - apply (IH i j); [done|done|lia].
Qed.

(** The table always holds the zero barline: it is inserted in front when
    the first barline is not at zero, so in particular when none is. *)
Lemma with_zero_barline_zero (barline_times bt : list Z) :
  with_zero_barline barline_times = Ok bt →
  bt !! 0%nat = Some 0 ∧
  (0 ∉ barline_times → bt = 0 :: barline_times) ∧
  (barline_times !! 0%nat = Some 0 → bt = barline_times).
Proof.
  intros H. unfold with_zero_barline in H.
  apply bind_Ok in H as (first & Hfirst & H). injection H as <-.
  apply (index_Ok_nonneg _ 0) in Hfirst; [|lia].
  change (Z.to_nat 0) with 0%nat in Hfirst.
  destruct (decide (first ≠ 0)) as [Hne|Heq].
  - split; [done|]. split; [done|]. intros H0. congruence.
  - assert (first = 0) as -> by (destruct (decide (first = 0)); [done|by destruct Heq]).
    split; [done|]. split; [|done].
    intros Hnot. destruct Hnot. by eapply list_elem_of_lookup_2.
Qed.



(** ** The attribute labels of a window *)

Lemma bar_spans_cons (a b : Z) (l : list Z) :
  bar_spans (a :: b :: l) = (a, b) :: bar_spans (b :: l).
Proof.
  unfold bar_spans. rewrite !slice_to_last, !slice_from_1. simpl.
  by rewrite Nat.sub_0_r.
Qed.

Lemma bar_spans_starts (bar_pos : list Z) (sp : Z * Z) :
  sp ∈ bar_spans bar_pos → sp.1 ∈ bar_pos.
Proof.
  intros Hsp. destruct (list_elem_of_lookup_1 _ _ Hsp) as [i Hi].
  destruct sp as [st ed]. apply bar_spans_lookup in Hi as [Hst _].
  by eapply list_elem_of_lookup_2.
Qed.

Lemma bar_spans_ordered (bar_pos : list Z) :
  StronglySorted Z.le bar_pos → (∀ b, b ∈ bar_pos → 0 ≤ b) →
  ordered_spans (bar_spans bar_pos).
Proof.
  intros Hs. induction Hs as [|a l Hl IH Ha]; intros Hpos.
  { split; constructor. }
  destruct l as [|b l]; [split; constructor|].
  rewrite bar_spans_cons.
  destruct IH as [IHs IHp]; [intros x Hx; apply Hpos; by right|].
  split; constructor; try done.
  - apply Forall_forall. intros sp Hsp. simpl.
    apply bar_spans_starts in Hsp.
    apply StronglySorted_cons in Hl as [Hb _]. rewrite Forall_forall in Hb.
    apply elem_of_cons in Hsp as [->|Hsp]; [done|]. by apply Hb.
  - simpl. split; [apply Hpos; by left|].
    rewrite Forall_forall in Ha. apply Ha. by left.
Qed.

(** The label loop over consecutive bars, started at label [s]: a position
    inside a span gets the label of that span, a position outside every
    span keeps what it had. *)
Lemma label_loop (p r : list Z) (D : nat) (spans : list (Z * Z)) :
  ∀ (s : nat) (pe re : list Z),
    length pe = D → length re = D →
    (s + length spans ≤ length p)%nat → (s + length spans ≤ length r)%nat →
    ordered_spans spans →
    ∃ pe' re',
      for_each (expand_step p r) (zip (seq s (length spans)) spans) (pe, re)
        = Ok (pe', re') ∧
      length pe' = D ∧ length re' = D ∧
      ∀ j : nat, (j < D)%nat →
        (∀ i sp, spans !! i = Some sp → sp.1 ≤ Z.of_nat j < sp.2 →
           pe' !! j = p !! (s + i)%nat ∧ re' !! j = r !! (s + i)%nat) ∧
        ((∀ sp, sp ∈ spans → ¬ sp.1 ≤ Z.of_nat j < sp.2) →
           pe' !! j = pe !! j ∧ re' !! j = re !! j).
Proof.
  induction spans as [|[st ed] spans IH]; intros s pe re Hpe Hre Hp Hr [Hord Hnn].
  - exists pe, re. simpl. split; [done|]. split; [done|]. split; [done|].
    intros j Hj. split; [done|done].
  - simpl in Hp, Hr. simpl.
    destruct (lookup_lt_is_Some_2 p s) as [ps Hps]; [lia|].
    destruct (lookup_lt_is_Some_2 r s) as [rs Hrs]; [lia|].
    rewrite (index_nat _ _ _ Hps), (index_nat _ _ _ Hrs). simpl.
    apply StronglySorted_cons in Hord as [Hhead Hord].
    apply Forall_cons in Hnn as [Hst Hnn]. simpl in Hst.
    rewrite Forall_forall in Hhead.
    edestruct (IH (S s) (Py.fill pe st ed ps) (Py.fill re st ed rs))
      as (pe' & re' & Hrun & Hpe' & Hre' & Hall).
    5: { split; done. }
    5: { exists pe', re'. split; [exact Hrun|]. split; [done|]. split; [done|].
         intros j Hj. destruct (Hall j Hj) as [Hin Hout].
         assert (∀ sp, sp ∈ spans → st ≤ Z.of_nat j < ed → ¬ sp.1 ≤ Z.of_nat j < sp.2)
           as Hdisj.
         { intros sp Hsp Hj1 Hj2. specialize (Hhead sp Hsp). simpl in Hhead. lia. }
         assert (st ≤ Z.of_nat j < ed →
                 Py.fill pe st ed ps !! j = Some ps ∧ Py.fill re st ed rs !! j = Some rs)
           as Hfill.
         { intros Hj1. split; apply fill_lookup_in; unfold Py.bound;
             (destruct (decide (st < 0)); [lia|]);
             (destruct (decide (ed < 0)); [lia|]); lia. }
         assert (¬ st ≤ Z.of_nat j < ed →
                 Py.fill pe st ed ps !! j = pe !! j ∧ Py.fill re st ed rs !! j = re !! j)
           as Hkeep.
         { intros Hj1. split; apply fill_lookup_out; unfold Py.bound;
             (destruct (decide (st < 0)); [lia|]);
             (destruct (decide (ed < 0)); lia). }
         split.
         - intros [|i] sp Hsp Hj1; simpl in Hsp.
           + injection Hsp as <-. simpl in Hj1. rewrite Nat.add_0_r.
             destruct Hout as [-> ->]; [intros sp Hsp; by apply Hdisj|].
             rewrite Hps, Hrs. by apply Hfill.
           + replace (s + S i)%nat with (S s + i)%nat by lia. by apply (Hin i sp).
         - intros Hnone.
           destruct Hout as [-> ->]; [intros sp Hsp; apply Hnone; by right|].
           apply Hkeep. apply (Hnone (st, ed)). by left. }
    all: rewrite ?length_fill; lia.
Qed.

(** The label arrays of a boundary array that is sorted and not negative:
    the positions of the bar between two consecutive boundaries of the
    array get that bar's labels, every other position keeps 0. *)
Lemma expand_attr_classes_spec (ds : dataset) (p r bar_pos : list Z) :
  StronglySorted Z.le bar_pos → (∀ b, b ∈ bar_pos → 0 ≤ b) →
  (length bar_pos - 1 ≤ length p)%nat → (length bar_pos - 1 ≤ length r)%nat →
  ∃ pe re,
    expand_attr_classes ds p r bar_pos = Ok (pe, re) ∧
    length pe = model_dec_seqlen ds ∧ length re = model_dec_seqlen ds ∧
    ∀ j : nat, (j < model_dec_seqlen ds)%nat →
      (∀ (i : nat) st ed, bar_pos !! i = Some st → bar_pos !! S i = Some ed →
         st ≤ Z.of_nat j < ed → pe !! j = p !! i ∧ re !! j = r !! i) ∧
      ((∀ (i : nat) st ed, bar_pos !! i = Some st → bar_pos !! S i = Some ed →
          ¬ st ≤ Z.of_nat j < ed) →
       pe !! j = Some 0 ∧ re !! j = Some 0).
Proof.
  intros Hs Hpos Hp Hr. unfold expand_attr_classes, Py.enumerate.
  pose proof (length_bar_spans bar_pos) as Hlen.
  edestruct (label_loop p r (model_dec_seqlen ds) (bar_spans bar_pos) 0)
    as (pe & re & Hrun & Hpe & Hre & Hall).
  5: { by apply bar_spans_ordered. }
  5: { exists pe, re. split; [exact Hrun|]. split; [done|]. split; [done|].
       intros j Hj. destruct (Hall j Hj) as [Hin Hout]. split.
       - intros i st ed Hst Hed Hj1.
         apply (Hin i (st, ed)); [by apply bar_spans_lookup|done].
       - intros Hnone. destruct Hout as [-> ->].
         + intros [st ed] Hsp. destruct (list_elem_of_lookup_1 _ _ Hsp) as [i Hi].
           apply bar_spans_lookup in Hi as [Hst Hed]. by apply (Hnone i).
         + split; by apply lookup_replicate_2. }
  all: rewrite ?length_replicate; lia.
Qed.

(** From the last boundary of the array on, the labels stay 0: the label
    loop has no span for the bar that starts there. *)
Lemma labels_stop_at_last_boundary (ds : dataset) (p r bar_pos pe re : list Z)
    (lst : Z) (j : nat) :
  StronglySorted Z.le bar_pos → (∀ b, b ∈ bar_pos → 0 ≤ b) →
  (length bar_pos - 1 ≤ length p)%nat → (length bar_pos - 1 ≤ length r)%nat →
  expand_attr_classes ds p r bar_pos = Ok (pe, re) →
  last bar_pos = Some lst → lst ≤ Z.of_nat j → (j < model_dec_seqlen ds)%nat →
  pe !! j = Some 0 ∧ re !! j = Some 0.
Proof.
  intros Hs Hpos Hp Hr Hrun Hlast Hj HjD.
  destruct (expand_attr_classes_spec ds p r bar_pos Hs Hpos Hp Hr)
    as (pe' & re' & Hrun' & _ & _ & Hall).
  rewrite Hrun in Hrun'. injection Hrun' as <- <-.
  apply (Hall j HjD). intros i st ed Hst Hed Hin.
  assert (ed ≤ lst); [|lia].
  rewrite last_lookup in Hlast.
  apply (sorted_lookup_le bar_pos (S i) (Nat.pred (length bar_pos))); try done.
  apply lookup_lt_Some in Hed. lia.
Qed.

(** * Further properties of the code *)

(** ** Strings of the chord transposition *)

Lemma prefix_app_self (a t : string) : String.prefix a (a +:+ t) = true.
Proof.
  induction a as [|c a IH]; simpl; [by destruct t|].
  destruct (ascii_dec c c); [done|congruence].
Qed.

Lemma prefix_split (a s : string) :
  String.prefix a s = true → ∃ t, s = a +:+ t.
Proof.
  revert s. induction a as [|c a IH]; intros s H; [by exists s|].
  destruct s as [|b s]; simpl in H; [done|].
  destruct (ascii_dec c b) as [->|]; [|done].
  destruct (IH s H) as [t ->]. by exists t.
Qed.

Lemma underscore_free_app (a b : string) :
  underscore_free (a +:+ b) = underscore_free a && underscore_free b.
Proof.
  induction a as [|c a IH]; simpl; [done|]. rewrite IH. by rewrite andb_assoc.
Qed.

Lemma prefix_underscore (old t : string) :
  underscore_free t = true → underscore_free old = false →
  String.prefix old t = false.
Proof.
  intros Ht Hold. destruct (String.prefix old t) eqn:Hp; [|done].
  destruct (prefix_split _ _ Hp) as [t' ->].
  rewrite underscore_free_app, Hold in Ht. done.
Qed.

Lemma split_head_chord (tone quality : string) :
  underscore_free tone = true →
  Py.split_head (chord_value tone quality) = tone.
Proof.
  unfold chord_value. induction tone as [|c tone IH]; intros H; simpl in *; [done|].
  apply andb_true_iff in H as [Hc Ht].
  destruct (Ascii.eqb c "_"); [done|]. by rewrite IH.
Qed.

(** Passing over the characters of an occurrence that was replaced. *)
Lemma replace_from_skip (old new u t : string) :
  Py.replace_from old new (String.length u) (u +:+ t) = Py.replace_from old new 0 t.
Proof. induction u as [|c u IH]; simpl; [by destruct t|done]. Qed.

(** Text without underscore holds no occurrence of a root followed by an
    underscore. *)
Lemma replace_free (old new t : string) :
  underscore_free t = true → underscore_free old = false →
  Py.replace_from old new 0 t = t.
Proof.
  intros Ht Hold. induction t as [|c t IH]; [done|].
  cbn [Py.replace_from]. rewrite (prefix_underscore old (String c t)) by done.
  simpl in Ht. apply andb_true_iff in Ht as [_ Ht]. by rewrite IH.
Qed.

Lemma string_app_cons (c : ascii) (a t : string) :
  String c a +:+ t = String c (a +:+ t).
Proof. reflexivity. Qed.

Lemma string_app_assoc (a b c : string) : a +:+ (b +:+ c) = (a +:+ b) +:+ c.
Proof.
  induction a as [|x a IH]; [done|]. rewrite !string_app_cons. by f_equal.
Qed.

Lemma string_length_app (a b : string) :
  String.length (a +:+ b) = (String.length a + String.length b)%nat.
Proof.
  induction a as [|x a IH]; [done|]. rewrite string_app_cons. simpl. by rewrite IH.
Qed.

Lemma underscore_free_root (tone : string) : underscore_free (tone +:+ "_") = false.
Proof. rewrite underscore_free_app. simpl. by rewrite andb_false_r. Qed.

(** Replacing the root of a chord value changes the root only. *)
Lemma replace_chord (tone new quality : string) :
  underscore_free quality = true →
  Py.replace (chord_value tone quality) (tone +:+ "_") (new +:+ "_")
    = chord_value new quality.
Proof.
  intros Hq. unfold Py.replace, chord_value.
  rewrite !string_app_assoc.
  pose proof (underscore_free_root tone) as Hroot.
  pose proof (prefix_app_self (tone +:+ "_") quality) as Hp.
  destruct (tone +:+ "_") as [|c old'] eqn:Hold; [done|].
  rewrite string_app_cons in *. cbn [Py.replace_from]. rewrite Hp.
  cbn [String.length]. rewrite Nat.sub_succ, Nat.sub_0_r.
  rewrite replace_from_skip. by rewrite replace_free.
Qed.

(** Replacing a text by itself changes nothing. *)
Lemma replace_same (old : string) (n : nat) :
  old ≠ EmptyString →
  ∀ s, (String.length s ≤ n)%nat → Py.replace_from old old 0 s = s.
Proof.
  intros Hold. induction n as [|n IH]; intros s Hn.
  { destruct s; [done|simpl in Hn; lia]. }
  destruct s as [|c s]; [done|]. cbn [Py.replace_from].
  destruct (String.prefix old (String c s)) eqn:Hp.
  - destruct (prefix_split _ _ Hp) as [t Ht].
    destruct old as [|c' old']; [done|]. rewrite string_app_cons in Ht.
    injection Ht as -> ->. cbn [String.length].
    rewrite Nat.sub_succ, Nat.sub_0_r, replace_from_skip.
    rewrite string_app_cons. rewrite IH; [done|].
    simpl in Hn. rewrite string_length_app in Hn. lia.
  - rewrite IH; [done|]. simpl in Hn. lia.
Qed.

(** ** The key tables *)

Lemma key_table_inverse (tone : string) (i : Z) :
  KEY_TO_IDX !! tone = Some i →
  IDX_TO_KEY !! i = Some tone ∧ 0 ≤ i < 12 ∧ underscore_free tone = true.
Proof.
  intros H.
  assert (forallb (λ p : string * Z,
                     bool_decide (IDX_TO_KEY !! p.2 = Some p.1 ∧ 0 ≤ p.2 < 12)
                     && underscore_free p.1)
            (map_to_list KEY_TO_IDX) = true) as Hall by (vm_compute; reflexivity).
  assert ((tone, i) ∈ map_to_list KEY_TO_IDX) as Hin by (by apply elem_of_map_to_list).
  apply (forallb_elem_of _ _ _ Hall) in Hin. cbv beta in Hin.
  apply andb_true_iff in Hin as [Hin Hfree].
  apply bool_decide_eq_true in Hin as [H1 H2].
  cbn [fst snd] in H1, H2, Hfree.
  split; [exact H1|]. split; [exact H2|exact Hfree].
Qed.

Lemma idx_table_total (i : Z) :
  0 ≤ i < 12 → ∃ tone, IDX_TO_KEY !! i = Some tone ∧ KEY_TO_IDX !! tone = Some i.
Proof.
  intros Hi.
  assert (forallb (λ i, match IDX_TO_KEY !! i with
                        | Some t => bool_decide (KEY_TO_IDX !! t = Some i)
                        | None => false
                        end) (Py.range 12) = true) as Hall by (vm_compute; reflexivity).
  assert (i ∈ Py.range 12) as Hin by (by apply elem_of_range).
  apply (forallb_elem_of _ _ _ Hall) in Hin.
  destruct (IDX_TO_KEY !! i) as [t|]; [|done].
  exists t. split; [done|]. by apply bool_decide_eq_true in Hin.
Qed.

(** ** Chord transposition *)

Lemma transpose_chord_value (nm tone quality : string) (i n_keys : Z) :
  KEY_TO_IDX !! tone = Some i → underscore_free quality = true →
  ∃ tone',
    IDX_TO_KEY !! ((i + n_keys) `mod` 12) = Some tone' ∧
    KEY_TO_IDX !! tone' = Some ((i + n_keys) `mod` 12) ∧
    transpose_chord (Event nm (VStr (chord_value tone quality))) n_keys
      = Ok (Event nm (VStr (chord_value tone' quality))).
Proof.
  intros Hi Hq.
  destruct (key_table_inverse _ _ Hi) as (_ & _ & Hfree).
  destruct (idx_table_total ((i + n_keys) `mod` 12)) as (tone' & Ht' & Hk').
  { apply Z.mod_pos_bound. lia. }
  exists tone'. split; [done|]. split; [done|].
  unfold transpose_chord, get_chord_tone. cbn [value name].
  destruct (decide (VStr (chord_value tone quality) = VStr "N_N")) as [Heq|_].
  { injection Heq as Heq. pose proof (split_head_chord tone quality Hfree) as Hs.
    rewrite Heq in Hs. rewrite <- Hs in Hi. vm_compute in Hi. done. }
  cbn [as_str mbind result_bind]. rewrite split_head_chord by done.
  rewrite Hi. cbn [or_raise mbind result_bind].
  replace ((i + 12 + n_keys) `mod` 12) with ((i + n_keys) `mod` 12).
  2: { replace (i + 12 + n_keys) with (i + n_keys + 1 * 12) by lia.
       by rewrite Z_mod_plus_full. }
  rewrite Ht'. cbn [or_raise mbind result_bind].
  by rewrite replace_chord.
Qed.

(** X1. A chord whose value is a root of the key table, an underscore and
    a quality without underscore is transposed by rotating the root
    [n_keys] steps around the twelve keys; name and quality are kept, and
    the call does not raise. *)
Theorem transpose_chord_rotates (nm tone quality : string) (i n_keys : Z) :
  KEY_TO_IDX !! tone = Some i → underscore_free quality = true →
  ∃ tone',
    IDX_TO_KEY !! ((i + n_keys) `mod` 12) = Some tone' ∧
    transpose_chord (Event nm (VStr (chord_value tone quality))) n_keys
      = Ok (Event nm (VStr (chord_value tone' quality))) ∧
    get_chord_tone (Event nm (VStr (chord_value tone' quality))) = Ok tone'.
Proof.
  intros Hi Hq.
  destruct (transpose_chord_value nm tone quality i n_keys Hi Hq)
    as (tone' & Ht' & Hk' & Hrun).
  exists tone'. split; [done|]. split; [done|].
  destruct (key_table_inverse _ _ Hk') as (_ & _ & Hfree).
  unfold get_chord_tone. cbn [value as_str mbind result_bind].
  by rewrite split_head_chord.
Qed.

Lemma transpose_chord_rotates_witness :
  transpose_chord (Event "Chord" (VStr "A_min7")) (-3)
    = Ok (Event "Chord" (VStr "F#_min7")).
Proof.
  destruct (transpose_chord_rotates "Chord" "A" "min7" 0 (-3))
    as (tone' & Ht' & Hrun & _); [reflexivity|reflexivity|].
  vm_compute in Ht'. injection Ht' as <-. exact Hrun.
Defined.

(** ** Shifts of a window *)

Lemma mapM_Ok_same {A} (f : A → result A) (l k : list A) :
  (∀ x y, f x = Ok y → y = x) → mapM f l = Ok k → k = l.
Proof.
  intros Hf. revert k. induction l as [|x l IH]; intros k H; simpl in H.
  - by injection H as <-.
  - apply bind_Ok in H as (y & Hy & H). apply bind_Ok in H as (k' & Hk' & H).
    injection H as <-. by rewrite (Hf _ _ Hy), (IH _ Hk').
Qed.

Lemma mapM_Forall2 {A B} (f : A → result B) (P : A → Prop) (Q : A → B → Prop)
    (l : list A) :
  (∀ x, P x → ∃ y, f x = Ok y ∧ Q x y) → Forall P l →
  ∃ k, mapM f l = Ok k ∧ Forall2 Q l k.
Proof.
  intros Hf Hl. induction Hl as [|x l Hx Hl IH]; simpl.
  - exists []. split; [done|constructor].
  - destruct (Hf x Hx) as (y & -> & Hq). destruct IH as (k & -> & Hk).
    exists (y :: k). split; [done|by constructor].
Qed.

Lemma mapM_ext_Forall2 {A B C} (g : B → result C) (h : A → result C)
    (l : list A) (k : list B) :
  Forall2 (λ x y, g y = h x) l k → mapM g k = mapM h l.
Proof. induction 1 as [|x y l k Hxy _ IH]; simpl; [done|]. by rewrite Hxy, IH. Qed.

Lemma transpose_event_zero (e e' : event) : transpose_event 0 e = Ok e' → e' = e.
Proof.
  unfold transpose_event. intros H. destruct e as [nm v]. cbn [name value] in H.
  destruct (decide (nm = "Note_Pitch")) as [Hp|Hp].
  - apply bind_Ok in H as (v' & Hv & H). injection H as <-.
    destruct v as [z| |]; simpl in Hv; [|done|done].
    injection Hv as <-. by rewrite Z.add_0_r.
  - destruct (decide (nm = "Chord")) as [Hc|Hc]; [|by injection H as <-].
    unfold transpose_chord, get_chord_tone in H. cbn [name value] in H.
    destruct (decide (v = VStr "N_N")) as [Hs|Hs]; [by injection H as <-|].
    destruct v as [z|s|]; [done| |done]. cbn [as_str mbind result_bind] in H.
    apply bind_Ok in H as (i & Hi & H).
    destruct (KEY_TO_IDX !! Py.split_head s) as [i'|] eqn:Hk; [|done].
    injection Hi as ->.
    destruct (key_table_inverse _ _ Hk) as (Ht & Hrange & _).
    replace ((i + 12 + 0) `mod` 12) with i in H.
    2: { replace (i + 12 + 0) with (i + 1 * 12) by lia.
         rewrite Z_mod_plus_full. by rewrite Z.mod_small. }
    rewrite Ht in H. cbn [or_raise mbind result_bind] in H. injection H as <-.
    do 2 f_equal. unfold Py.replace.
    apply (replace_same _ (String.length s)); [|done].
    by destruct (Py.split_head s).
Qed.

(** X2. A shift of zero keys changes nothing: whenever
    [transpose_events] returns for [n_keys = 0], it returns the events it
    was given. *)
Theorem transpose_events_zero (evs out : list event) :
  transpose_events evs 0 = Ok out → out = evs.
Proof.
  unfold transpose_events. intros H.
  apply bind_Ok in H as (tr & Htr & H). apply bind_Ok in H as ([] & _ & H).
  injection H as <-. by apply (mapM_Ok_same _ _ _ transpose_event_zero).
Qed.

Lemma transpose_events_zero_witness :
  transpose_events sample_window 0 = Ok sample_window.
Proof.
  assert (∃ out, transpose_events sample_window 0 = Ok out) as [out Hout].
  { eexists. vm_compute. reflexivity. }
  rewrite Hout. f_equal. by apply transpose_events_zero.
Defined.

(** A well-formed event is transposed without error, stays well formed,
    and a second shift acts on it like the sum of the two shifts on the
    original. *)
Lemma transpose_event_compose (n : Z) (e : event) :
  well_formed_event e →
  ∃ e', transpose_event n e = Ok e' ∧ well_formed_event e' ∧
    ∀ m, transpose_event m e' = transpose_event (n + m) e.
Proof.
  intros [Hpitch Hchord]. destruct e as [nm v]. cbn [name value] in *.
  unfold transpose_event. cbn [name value].
  destruct (decide (nm = "Note_Pitch")) as [Hp|Hp].
  - destruct (Hpitch Hp) as [z ->]. eexists. split; [done|]. split.
    + split; cbn [name value]; [eauto|]. intros Hc. congruence.
    + intros m. cbn [name value].
      destruct (decide (nm = "Note_Pitch")); [|done]. simpl.
      by rewrite Z.add_assoc.
  - destruct (decide (nm = "Chord")) as [Hc|Hc].
    + destruct (Hchord Hc) as [->|(tone & q & i & -> & Hi & Hq)].
      * exists (Event nm (VStr "N_N")). split; [done|]. split.
        { split; cbn [name value]; [done|]. intros _. by left. }
        intros m. cbn [name value].
        destruct (decide (nm = "Note_Pitch")); [done|].
        destruct (decide (nm = "Chord")); done.
      * destruct (transpose_chord_value nm tone q i n Hi Hq)
          as (tone' & Ht' & Hk' & Hrun).
        exists (Event nm (VStr (chord_value tone' q))). split; [done|]. split.
        { split; cbn [name value]; [done|]. intros _. right. eauto 10. }
        intros m. cbn [name value].
        destruct (decide (nm = "Note_Pitch")); [done|].
        destruct (decide (nm = "Chord")); [|done].
        destruct (transpose_chord_value nm tone' q _ m Hk' Hq)
          as (t1 & Ht1 & _ & ->).
        destruct (transpose_chord_value nm tone q i (n + m) Hi Hq)
          as (t2 & Ht2 & _ & ->).
        rewrite Z.add_mod_idemp_l in Ht1 by lia.
        rewrite Z.add_assoc, Ht1 in Ht2. by injection Ht2 as <-.
    + exists (Event nm v). split; [done|]. split; [by split|].
      intros m. cbn [name value].
      destruct (decide (nm = "Note_Pitch")); [done|].
      destruct (decide (nm = "Chord")); done.
Qed.

Lemma transpose_events_mapM (evs : list event) (n : Z) :
  transpose_events evs n = mapM (transpose_event n) evs.
Proof.
  unfold transpose_events.
  destruct (mapM (transpose_event n) evs) as [tr| |] eqn:Htr; [|done|done].
  cbn [mbind result_bind]. by rewrite assert_true by (by eapply mapM_Ok_length).
Qed.

Lemma transpose_events_well_formed (evs : list event) (n : Z) :
  Forall well_formed_event evs →
  ∃ out, transpose_events evs n = Ok out ∧ Forall well_formed_event out ∧
    ∀ m, transpose_events out m = transpose_events evs (n + m).
Proof.
  intros Hwf.
  destruct (mapM_Forall2 (transpose_event n) well_formed_event
              (λ e e', well_formed_event e' ∧
                       ∀ m, transpose_event m e' = transpose_event (n + m) e)
              evs (transpose_event_compose n) Hwf) as (out & Hout & Hall).
  exists out. rewrite transpose_events_mapM. split; [done|]. split.
  - apply Forall_lookup. intros j e' He'.
    destruct (Forall2_lookup_r _ _ _ _ _ Hall He') as (e & _ & Hw & _). done.
  - intros m. rewrite !transpose_events_mapM. apply mapM_ext_Forall2.
    eapply Forall2_impl; [exact Hall|]. intros e e' [_ He]. apply He.
Qed.

(** X3. On a window of well-formed events [transpose_events] returns for
    every shift; shifting by [n] and then by [m] is shifting by [n + m], and
    shifting back by [-n] gives the original window. *)
Theorem transpose_events_round_trip (evs : list event) (n : Z) :
  Forall well_formed_event evs →
  ∃ out, transpose_events evs n = Ok out ∧
    (∀ m, transpose_events out m = transpose_events evs (n + m)) ∧
    transpose_events out (- n) = Ok evs.
Proof.
  intros Hwf.
  destruct (transpose_events_well_formed evs n Hwf) as (out & Hout & _ & Hcomp).
  exists out. split; [done|]. split; [done|].
  rewrite Hcomp, Z.add_opp_diag_r.
  destruct (transpose_events_well_formed evs 0 Hwf) as (out0 & Hout0 & _).
  rewrite Hout0. f_equal.
  rewrite transpose_events_mapM in Hout0.
  by apply (mapM_Ok_same _ _ _ transpose_event_zero).
Qed.

Lemma sample_window_well_formed : Forall well_formed_event sample_window.
Proof.
  unfold sample_window.
  repeat (apply Forall_cons; split; [|]); try apply Forall_nil;
    (split; cbn [name value]; intros Hn; try discriminate Hn).
  - by left.
  - right. exists "C", "maj", 3. repeat split; reflexivity.
  - by exists 25.
  - by exists 60.
Qed.

Lemma transpose_events_round_trip_witness :
  ∃ out, transpose_events sample_window 5 = Ok out ∧
    transpose_events out (-5) = Ok sample_window.
Proof.
  destruct (transpose_events_round_trip sample_window 5 sample_window_well_formed)
    as (out & Hout & _ & Hback).
  exists out. split; [exact Hout|exact Hback].
Defined.

(** ** Extremes of a window *)

Lemma extreme_from_attained (evs : list event) :
  ∀ (acc ext : Z * Z),
    extreme_from acc evs = Ok ext →
    (ext.1 = acc.1 ∨
     ∃ e, e ∈ evs ∧ name e = "Note_Pitch" ∧ py_int (value e) = Ok ext.1) ∧
    (ext.2 = acc.2 ∨
     ∃ e, e ∈ evs ∧ name e = "Note_Pitch" ∧ py_int (value e) = Ok ext.2).
Proof.
  induction evs as [|ev evs IH]; intros acc ext H; simpl in H.
  - injection H as <-. by split; left.
  - apply bind_Ok in H as (acc' & Hstep & H).
    destruct (IH _ _ H) as [Hlo Hhi].
    assert (∀ P : event → Prop, (∃ e, e ∈ evs ∧ P e) → ∃ e, e ∈ ev :: evs ∧ P e)
      as Hlift.
    { intros P (e & He & HP). exists e. split; [by right|done]. }
    unfold extreme_step in Hstep.
    destruct (decide (name ev = "Note_Pitch")) as [Hn|Hn].
    + apply bind_Ok in Hstep as (p & Hp & Hstep).
      apply bind_Ok in Hstep as (p' & Hp' & Hstep).
      injection Hstep as <-. cbn [fst snd] in *.
      assert (p' = p) as -> by congruence.
      assert (∃ e, e ∈ ev :: evs ∧ name e = "Note_Pitch" ∧ py_int (value e) = Ok p)
        as Hev by (exists ev; split; [by left|done]).
      split.
      * destruct Hlo as [->|Hlo]; [|right; by apply (Hlift (λ e, _ ∧ _))].
        destruct (Z.min_spec acc.1 p) as [[_ ->]|[_ ->]]; [by left|by right].
      * destruct Hhi as [->|Hhi]; [|right; by apply (Hlift (λ e, _ ∧ _))].
        destruct (Z.max_spec acc.2 p) as [[_ ->]|[_ ->]]; [by right|by left].
    + injection Hstep as <-. split.
      * destruct Hlo as [->|Hlo]; [by left|right; by apply (Hlift (λ e, _ ∧ _))].
      * destruct Hhi as [->|Hhi]; [by left|right; by apply (Hlift (λ e, _ ∧ _))].
Qed.

Lemma extreme_from_returns (evs : list event) :
  Forall (λ e, name e = "Note_Pitch" → ∃ z, value e = VInt z) evs →
  ∀ acc, ∃ ext, extreme_from acc evs = Ok ext.
Proof.
  induction 1 as [|ev evs Hev _ IH]; intros acc; simpl; [eauto|].
  unfold extreme_step. destruct (decide (name ev = "Note_Pitch")) as [Hn|Hn].
  - destruct (Hev Hn) as [z ->]. simpl. apply IH.
  - simpl. apply IH.
Qed.

(** X4. [check_extreme_pitch] returns whenever every pitch event carries
    an integer. The pair it returns is the smallest of 128 and the pitches
    and the largest of 0 and the pitches: every pitch lies between the two,
    each of them is 128 (resp. 0) or the pitch of an event, and a window
    without pitch events gives [(128, 0)]. *)
Theorem check_extreme_pitch_spec (evs : list event) :
  (Forall (λ e, name e = "Note_Pitch" → ∃ z, value e = VInt z) evs →
   ∃ ext, check_extreme_pitch evs = Ok ext) ∧
  ∀ lo hi, check_extreme_pitch evs = Ok (lo, hi) →
    lo ≤ 128 ∧ 0 ≤ hi ∧
    (∀ e z, e ∈ evs → name e = "Note_Pitch" → value e = VInt z → lo ≤ z ≤ hi) ∧
    (lo = 128 ∨ ∃ e, e ∈ evs ∧ name e = "Note_Pitch" ∧ py_int (value e) = Ok lo) ∧
    (hi = 0 ∨ ∃ e, e ∈ evs ∧ name e = "Note_Pitch" ∧ py_int (value e) = Ok hi) ∧
    ((∀ e, e ∈ evs → name e ≠ "Note_Pitch") → lo = 128 ∧ hi = 0).
Proof.
  split; [intros Hint; by apply extreme_from_returns|].
  intros lo hi H. unfold check_extreme_pitch in H.
  destruct (extreme_from_bounds _ _ _ H) as (Hlo & Hhi & Hband).
  destruct (extreme_from_attained _ _ _ H) as (Halo & Hahi).
  cbn [fst snd] in *.
  split; [done|]. split; [done|]. split; [done|]. split; [done|]. split; [done|].
  intros Hnone. split.
  - destruct Halo as [->|(e & He & Hn & _)]; [done|]. by destruct (Hnone e He).
  - destruct Hahi as [->|(e & He & Hn & _)]; [done|]. by destruct (Hnone e He).
Qed.

(** ** The rejection loop *)

Lemma choice_not_pending {A} (d : nat) (l : list A) : Py.choice d l ≠ Pending.
Proof. unfold Py.choice. by destruct (l !! _). Qed.

Lemma draw_n_keys_pending_iff (ds : dataset) (lo hi : Z) (draws : list nat) :
  draw_n_keys ds lo hi draws = Pending ↔
  ∀ d, d ∈ draws →
    ∃ n, Py.choice d (augment_range ds) = Ok n ∧ rejected ds lo hi n.
Proof.
  induction draws as [|d draws IH]; simpl.
  - split; [|done]. intros _ d Hd. by apply elem_of_nil in Hd.
  - destruct (Py.choice d (augment_range ds)) as [n| |] eqn:Hn; simpl.
    + destruct (decide (rejected ds lo hi n)) as [Hr|Hr].
      * rewrite IH. split.
        -- intros Hall d' Hd'. apply elem_of_cons in Hd' as [->|Hd']; [eauto|eauto].
        -- intros Hall d' Hd'. apply Hall. by right.
      * split; [done|]. intros Hall.
        destruct (Hall d) as (n' & Hn' & Hr'); [by left|].
        rewrite Hn in Hn'. injection Hn' as <-. done.
    + split; [done|]. intros Hall.
      destruct (Hall d) as (n' & Hn' & _); [by left|]. congruence.
    + by destruct (choice_not_pending d (augment_range ds)).
Qed.

Lemma draw_n_keys_Ok_iff (ds : dataset) (lo hi : Z) (draws : list nat) (n_keys : Z) :
  draw_n_keys ds lo hi draws = Ok n_keys ↔
  ∃ pre d post,
    draws = pre ++ d :: post ∧
    Py.choice d (augment_range ds) = Ok n_keys ∧ ¬ rejected ds lo hi n_keys ∧
    ∀ d', d' ∈ pre →
      ∃ n, Py.choice d' (augment_range ds) = Ok n ∧ rejected ds lo hi n.
Proof.
  induction draws as [|d draws IH]; simpl.
  - split; [done|]. intros (pre & d & post & Heq & _). by destruct pre.
  - destruct (Py.choice d (augment_range ds)) as [n| |] eqn:Hn; simpl.
    + destruct (decide (rejected ds lo hi n)) as [Hr|Hr].
      * rewrite IH. split.
        -- intros (pre & d' & post & -> & Hc & Ha & Hpre).
           exists (d :: pre), d', post. split; [done|]. split; [done|]. split; [done|].
           intros d'' Hd''. apply elem_of_cons in Hd'' as [->|Hd'']; eauto.
        -- intros (pre & d' & post & Heq & Hc & Ha & Hpre).
           destruct pre as [|d0 pre]; simpl in Heq.
           ++ injection Heq as <- <-. rewrite Hn in Hc. injection Hc as <-. done.
           ++ injection Heq as <- ->. exists pre, d', post.
              split; [done|]. split; [done|]. split; [done|].
              intros d'' Hd''. apply Hpre. by right.
      * split.
        -- intros H. injection H as <-. exists [], d, draws.
           split; [done|]. split; [done|]. split; [done|].
           intros d' Hd'. by apply elem_of_nil in Hd'.
        -- intros (pre & d' & post & Heq & Hc & Ha & Hpre).
           destruct pre as [|d0 pre]; simpl in Heq.
           ++ injection Heq as <- <-. rewrite Hn in Hc. by injection Hc as <-.
           ++ injection Heq as <- ->.
              destruct (Hpre d) as (n' & Hn' & Hr'); [by left|].
              rewrite Hn in Hn'. injection Hn' as <-. done.
    + split; [done|]. intros (pre & d' & post & Heq & Hc & Ha & Hpre).
      destruct pre as [|d0 pre]; simpl in Heq.
      * injection Heq as <- <-. congruence.
      * injection Heq as <- ->.
        destruct (Hpre d) as (n' & Hn' & _); [by left|]. congruence.
    + by destruct (choice_not_pending d (augment_range ds)).
Qed.

Lemma mapM_not_pending {A B} (f : A → result B) (l : list A) :
  (∀ x, f x ≠ Pending) → mapM f l ≠ Pending.
Proof.
  intros Hf. induction l as [|x l IH]; simpl; [done|].
  destruct (f x) as [y| |] eqn:Hy; simpl; [|done|by destruct (Hf x)].
  destruct (mapM f l); simpl; done.
Qed.

Lemma transpose_events_not_pending (evs : list event) (n : Z) :
  transpose_events evs n ≠ Pending.
Proof.
  rewrite transpose_events_mapM. apply mapM_not_pending. intros e.
  unfold transpose_event.
  destruct (decide (name e = "Note_Pitch")).
  { by destruct (value e). }
  destruct (decide (name e = "Chord")); [|done].
  unfold transpose_chord, get_chord_tone.
  destruct (decide (value e = VStr "N_N")); [done|].
  destruct (value e) as [z|s|]; cbn [as_str mbind result_bind]; [done| |done].
  destruct (KEY_TO_IDX !! Py.split_head s) as [i|];
    cbn [or_raise mbind result_bind]; [|done].
  destruct (IDX_TO_KEY !! ((i + 12 + n) `mod` 12));
    cbn [or_raise mbind result_bind]; done.
Qed.

Lemma extreme_from_not_pending (evs : list event) :
  ∀ acc, extreme_from acc evs ≠ Pending.
Proof.
  induction evs as [|ev evs IH]; intros acc; simpl; [done|].
  unfold extreme_step. destruct (decide (name ev = "Note_Pitch")); simpl; [|apply IH].
  destruct (value ev) as [z|s|]; simpl; [apply IH| |done].
  unfold Py.int_of_string, or_raise.
  destruct (match s with EmptyString => _ | _ => _ end); simpl; [apply IH|done].
Qed.

(** X5. [pitch_augment] is still running after the draws it was given
    exactly when the extremes of the window could be computed and every one
    of those draws picked a shift that the band check rejects. Nothing
    else keeps it from returning or raising. *)
Theorem pitch_augment_pending_iff (ds : dataset) (draws : list nat) (evs : list event) :
  pitch_augment ds draws evs = Pending ↔
  ∃ lo hi, check_extreme_pitch evs = Ok (lo, hi) ∧
    ∀ d, d ∈ draws →
      ∃ n, Py.choice d (augment_range ds) = Ok n ∧ rejected ds lo hi n.
Proof.
  unfold pitch_augment.
  destruct (check_extreme_pitch evs) as [[lo hi]| |] eqn:Hext; cbn [mbind result_bind].
  - cbn [fst snd].
    destruct (draw_n_keys ds lo hi draws) as [n| |] eqn:Hn; cbn [mbind result_bind].
    + split; [intros H; by destruct (transpose_events_not_pending evs n)|].
      intros (lo' & hi' & Heq & Hall). injection Heq as <- <-.
      apply draw_n_keys_pending_iff in Hall. congruence.
    + split; [done|].
      intros (lo' & hi' & Heq & Hall). injection Heq as <- <-.
      apply draw_n_keys_pending_iff in Hall. congruence.
    + split; [|done]. intros _. exists lo, hi. split; [done|].
      by apply draw_n_keys_pending_iff.
  - split; [done|]. by intros (lo & hi & Heq & _).
  - by destruct (extreme_from_not_pending evs (128, 0)).
Qed.

(** X6. When the rejection loop of [pitch_augment] returns, the shift is
    the one picked by the first draw that passes the band check: every
    draw before it picked a shift that was rejected, and the draws after it
    are not used. *)
Theorem draw_n_keys_first_accepted (ds : dataset) (lo hi : Z) (draws : list nat)
    (n_keys : Z) :
  draw_n_keys ds lo hi draws = Ok n_keys ↔
  ∃ pre d post,
    draws = pre ++ d :: post ∧
    Py.choice d (augment_range ds) = Ok n_keys ∧
    accepted ds lo hi n_keys ∧
    ∀ d', d' ∈ pre →
      ∃ n, Py.choice d' (augment_range ds) = Ok n ∧ ¬ accepted ds lo hi n.
Proof.
  rewrite draw_n_keys_Ok_iff. unfold accepted, rejected.
  split; intros (pre & d & post & Heq & Hc & Ha & Hpre);
    exists pre, d, post; (split; [done|]); (split; [done|]); (split; [lia|]);
    intros d' Hd'; destruct (Hpre d' Hd') as (n & Hn & Hr); exists n;
    (split; [done|lia]).
Qed.

(** ** Token conversion *)

Lemma mapM_Ok_Forall2 {A B} (f : A → result B) (l : list A) (k : list B) :
  mapM f l = Ok k ↔ Forall2 (λ x y, f x = Ok y) l k.
Proof.
  revert k. induction l as [|x l IH]; intros k; simpl.
  - split.
    + intros H. injection H as <-. constructor.
    + intros H. by apply Forall2_nil_inv_l in H as ->.
  - split.
    + intros H. apply bind_Ok in H as (y & Hy & H).
      apply bind_Ok in H as (k' & Hk' & H). injection H as <-.
      constructor; [done|by apply IH].
    + intros H. apply Forall2_cons_inv_l in H as (y & k' & Hy & Hk' & ->).
      apply IH in Hk'. by rewrite Hy, Hk'.
Qed.

(** A loop over a list raises what its first failing element raises. *)
Lemma mapM_Raise {A B} (f : A → result B) (l : list A) (e : exn) :
  (∀ x, f x ≠ Pending) →
  mapM f l = Raise e ↔
  ∃ pre x post, l = pre ++ x :: post ∧ f x = Raise e ∧
    Forall (λ y, ∃ z, f y = Ok z) pre.
Proof.
  intros Hf. induction l as [|x l IH]; simpl.
  - split; [done|]. intros (pre & y & post & Heq & _). by destruct pre.
  - destruct (f x) as [y|e'|] eqn:Hx; cbn [mbind result_bind].
    + destruct (mapM f l) as [k|e'|] eqn:Hl; cbn [mbind result_bind].
      * split; [done|]. intros (pre & z & post & Heq & Hz & Hpre).
        destruct pre as [|p pre]; simpl in Heq; injection Heq as -> ->; [congruence|].
        apply Forall_cons in Hpre as [_ Hpre].
        assert (Ok k = Raise e) as Habs; [|done].
        apply IH. eauto 10.
      * split.
        -- intros H. injection H as ->.
           destruct (proj1 IH eq_refl) as (pre & z & post & -> & Hz & Hpre).
           exists (x :: pre), z, post. split; [done|]. split; [done|].
           constructor; eauto.
        -- intros (pre & z & post & Heq & Hz & Hpre).
           destruct pre as [|p pre]; simpl in Heq; injection Heq as -> ->; [congruence|].
           apply Forall_cons in Hpre as [_ Hpre]. f_equal.
           assert (@Raise (list B) e' = Raise e) as Heq; [|by injection Heq].
           apply IH. eauto 10.
      * by destruct (mapM_not_pending f l Hf).
    + split.
      * intros H. injection H as ->. exists [], x, l. by repeat split.
      * intros (pre & z & post & Heq & Hz & Hpre).
        destruct pre as [|p pre]; simpl in Heq; injection Heq as -> ->; [congruence|].
        apply Forall_cons in Hpre as [[z' Hz'] _]. congruence.
    + by destruct (Hf x).
Qed.

Lemma index_head_Ok {A} (l : list A) :
  l ≠ [] → ∃ x, Py.index l 0 = Ok x.
Proof. intros Hl. destruct l as [|x l]; [done|]. by exists x. Qed.

Lemma convert_event_not_pending (event_seq : list event) (vocab : gmap string Z) :
  convert_event event_seq vocab ≠ Pending.
Proof.
  unfold convert_event. destruct event_seq as [|e0 evs]; [done|].
  change (Py.index (e0 :: evs) 0) with (Ok e0). cbn [mbind result_bind].
  apply mapM_not_pending. intros e. by destruct (vocab !! event_key e).
Qed.

(** X7. [convert_event] looks every event up in the vocabulary under
    the key made of its name, an underscore and its value. It returns the
    codes, one for each event and in their order, exactly when the sequence
    is not empty and every key is in the vocabulary. An empty sequence
    raises [IndexError]; a sequence with a key that is not in the
    vocabulary raises [KeyError]; nothing else is raised. *)
Theorem convert_event_spec (event_seq : list event) (vocab : gmap string Z) :
  (∀ toks, convert_event event_seq vocab = Ok toks ↔
     event_seq ≠ [] ∧
     Forall2 (λ e t, vocab !! event_key e = Some t) event_seq toks) ∧
  (convert_event event_seq vocab = Raise IndexError ↔ event_seq = []) ∧
  (convert_event event_seq vocab = Raise KeyError ↔
     ∃ e, e ∈ event_seq ∧ vocab !! event_key e = None) ∧
  (∀ e, convert_event event_seq vocab = Raise e → e = IndexError ∨ e = KeyError) ∧
  convert_event event_seq vocab ≠ Pending.
Proof.
  assert (∀ e : event, or_raise KeyError (vocab !! event_key e) ≠ Pending) as Hnp.
  { intros e. by destruct (vocab !! event_key e). }
  unfold convert_event. destruct event_seq as [|e0 evs].
  { split; [|split; [|split; [|split]]]; try done.
    - intros toks. split; [done|]. by intros [? _].
    - split; [done|]. intros (e & He & _). by apply elem_of_nil in He.
    - intros e H. left. by injection H as <-. }
  change (Py.index (e0 :: evs) 0) with (Ok e0). cbn [mbind result_bind].
  set (f := λ e : event, or_raise KeyError (vocab !! event_key e)).
  assert (∀ e x, f e = Raise x → x = KeyError ∧ vocab !! event_key e = None) as Hf.
  { intros e x. unfold f. destruct (vocab !! event_key e); [done|].
    intros H. by injection H as <-. }
  split; [|split; [|split; [|split]]].
  - intros toks. rewrite mapM_Ok_Forall2. split.
    + intros H. split; [done|]. eapply Forall2_impl; [exact H|].
      intros e t. unfold f. destruct (vocab !! event_key e); [|done].
      intros Heq. by injection Heq as ->.
    + intros [_ H]. eapply Forall2_impl; [exact H|].
      intros e t He. unfold f. by rewrite He.
  - split; [|done]. intros H.
    apply (mapM_Raise f _ _ Hnp) in H as (pre & x & post & _ & Hx & _).
    by destruct (Hf _ _ Hx).
  - rewrite (mapM_Raise f _ _ Hnp). split.
    + intros (pre & x & post & Heq & Hx & _). exists x. split.
      * rewrite Heq. apply elem_of_app. right. by left.
      * by destruct (Hf _ _ Hx).
    + intros (e & He & Hmiss).
      assert (∀ l : list event, (∃ e, e ∈ l ∧ vocab !! event_key e = None) →
                ∃ pre x post, l = pre ++ x :: post ∧ f x = Raise KeyError ∧
                  Forall (λ y, ∃ z, f y = Ok z) pre) as Hfirst.
      { clear. intros l. induction l as [|x l IH]; intros (e & He & Hmiss).
        { by apply elem_of_nil in He. }
        destruct (vocab !! event_key x) as [c|] eqn:Hx.
        - apply elem_of_cons in He as [->|He]; [congruence|].
          destruct IH as (pre & y & post & -> & Hy & Hpre); [eauto|].
          exists (x :: pre), y, post. split; [done|]. split; [done|].
          constructor; [|done]. exists c. unfold f. by rewrite Hx.
        - exists [], x, l. split; [done|]. split; [|done].
          unfold f. by rewrite Hx. }
      apply Hfirst. eauto.
  - intros e H. right.
    apply (mapM_Raise f _ _ Hnp) in H as (pre & x & post & _ & Hx & _).
    by destruct (Hf _ _ Hx).
  - apply (convert_event_not_pending (e0 :: evs)).
Qed.

(** ** The bar labels of a window *)

Lemma length_slice {A} (l : list A) (lo hi : Z) :
  length (Py.slice l lo hi)
    = Nat.min (Py.bound (length l) hi - Py.bound (length l) lo)
              (length l - Py.bound (length l) lo).
Proof. unfold Py.slice. by rewrite length_take, length_drop. Qed.

(** A slice of [k] consecutive positions holds at most [k] entries,
    wherever it starts. *)
Lemma length_slice_le {A} (l : list A) (lo : Z) (k : nat) :
  (length (Py.slice l lo (lo + Z.of_nat k)) ≤ k)%nat.
Proof.
  rewrite length_slice. unfold Py.bound.
  destruct (decide (lo < 0)), (decide (lo + Z.of_nat k < 0)); lia.
Qed.

Lemma slice_lookup {A} (l : list A) (lo : Z) (k i : nat) :
  0 ≤ lo → (i < k)%nat →
  Py.slice l lo (lo + Z.of_nat k) !! i = l !! (Z.to_nat lo + i)%nat.
Proof.
  intros Hlo Hi. unfold Py.slice, Py.bound.
  destruct (decide (lo < 0)) as [?|_]; [lia|].
  destruct (decide (lo + Z.of_nat k < 0)) as [?|_]; [lia|].
  destruct (decide (Z.to_nat lo + i < length l)%nat) as [Hin|Hout].
  - rewrite lookup_take_lt by lia. rewrite lookup_drop. f_equal. lia.
  - rewrite (lookup_ge_None_2 l) by lia.
    apply lookup_ge_None_2. rewrite length_take, length_drop. lia.
Qed.

Lemma length_attr_slice (ds : dataset) (labels : list Z) (st_bar : Z) :
  length (attr_slice ds labels st_bar) = model_max_bars ds.
Proof.
  unfold attr_slice. cbv zeta. rewrite length_app, length_replicate.
  pose proof (length_slice_le labels st_bar (model_max_bars ds)). lia.
Qed.

Lemma attr_slice_lookup (ds : dataset) (labels : list Z) (st_bar : Z) (i : nat) :
  0 ≤ st_bar → (i < model_max_bars ds)%nat →
  attr_slice ds labels st_bar !! i
    = Some (default 0 (labels !! (Z.to_nat st_bar + i)%nat)).
Proof.
  intros Hst Hi. unfold attr_slice. cbv zeta.
  set (cls := Py.slice labels st_bar (st_bar + Z.of_nat (model_max_bars ds))).
  pose proof (slice_lookup labels st_bar (model_max_bars ds) i Hst Hi) as Hcls.
  fold cls in Hcls.
  destruct (labels !! (Z.to_nat st_bar + i)%nat) as [x|] eqn:Hx; simpl.
  - rewrite lookup_app_l; [done|]. by eapply lookup_lt_Some.
  - apply lookup_ge_None_1 in Hcls.
    rewrite lookup_app_r by done. apply lookup_replicate_2.
    pose proof (length_slice_le labels st_bar (model_max_bars ds)).
    fold cls in H. lia.
Qed.

Lemma get_attr_classes_value (ds : dataset) (file : piece_file) (st_bar : Z) :
  get_attr_classes ds file st_bar
    = Ok (attr_slice ds (file_polyph file) st_bar,
          attr_slice ds (file_rhythm file) st_bar).
Proof.
  unfold get_attr_classes. cbv zeta.
  rewrite !assert_true by apply length_attr_slice. done.
Qed.

(** X8. [get_attr_classes] returns for every piece and every start bar,
    also one past the labels or negative: its two assertions cannot fail.
    Both label lists have exactly [model_max_bars] entries. For a start bar
    that is not negative, entry [i] is the label of bar [st_bar + i] of the
    piece where the piece has such a bar, and 0 behind the last bar. *)
Theorem get_attr_classes_spec (ds : dataset) (file : piece_file) (st_bar : Z) :
  ∃ polyph_cls rfreq_cls,
    get_attr_classes ds file st_bar = Ok (polyph_cls, rfreq_cls) ∧
    length polyph_cls = model_max_bars ds ∧
    length rfreq_cls = model_max_bars ds ∧
    (0 ≤ st_bar → ∀ i : nat, (i < model_max_bars ds)%nat →
       polyph_cls !! i
         = Some (default 0 (file_polyph file !! (Z.to_nat st_bar + i)%nat)) ∧
       rfreq_cls !! i
         = Some (default 0 (file_rhythm file !! (Z.to_nat st_bar + i)%nat))).
Proof.
  eexists _, _. split; [apply get_attr_classes_value|].
  split; [apply length_attr_slice|]. split; [apply length_attr_slice|].
  intros Hst i Hi. split; by apply attr_slice_lookup.
Qed.

(** ** Loading the pieces *)

(** The three outcomes of the loop body of [build_dataset]: the two
    boundary lists on which [bar_pos[-1]] fails, and in every other case a
    front part of the list followed by the token count. *)
Lemma normalize_bar_pos_cases (bar_pos : list Z) (n : nat) :
  (bar_pos = [] ∧ normalize_bar_pos bar_pos n = Raise IndexError) ∨
  (bar_pos = [Z.of_nat n] ∧ normalize_bar_pos bar_pos n = Raise IndexError) ∨
  (∃ core dropped,
     normalize_bar_pos bar_pos n = Ok (core ++ [Z.of_nat n]) ∧
     bar_pos ≠ [] ∧ bar_pos ≠ [Z.of_nat n] ∧
     bar_pos = core ++ dropped ∧ (length dropped ≤ 2)%nat ∧
     Forall (λ b, b = Z.of_nat n ∨ b = Z.of_nat n - 2) dropped ∧
     (dropped = [] → ∀ c, last bar_pos = Some c →
        c ≠ Z.of_nat n ∧ c ≠ Z.of_nat n - 2)).
Proof.
  unfold normalize_bar_pos.
  destruct (snoc_cases bar_pos) as [->|(l & x & ->)]; [by left|].
  right. rewrite index_last_snoc. cbn [mbind result_bind].
  rewrite slice_to_last_snoc.
  destruct (decide (x = Z.of_nat n)) as [->|Hx].
  - destruct (snoc_cases l) as [->|(l' & y & ->)]; [by left|].
    right. rewrite index_last_snoc. cbn [mbind result_bind].
    rewrite slice_to_last_snoc.
    assert ((l' ++ [y]) ++ [Z.of_nat n] ≠ []) as Hne by (by destruct l').
    assert ((l' ++ [y]) ++ [Z.of_nat n] ≠ [Z.of_nat n]) as Hne'.
    { intros H. apply (f_equal length) in H. rewrite !length_app in H.
      simpl in H. lia. }
    destruct (decide (Z.of_nat n - y = 2)) as [Hy|Hy].
    + exists l', [y; Z.of_nat n].
      split; [done|]. split; [done|]. split; [done|].
      split; [by rewrite <- !app_assoc|]. split; [simpl; lia|]. split; [|done].
      apply Forall_cons_2; [right; lia|].
      apply Forall_cons_2; [by left|]. apply Forall_nil_2.
    + exists (l' ++ [y]), [Z.of_nat n].
      split; [done|]. split; [done|]. split; [done|].
      split; [done|]. split; [simpl; lia|]. split; [|done].
      apply Forall_cons_2; [by left|]. apply Forall_nil_2.
  - right. rewrite index_last_snoc. cbn [mbind result_bind].
    rewrite slice_to_last_snoc.
    assert (l ++ [x] ≠ []) as Hne by (by destruct l).
    assert (l ++ [x] ≠ [Z.of_nat n]) as Hne'.
    { intros H. destruct l as [|a l]; simpl in H; [congruence|].
      injection H as _ H. by destruct l. }
    destruct (decide (Z.of_nat n - x = 2)) as [Hx2|Hx2].
    + exists l, [x].
      split; [done|]. split; [done|]. split; [done|].
      split; [done|]. split; [simpl; lia|]. split; [|done].
      apply Forall_cons_2; [right; lia|]. apply Forall_nil_2.
    + exists (l ++ [x]), [].
      split; [done|]. split; [done|]. split; [done|].
      split; [by rewrite app_nil_r|]. split; [simpl; lia|].
      split; [apply Forall_nil_2|].
      intros _ c Hc. rewrite last_snoc in Hc. injection Hc as <-. lia.
Qed.

Lemma build_dataset_cons (f : piece_file) (files : list piece_file) :
  build_dataset (f :: files) =
    bp ← normalize_bar_pos (file_bar_pos f) (length (file_events f));
    bps ← build_dataset files; Ok (bp :: bps).
Proof. reflexivity. Qed.

(** X9. [build_dataset] fails exactly on a piece whose boundary list is
    empty, or holds the token count and nothing else: reading its last
    entry raises [IndexError]. With no such piece it returns one boundary
    list for every piece, in the order of the pieces; each is a front part
    of the piece's list followed by the token count, and the part left out
    is at most two entries long, each of them the token count or the start
    of a final bar of two tokens. *)
Theorem build_dataset_outcome (files : list piece_file) :
  let count f := Z.of_nat (length (file_events f)) in
  let unusable f := file_bar_pos f = [] ∨ file_bar_pos f = [count f] in
  (Exists unusable files → build_dataset files = Raise IndexError) ∧
  (Forall (λ f, ¬ unusable f) files →
   ∃ bar_pos, build_dataset files = Ok bar_pos ∧
     length bar_pos = length files ∧
     ∀ (i : nat) f bp, files !! i = Some f → bar_pos !! i = Some bp →
       ∃ core dropped,
         bp = core ++ [count f] ∧ file_bar_pos f = core ++ dropped ∧
         (length dropped ≤ 2)%nat ∧
         Forall (λ b, b = count f ∨ b = count f - 2) dropped).
Proof.
  intros count unusable.
  induction files as [|f files [IHbad IHgood]].
  { split; [intros H; by apply Exists_nil in H|].
    intros _. exists []. split; [done|]. split; [done|]. intros i f bp Hf. done. }
  rewrite build_dataset_cons.
  destruct (normalize_bar_pos_cases (file_bar_pos f) (length (file_events f)))
    as [[Hnil ->]|[[Hone ->]|(core & dropped & -> & Hne & Hne' & Hsplit & Hlen & Hdrop & _)]];
    cbn [mbind result_bind].
  - split; [done|]. intros H. apply Forall_cons in H as [H _].
    destruct H. by left.
  - split; [done|]. intros H. apply Forall_cons in H as [H _].
    destruct H. by right.
  - split.
    + intros H. apply Exists_cons in H as [[H|H]|H]; [done|done|].
      by rewrite (IHbad H).
    + intros H. apply Forall_cons in H as [_ H].
      destruct (IHgood H) as (bps & -> & Hbps & Hall). cbn [mbind result_bind].
      eexists. split; [done|]. split; [simpl; by rewrite Hbps|].
      intros [|i] f' bp Hf' Hbp; simpl in Hf', Hbp.
      * injection Hf' as <-. injection Hbp as <-. by exists core, dropped.
      * by apply (Hall i).
Qed.

Lemma increasing_app_inv (l k : list Z) :
  increasing (l ++ k) →
  increasing l ∧ increasing k ∧ ∀ x y, x ∈ l → y ∈ k → x < y.
Proof.
  unfold increasing. intros H. apply StronglySorted_app in H as (Hlt & Hl & Hk).
  done.
Qed.

Lemma increasing_snoc (l : list Z) (y : Z) :
  increasing l → (∀ x, x ∈ l → x < y) → increasing (l ++ [y]).
Proof.
  unfold increasing. intros Hl Hy. apply StronglySorted_app.
  split; [|split; [done|repeat constructor]].
  intros x1 x2 H1 H2. apply list_elem_of_singleton in H2 as ->. by apply Hy.
Qed.

Lemma increasing_below_last (l : list Z) (x c : Z) :
  increasing l → x ∈ l → last l = Some c → x ≤ c.
Proof.
  intros Hl Hx Hc. destruct (list_elem_of_lookup_1 _ _ Hx) as [i Hi].
  rewrite last_lookup in Hc.
  apply (sorted_lookup_le l i (Nat.pred (length l)));
    [by apply increasing_le|done|done|].
  apply lookup_lt_Some in Hi. lia.
Qed.

Lemma normalize_increasing (bar_pos : list Z) (n : nat) (out : list Z) :
  increasing bar_pos → (∀ b, b ∈ bar_pos → 0 ≤ b ≤ Z.of_nat n) →
  normalize_bar_pos bar_pos n = Ok out →
  ∃ core, out = core ++ [Z.of_nat n] ∧ increasing out ∧
    (∀ b, b ∈ core → 0 ≤ b < Z.of_nat n) ∧
    (∀ c, last core = Some c → Z.of_nat n - c ≠ 2).
Proof.
  intros Hinc Hbound Hrun.
  destruct (normalize_bar_pos_cases bar_pos n)
    as [[_ H]|[[_ H]|(core & dropped & H & _ & _ & Hsplit & _ & Hdrop & Hlast)]];
    [congruence|congruence|].
  rewrite Hrun in H. injection H as ->.
  assert (∀ x, x ∈ core → x ∈ bar_pos) as Hsub.
  { intros x Hx. rewrite Hsplit. apply elem_of_app. by left. }
  pose proof Hinc as Hinc'.
  rewrite Hsplit in Hinc'. apply increasing_app_inv in Hinc' as (Hcore & _ & Hlt).
  assert (∀ x, x ∈ core → x < Z.of_nat n) as Hbelow.
  { intros x Hx. destruct dropped as [|d dropped].
    - rewrite app_nil_r in Hsplit. subst core.
      destruct (proj2 (last_is_Some bar_pos)) as [c Hc].
      { intros ->. by apply elem_of_nil in Hx. }
      destruct (Hlast eq_refl c Hc) as [Hc1 Hc2].
      pose proof (increasing_below_last _ _ _ Hcore Hx Hc) as Hxc.
      assert (c ∈ bar_pos) as Hcin.
      { rewrite last_lookup in Hc. by eapply list_elem_of_lookup_2. }
      specialize (Hbound c Hcin). lia.
    - assert (x < d) by (apply Hlt; [done|by left]).
      apply Forall_cons in Hdrop as [Hd _]. lia. }
  exists core. split; [done|]. split; [by apply increasing_snoc|]. split.
  - intros b Hb. specialize (Hbound b (Hsub b Hb)). specialize (Hbelow b Hb). lia.
  - intros c Hc. apply last_Some in Hc as [core' ->].
    by apply (normalize_increasing_core bar_pos n (core' ++ [c]) core' c).
Qed.

(** X10. The boundaries stay in order: for a strictly increasing
    boundary list with entries from 0 to the token count, the list stored
    by [build_dataset] is strictly increasing, starts where the piece's
    list starts unless it holds the token count only, ends with the token
    count, and its last bar does not hold exactly two tokens. *)
Theorem normalize_keeps_increasing (bar_pos : list Z) (n : nat) (out : list Z) :
  increasing bar_pos → (∀ b, b ∈ bar_pos → 0 ≤ b ≤ Z.of_nat n) →
  normalize_bar_pos bar_pos n = Ok out →
  increasing out ∧ (∀ b, b ∈ out → 0 ≤ b ≤ Z.of_nat n) ∧
  last out = Some (Z.of_nat n) ∧
  ((2 ≤ length out)%nat → out !! 0%nat = bar_pos !! 0%nat) ∧
  (∀ core c, out = core ++ [c; Z.of_nat n] → Z.of_nat n - c ≠ 2).
Proof.
  intros Hinc Hbound Hrun.
  destruct (normalize_increasing bar_pos n out Hinc Hbound Hrun)
    as (core & -> & Hout & Hcore & Hlast).
  split; [done|]. split; [|split; [apply last_snoc|split]].
  - intros b Hb. apply elem_of_app in Hb as [Hb|Hb].
    + specialize (Hcore b Hb). lia.
    + apply list_elem_of_singleton in Hb as ->. lia.
  - intros Hlen. rewrite length_app in Hlen. simpl in Hlen.
    destruct (normalize_bar_pos_cases bar_pos n)
      as [[_ H]|[[_ H]|(core' & dropped & H & _ & _ & Hsplit & _)]];
      [congruence|congruence|].
    rewrite Hrun in H. injection H as H. apply app_inv_tail in H as <-.
    rewrite Hsplit. destruct core as [|c0 core]; [simpl in Hlen; lia|done].
  - intros core' c Heq. apply (Hlast c).
    change [c; Z.of_nat n] with ([c] ++ [Z.of_nat n]) in Heq.
    rewrite app_assoc in Heq. apply app_inv_tail in Heq as ->.
    apply last_snoc.
Qed.

Lemma normalize_keeps_increasing_witness :
  increasing [0; 4; 7; 9] ∧ normalize_bar_pos [0; 4; 7; 9] 9 = Ok [0; 4; 9] ∧
  increasing [0; 4; 9].
Proof.
  assert (increasing [0; 4; 7; 9]) as Hinc.
  { unfold increasing. repeat constructor; lia. }
  split; [exact Hinc|]. split; [reflexivity|].
  apply (normalize_keeps_increasing [0; 4; 7; 9] 9 [0; 4; 9] Hinc).
  - intros b Hb. repeat (apply elem_of_cons in Hb as [->|Hb]; [lia|]).
    by apply elem_of_nil in Hb.
  - reflexivity.
Defined.

(** ** The sample record *)

(** The label loop keeps the lengths of the two arrays and cannot fail as
    long as every bar has a label. *)
Lemma expand_loop_returns (p r : list Z) (spans : list (Z * Z)) :
  ∀ (s : nat) (pe re : list Z),
    (s + length spans ≤ length p)%nat → (s + length spans ≤ length r)%nat →
    ∃ pe' re',
      for_each (expand_step p r) (zip (seq s (length spans)) spans) (pe, re)
        = Ok (pe', re') ∧
      length pe' = length pe ∧ length re' = length re.
Proof.
  induction spans as [|[st ed] spans IH]; intros s pe re Hp Hr.
  - exists pe, re. done.
  - simpl in Hp, Hr. simpl.
    destruct (lookup_lt_is_Some_2 p s) as [ps Hps]; [lia|].
    destruct (lookup_lt_is_Some_2 r s) as [rs Hrs]; [lia|].
    rewrite (index_nat _ _ _ Hps), (index_nat _ _ _ Hrs). simpl.
    destruct (IH (S s) (Py.fill pe st ed ps) (Py.fill re st ed rs))
      as (pe' & re' & Hrun & Hpe & Hre); [lia|lia|].
    exists pe', re'. split; [exact Hrun|].
    rewrite Hpe, Hre, !length_fill. done.
Qed.

Lemma attr_block_returns (ds : dataset) (file : piece_file) (st_bar : Z)
    (bar_pos : list Z) :
  (length bar_pos - 1 ≤ model_max_bars ds)%nat →
  ∃ p r pe re,
    attr_block ds file st_bar bar_pos = Ok (p, r, (pe, re)) ∧
    (use_attr_cls ds = true →
       length p = model_max_bars ds ∧ length r = model_max_bars ds ∧
       length pe = model_dec_seqlen ds ∧ length re = model_dec_seqlen ds).
Proof.
  intros Hlen. unfold attr_block. destruct (use_attr_cls ds).
  - rewrite get_attr_classes_value. cbn [mbind result_bind fst snd].
    unfold expand_attr_classes, Py.enumerate.
    pose proof (length_bar_spans bar_pos) as Hspans.
    destruct (expand_loop_returns
                (attr_slice ds (file_polyph file) st_bar)
                (attr_slice ds (file_rhythm file) st_bar)
                (bar_spans bar_pos) 0
                (replicate (model_dec_seqlen ds) 0) (replicate (model_dec_seqlen ds) 0))
      as (pe & re & Hrun & Hpe & Hre).
    { rewrite length_attr_slice. lia. }
    { rewrite length_attr_slice. lia. }
    cbv zeta. rewrite Hrun. cbn [mbind result_bind].
    eexists _, _, _, _. split; [done|]. intros _.
    rewrite !length_attr_slice, Hpe, Hre, length_replicate. done.
  - eexists _, _, _, _. split; [done|]. done.
Qed.

(** The encoder arrays have their shape whenever the call returns. *)
Lemma encoder_shapes (ds : dataset) (bar_positions toks : list Z)
    (inp : list (list Z)) (mask : list (list bool)) (lens : list Z) :
  get_encoder_input_data ds bar_positions toks = Ok (inp, mask, lens) →
  length bar_positions = (model_max_bars ds + 1)%nat ∧
  length inp = model_max_bars ds ∧
  Forall (λ row, length row = model_enc_seqlen ds) inp ∧
  length mask = model_max_bars ds ∧
  Forall (λ row, length row = model_enc_seqlen ds) mask ∧
  length lens = model_max_bars ds.
Proof.
  intros Hrun.
  assert (length bar_positions = (model_max_bars ds + 1)%nat) as Hlen.
  { unfold get_encoder_input_data in Hrun.
    apply bind_Ok in Hrun as ([] & Ha & _). by apply assert_Ok in Ha. }
  destruct (get_encoder_input_data_rows ds bar_positions toks Hlen)
    as (inp' & mask' & lens' & Hrun' & Hi & Hm & Hl & Hrows).
  rewrite Hrun in Hrun'. injection Hrun' as <- <- <-.
  pose proof (length_bar_spans bar_positions) as Hspans.
  assert (∀ b, (b < model_max_bars ds)%nat → is_Some (bar_spans bar_positions !! b)) as Hsp.
  { intros b Hb. apply lookup_lt_is_Some_2. lia. }
  split; [done|]. split; [done|]. split.
  { apply Forall_lookup. intros b row Hrow.
    destruct (Hsp b) as [sp Hb]; [apply lookup_lt_Some in Hrow; lia|].
    destruct (Hrows b sp Hb) as (Ha & _ & _).
    rewrite Ha in Hrow. injection Hrow as <-. apply length_enc_row. }
  split; [done|]. split; [|done].
  apply Forall_lookup. intros b row Hrow.
  destruct (Hsp b) as [sp Hb]; [apply lookup_lt_Some in Hrow; lia|].
  destruct (Hrows b sp Hb) as (_ & Ha & _).
  rewrite Ha in Hrow. injection Hrow as <-.
  unfold enc_mask_row. by rewrite !length_fill, length_replicate.
Qed.

(** The decoder pair cut from a padded token list [inp0]: [inp0[:-1]] and
    [inp0[1:]], both cut to [D] entries. *)
Lemma decoder_pair (inp0 : list Z) (D : nat) :
  let inp := Py.slice_to (Py.slice_to inp0 (-1)) (Z.of_nat D) in
  let target := Py.slice_to (Py.slice_from inp0 1) (Z.of_nat D) in
  length (Py.slice_to inp0 (-1)) = length (Py.slice_from inp0 1) ∧
  length inp = Nat.min (length inp0 - 1) D ∧
  length target = Nat.min (length inp0 - 1) D ∧
  ∀ i : nat, (i < Nat.min (length inp0 - 1) D)%nat →
    inp !! i = inp0 !! i ∧ target !! i = inp0 !! S i.
Proof.
  cbv zeta. rewrite slice_to_last, slice_from_1.
  unfold Py.slice_to. rewrite !bound_nat.
  rewrite !length_take, !length_drop.
  split; [lia|]. split; [lia|]. split; [lia|].
  intros i Hi. rewrite !lookup_take_lt by lia. by rewrite lookup_drop.
Qed.

Lemma pad_sequence_lookup (seq : list Z) (maxlen : nat) (pad_value : Z) (i : nat) :
  (i < Nat.max (length seq) maxlen)%nat →
  pad_sequence seq maxlen pad_value !! i = Some (default pad_value (seq !! i)).
Proof.
  intros Hi. unfold pad_sequence.
  destruct (seq !! i) as [x|] eqn:Hx; simpl.
  - by rewrite lookup_app_l by (by eapply lookup_lt_Some).
  - apply lookup_ge_None_1 in Hx. rewrite lookup_app_r by done.
    apply lookup_replicate_2. lia.
Qed.

Lemma length_pad_sequence (seq : list Z) (maxlen : nat) (pad_value : Z) :
  length (pad_sequence seq maxlen pad_value) = Nat.max (length seq) maxlen.
Proof. unfold pad_sequence. rewrite length_app, length_replicate. lia. Qed.

(** What a returned sample was made of. *)
Lemma getitem_inv (ds : dataset) (draw : nat) (draws : list nat) (idx : nat)
    (s : sample) :
  __getitem__ ds draw draws idx = Ok s →
  ∃ evs0 st bar_pos n evs file p r pe re toks inp mask lens inp0,
    get_sample_from_file ds draw idx = Ok (evs0, st, bar_pos, n) ∧
    (if do_augment ds then pitch_augment ds draws evs0 else Ok evs0) = Ok evs ∧
    pieces ds !! idx = Some file ∧
    attr_block ds file st bar_pos = Ok (p, r, (pe, re)) ∧
    convert_event evs (event2idx ds) = Ok toks ∧
    get_encoder_input_data ds (bar_pos ++ [Z.of_nat (length toks)]) toks
      = Ok (inp, mask, lens) ∧
    inp0 = (if pad_to_same ds
            then pad_sequence toks (model_dec_seqlen ds + 1) (pad_token ds)
            else pad_sequence toks (length toks + 1) (dec_end_pad_value ds)) ∧
    s = {| s_id := idx;
           s_st_bar_id := st;
           s_bar_pos := bar_pos ++ [Z.of_nat (length toks)];
           s_enc_input := inp;
           s_dec_input :=
             Py.slice_to (Py.slice_to inp0 (-1)) (Z.of_nat (model_dec_seqlen ds));
           s_dec_target :=
             Py.slice_to (Py.slice_from inp0 1) (Z.of_nat (model_dec_seqlen ds));
           s_polyph_cls := pe;
           s_rhymfreq_cls := re;
           s_polyph_cls_bar := p;
           s_rhymfreq_cls_bar := r;
           s_length := Nat.min (length toks) (model_dec_seqlen ds);
           s_enc_padding_mask := mask;
           s_enc_length := lens;
           s_enc_n_bars := n |}.
Proof.
  unfold __getitem__. intros H.
  apply bind_Ok in H as ([[[evs0 st] bar_pos] n] & Hsample & H).
  apply bind_Ok in H as (evs & Haug & H).
  apply bind_Ok in H as (file & Hfile & H).
  apply bind_Ok in H as ([[p r] [pe re]] & Hattr & H).
  apply bind_Ok in H as (toks & Htoks & H).
  apply bind_Ok in H as ([[inp mask] lens] & Henc & H).
  apply bind_Ok in H as ([] & _ & H). injection H as <-.
  exists evs0, st, bar_pos, n, evs, file, p, r, pe, re, toks, inp, mask, lens.
  eexists. split; [done|]. split; [done|].
  split.
  { destruct (pieces ds !! idx) as [f|]; [|done].
    simpl in Hfile. by injection Hfile as ->. }
  split; [done|]. split; [done|]. split; [done|]. split; [reflexivity|]. done.
Qed.

Lemma convert_event_nonempty (evs : list event) (vocab : gmap string Z) (toks : list Z) :
  convert_event evs vocab = Ok toks → length toks = length evs ∧ toks ≠ [].
Proof.
  unfold convert_event. intros H. apply bind_Ok in H as (e0 & He0 & H).
  apply mapM_Ok_length in H. split; [done|].
  destruct evs; [done|]. by destruct toks.
Qed.



(** X12. Every sample has the same shape: [model_max_bars + 1]
    boundaries; an encoder input and a mask of [model_max_bars] rows of
    [model_enc_seqlen] columns; [model_max_bars] bar lengths; with
    [use_attr_cls], [model_dec_seqlen] labels for the positions and
    [model_max_bars] for the bars, in both classes; with [pad_to_same],
    [model_dec_seqlen] decoder inputs and targets. *)
Theorem getitem_shapes (ds : dataset) (draw : nat) (draws : list nat)
    (idx : nat) (s : sample) :
  __getitem__ ds draw draws idx = Ok s →
  length (s_bar_pos s) = (model_max_bars ds + 1)%nat ∧
  length (s_enc_input s) = model_max_bars ds ∧
  Forall (λ row, length row = model_enc_seqlen ds) (s_enc_input s) ∧
  length (s_enc_padding_mask s) = model_max_bars ds ∧
  Forall (λ row, length row = model_enc_seqlen ds) (s_enc_padding_mask s) ∧
  length (s_enc_length s) = model_max_bars ds ∧
  (use_attr_cls ds = true →
     length (s_polyph_cls s) = model_dec_seqlen ds ∧
     length (s_rhymfreq_cls s) = model_dec_seqlen ds ∧
     length (s_polyph_cls_bar s) = model_max_bars ds ∧
     length (s_rhymfreq_cls_bar s) = model_max_bars ds) ∧
  (pad_to_same ds = true →
     length (s_dec_input s) = model_dec_seqlen ds ∧
     length (s_dec_target s) = model_dec_seqlen ds).
Proof.
  intros H.
  destruct (getitem_inv _ _ _ _ _ H)
    as (evs0 & st & bar_pos & n & evs & file & p & r & pe & re & toks & inp & mask
        & lens & inp0 & _ & _ & _ & Hattr & Htoks & Henc & Hinp0 & ->).
  cbn [s_bar_pos s_enc_input s_enc_padding_mask s_enc_length s_polyph_cls
       s_rhymfreq_cls s_polyph_cls_bar s_rhymfreq_cls_bar s_dec_input s_dec_target].
  destruct (encoder_shapes _ _ _ _ _ _ Henc) as (Hb & Hi & Hir & Hm & Hmr & Hl).
  split; [done|]. split; [done|]. split; [done|]. split; [done|]. split; [done|].
  split; [done|]. split.
  - intros Huse.
    destruct (attr_block_returns ds file st bar_pos)
      as (p' & r' & pe' & re' & Hattr' & Hshape).
    { rewrite length_app in Hb. simpl in Hb. lia. }
    rewrite Hattr in Hattr'. injection Hattr' as <- <- <- <-.
    destruct (Hshape Huse) as (? & ? & ? & ?). done.
  - intros Hpad. rewrite Hpad in Hinp0.
    destruct (decoder_pair inp0 (model_dec_seqlen ds)) as (_ & Hli & Hlt & _).
    cbv zeta in Hli, Hlt. rewrite Hli, Hlt, Hinp0, length_pad_sequence. lia.
Qed.

Lemma getitem_shapes_witness :
  ∃ s : sample,
    __getitem__ two_bar_dataset 0 [] 0 = Ok s ∧
    length (s_bar_pos s) = 3%nat ∧ length (s_enc_input s) = 2%nat ∧
    length (s_polyph_cls s) = 8%nat ∧ length (s_dec_input s) = 8%nat.
Proof.
  assert (∃ s, __getitem__ two_bar_dataset 0 [] 0 = Ok s) as [s Hs].
  { eexists. vm_compute. reflexivity. }
  destruct (getitem_shapes two_bar_dataset 0 [] 0 s Hs)
    as (Hb & Hi & _ & _ & _ & _ & Hattr & Hdec).
  destruct (Hattr eq_refl) as (Hp & _). destruct (Hdec eq_refl) as (Hd & _).
  exists s. split; [exact Hs|]. split; [exact Hb|]. split; [exact Hi|].
  split; [exact Hp|exact Hd].
Defined.

(** ** What can stop [__getitem__] *)

Lemma get_sample_returns (ds : dataset) (draw idx : nat) (file : piece_file) :
  constructed ds → appointed_ok ds → pieces ds !! idx = Some file →
  ∃ evs st picked n,
    get_sample_from_file ds draw idx = Ok (evs, st, picked, n) ∧
    length picked = model_max_bars ds.
Proof.
  intros Hc Hok Hf.
  destruct (constructed_lookup _ _ _ Hc Hf) as (bar_pos & Hb & _).
  destruct (decide (length bar_pos ≤ model_max_bars ds)%nat) as [Hle|Hgt].
  - eexists _, _, _, _. split; [by apply sample_padding_branch|].
    rewrite length_app, length_replicate. lia.
  - destruct (sample_truncating_branch ds draw idx file bar_pos Hok Hf Hb)
      as (st & s & e & _ & Hst & _ & _ & Hrun); [lia|].
    eexists _, _, _, _. split; [exact Hrun|].
    rewrite length_fmap, length_take, length_drop. lia.
Qed.



(** ** Windows of long pieces *)

Lemma increasing_of_lookup (l : list Z) :
  (∀ (i j : nat) x y, l !! i = Some x → l !! j = Some y → (i < j)%nat → x < y) →
  increasing l.
Proof.
  unfold increasing. induction l as [|a l IH]; intros H; constructor.
  - apply IH. intros i j x y Hi Hj Hij. apply (H (S i) (S j)); [done|done|lia].
  - apply Forall_forall. intros y Hy.
    destruct (list_elem_of_lookup_1 _ _ Hy) as [j Hj].
    apply (H 0%nat (S j)); [done|done|lia].
Qed.

Lemma slice_nat {A} (l : list A) (lo hi : Z) :
  0 ≤ lo ≤ hi → hi ≤ Z.of_nat (length l) →
  Py.slice l lo hi = take (Z.to_nat (hi - lo)) (drop (Z.to_nat lo) l).
Proof.
  intros Hlo Hhi.
  replace hi with (lo + Z.of_nat (Z.to_nat (hi - lo))) at 1 by lia.
  apply slice_inside; lia.
Qed.

(** A bar cut from a window is the bar cut from the piece. *)
Lemma slice_of_window {A} (l : list A) (s e b b' : Z) :
  0 ≤ s ≤ e → e ≤ Z.of_nat (length l) → 0 ≤ b ≤ b' → b' ≤ e - s →
  Py.slice (Py.slice l s e) b b' = Py.slice l (s + b) (s + b').
Proof.
  intros Hs He Hb Hb'.
  rewrite (slice_nat l s e) by lia.
  rewrite (slice_nat l (s + b) (s + b')) by lia.
  rewrite slice_nat; [|lia|rewrite length_take, length_drop; lia].
  rewrite skipn_firstn_comm, take_take, drop_drop.
  f_equal; [lia|f_equal; lia].
Qed.



(** ** The events of an encoded piece *)

Lemma fstring_head (c : ascii) (prefix : string) (i : Z) :
  fstring (String c prefix) i = String c (fstring prefix i).
Proof. reflexivity. Qed.

Lemma serialise_emitted (g : timed_group) (ss : list string) :
  serialise g = Ok ss → ss = emitted g.
Proof.
  unfold serialise, emitted. destruct (g.2) as [|h t]; [done|].
  change (Py.index (h :: t) 0) with (Ok h). cbn [mbind result_bind].
  intros H. by injection H as <-.
Qed.

Lemma serialise_returns (g : timed_group) : g.2 ≠ [] → serialise g = Ok (emitted g).
Proof.
  unfold serialise, emitted. destruct (g.2) as [|h t]; [done|]. intros _.
  change (Py.index (h :: t) 0) with (Ok h). done.
Qed.

Lemma mapM_serialise (l : list timed_group) (body : list (list string)) :
  mapM serialise l = Ok body → body = emitted <$> l.
Proof.
  revert body. induction l as [|g l IH]; intros body H; simpl in H.
  - by injection H as <-.
  - apply bind_Ok in H as (ss & Hss & H). apply bind_Ok in H as (body' & Hb & H).
    injection H as <-. rewrite fmap_cons.
    by rewrite (serialise_emitted _ _ Hss), (IH _ Hb).
Qed.

Lemma insert_stable_perm (x : timed_group) (l : list timed_group) :
  insert_stable x l ≡ₚ x :: l.
Proof.
  induction l as [|y l IH]; simpl; [done|].
  destruct (decide (key_le x.1 y.1)); [done|].
  rewrite IH. apply Permutation_swap.
Qed.

(** Sorting neither drops nor repeats a group. *)
Lemma sort_by_key_perm (l : list timed_group) : sort_by_key l ≡ₚ l.
Proof.
  unfold sort_by_key. induction l as [|x l IH]; simpl; [done|].
  by rewrite insert_stable_perm, IH.
Qed.

Lemma sum_concat_emitted (f : string → nat) (l : list timed_group) :
  sum_list_with f (concat (emitted <$> l))
    = sum_list_with (λ g, sum_list_with f (emitted g)) l.
Proof.
  induction l as [|g l IH]; [done|].
  rewrite fmap_cons. simpl. by rewrite sum_list_with_app, IH.
Qed.

Lemma sum_list_with_same {A} (h : A → nat) (n : nat) (l : list A) :
  Forall (λ x, h x = n) l → sum_list_with h l = (length l * n)%nat.
Proof. induction 1 as [|x l Hx _ IH]; simpl; [done|]. rewrite Hx, IH. lia. Qed.

Lemma length_sum_list_with {A} (l : list A) : length l = sum_list_with (λ _, 1%nat) l.
Proof. induction l as [|x l IH]; simpl; [done|]. by rewrite IH. Qed.

Lemma occurrences_sum_list_with (x : string) (l : list string) :
  occurrences x l = sum_list_with (λ y, if decide (y = x) then 1%nat else 0%nat) l.
Proof.
  unfold occurrences. induction l as [|y l IH]; [done|].
  rewrite filter_cons. simpl. destruct (decide (y = x)); simpl; by rewrite IH.
Qed.

Section EventWeights.

(** A weight on event ids that does not look at the number in a position,
    tempo or note id. *)
Variable f : string → nat.
Variables f_position f_tempo f_on f_velocity f_duration : nat.
Hypothesis weight_position : ∀ p, f (to_position_event p) = f_position.
Hypothesis weight_tempo : ∀ q, f (to_tempo_event q) = f_tempo.
Hypothesis weight_on : ∀ x, f (to_note_on_event x) = f_on.
Hypothesis weight_velocity : ∀ x, f (to_note_velocity_event x) = f_velocity.
Hypothesis weight_duration : ∀ x, f (to_note_duration_event x) = f_duration.

Lemma bar_groups_weight (mt : list Z) (res : Z) (bt : list Z) (bars : list timed_group) :
  mapM (bar_group mt res) bt = Ok bars →
  sum_list_with (λ g, sum_list_with f (emitted g)) bars
    = (length bt * f "bar")%nat.
Proof.
  intros H. rewrite <- (mapM_Ok_length _ _ _ H).
  rewrite <- (Nat.add_0_r (f "bar")). apply sum_list_with_same.
  apply Forall_lookup. intros i g Hg.
  destruct (mapM_Ok_lookup_inv _ _ _ _ _ H Hg) as (t & _ & Ht).
  unfold bar_group in Ht. apply bind_Ok in Ht as (k & _ & Ht). by injection Ht as <-.
Qed.

Lemma tempo_groups_weight (mt : list Z) (res : Z) (ts : list tempo)
    (tmps : list timed_group) :
  mapM (tempo_group mt res) ts = Ok tmps →
  sum_list_with (λ g, sum_list_with f (emitted g)) tmps
    = (length ts * (f_position + f_tempo))%nat.
Proof.
  intros H. rewrite <- (mapM_Ok_length _ _ _ H). apply sum_list_with_same.
  apply Forall_lookup. intros i g Hg.
  destruct (mapM_Ok_lookup_inv _ _ _ _ _ H Hg) as (t & _ & Ht).
  unfold tempo_group in Ht. apply bind_Ok in Ht as (k & _ & Ht). injection Ht as <-.
  unfold emitted. cbn [fst snd].
  destruct (decide (to_tempo_event (209 `min` (tempo_qpm t `max` 30)) ≠ "bar")) as [_|Hn].
  - simpl. rewrite weight_position, weight_tempo. lia.
  - destruct Hn. unfold to_tempo_event. rewrite fstring_head. discriminate.
Qed.

Lemma note_groups_weight (mt : list Z) (res : Z) (notes : list note) :
  ∀ nts, mapM (note_group mt res) notes = Ok nts →
  sum_list_with (λ g, sum_list_with f (emitted g)) (concat nts)
    = (length (sounding notes) * (f_position + f_on + f_velocity + f_duration))%nat.
Proof.
  unfold sounding. induction notes as [|x notes IH]; intros nts H; simpl in H.
  - by injection H as <-.
  - apply bind_Ok in H as (gs & Hgs & H). apply bind_Ok in H as (nts' & Hn & H).
    injection H as <-. simpl. rewrite sum_list_with_app, (IH _ Hn).
    rewrite filter_cons. unfold note_group in Hgs.
    destruct (decide (note_duration x > 0)) as [Hx|Hx].
    + apply bind_Ok in Hgs as (k & _ & Hgs). injection Hgs as <-.
      simpl. unfold emitted. cbn [fst snd].
      destruct (decide (to_note_on_event (note_pitch x) ≠ "bar")) as [_|Hne].
      * simpl. rewrite weight_position, weight_on, weight_velocity, weight_duration.
        lia.
      * destruct Hne. unfold to_note_on_event. rewrite fstring_head. discriminate.
    + injection Hgs as <-. done.
Qed.

(** The weight of the output is the weight of what each barline, tempo
    change and sounding note adds, and of the end marker. *)
Lemma encoder_weight (m : music) (res : Z) (out : list string) :
  to_remi_event_sequence m res = Ok out →
  ∃ bt, with_zero_barline (barlines m) = Ok bt ∧
    sum_list_with f out =
      (length bt * f "bar"
       + length (tempos m) * (f_position + f_tempo)
       + length (sounding (concat (tracks m)))
         * (f_position + f_on + f_velocity + f_duration)
       + f "eos")%nat.
Proof.
  intros H. unfold to_remi_event_sequence in H. cbv zeta in H.
  destruct (bool_decide (length (concat (tracks m)) = 0%nat)); [done|].
  rewrite get_remi_indexer_value in H. cbn [mbind result_bind] in H.
  apply bind_Ok in H as (bt & Hbt & H).
  apply bind_Ok in H as ([] & _ & H).
  apply bind_Ok in H as (bars & Hbars & H).
  apply bind_Ok in H as (tmps & Htmps & H).
  apply bind_Ok in H as (nts & Hnts & H).
  apply bind_Ok in H as (body & Hbody & H).
  injection H as <-.
  exists bt. split; [done|].
  rewrite (mapM_serialise _ _ Hbody), sum_list_with_app, sum_concat_emitted.
  rewrite (sum_list_with_Permutation_proper _ _ _ (sort_by_key_perm _)).
  rewrite !sum_list_with_app.
  rewrite (bar_groups_weight _ _ _ _ Hbars), (tempo_groups_weight _ _ _ _ Htmps),
    (note_groups_weight _ _ _ _ Hnts).
  simpl. lia.
Qed.

End EventWeights.

(** X15. The encoder neither drops nor repeats an event: when
    [to_remi_event_sequence] returns, the output holds one event for every
    barline (counting the zero barline it puts in front when the first
    barline is not at zero), two for every tempo change, four for every
    note of positive duration, and the end marker. Exactly the barlines
    give the ["bar"] events, and ["eos"] stands at the end and nowhere
    else. *)
Theorem to_remi_event_sequence_counts (m : music) (res : Z) (out : list string) :
  to_remi_event_sequence m res = Ok out →
  ∃ bt, with_zero_barline (barlines m) = Ok bt ∧
    length out =
      (length bt + 2 * length (tempos m)
       + 4 * length (sounding (concat (tracks m))) + 1)%nat ∧
    occurrences "bar" out = length bt ∧
    occurrences "eos" out = 1%nat ∧
    last out = Some "eos".
Proof.
  intros H.
  destruct (encoder_weight (λ _, 1%nat) 1 1 1 1 1) with (m := m) (res := res) (out := out)
    as (bt & Hbt & Hlen); try done.
  destruct (encoder_weight (λ y, if decide (y = "bar") then 1%nat else 0%nat) 0 0 0 0 0)
    with (m := m) (res := res) (out := out) as (bt' & Hbt' & Hbar); try done.
  destruct (encoder_weight (λ y, if decide (y = "eos") then 1%nat else 0%nat) 0 0 0 0 0)
    with (m := m) (res := res) (out := out) as (bt'' & Hbt'' & Heos); try done.
  rewrite Hbt in Hbt', Hbt''. injection Hbt' as <-. injection Hbt'' as <-.
  exists bt. split; [done|].
  rewrite length_sum_list_with, !occurrences_sum_list_with, Hlen, Hbar, Heos.
  split; [lia|]. split; [simpl; lia|]. split; [simpl; lia|].
  unfold to_remi_event_sequence in H. cbv zeta in H.
  destruct (bool_decide (length (concat (tracks m)) = 0%nat)); [done|].
  rewrite get_remi_indexer_value in H. cbn [mbind result_bind] in H.
  apply bind_Ok in H as (? & _ & H). apply bind_Ok in H as (? & _ & H).
  apply bind_Ok in H as (? & _ & H). apply bind_Ok in H as (? & _ & H).
  apply bind_Ok in H as (? & _ & H). apply bind_Ok in H as (? & _ & H).
  injection H as <-. apply last_snoc.
Qed.

Lemma to_remi_event_sequence_counts_witness :
  ∃ bt, with_zero_barline (barlines silent_music) = Ok bt ∧
    length ["bar"; "bar"; "eos"] =
      (length bt + 2 * length (tempos silent_music)
       + 4 * length (sounding (concat (tracks silent_music))) + 1)%nat.
Proof.
  assert (to_remi_event_sequence silent_music 24 = Ok ["bar"; "bar"; "eos"]) as Hrun.
  { vm_compute. reflexivity. }
  destruct (to_remi_event_sequence_counts silent_music 24 _ Hrun)
    as (bt & Hbt & Hlen & _).
  exists bt. split; [exact Hbt|exact Hlen].
Defined.

(** ** When the encoder returns *)

(** On a measure table that starts at 0 and is strictly increasing, a time
    that is not negative has a measure and a position in it. *)
Lemma get_measure_position_returns (mt : list Z) (res t : Z) :
  increasing mt → mt !! 0%nat = Some 0 → (1 < length mt)%nat →
  0 ≤ t → 0 < res →
  ∃ idx p, _get_measure_position mt res t = Ok (idx, p) ∧
    0 ≤ idx < Z.of_nat (length mt) ∧ 0 ≤ p < res.
Proof.
  intros Hinc H0 Hlen Ht Hres.
  pose proof (increasing_le _ Hinc) as Hsorted.
  pose proof (searchsorted_right_le mt t) as Hk.
  assert (0 < searchsorted_right mt t) as Hk0.
  { pose proof (searchsorted_right_spec mt t 0 0 Hsorted H0). lia. }
  set (idx := Z.to_nat (searchsorted_right mt t - 1)).
  assert (Z.of_nat idx = searchsorted_right mt t - 1) as Hidx by lia.
  destruct (lookup_lt_is_Some_2 mt idx) as [cur Hcur]; [lia|].
  unfold _get_measure_position. rewrite <- Hidx.
  assert (∀ len, 0 < len →
            ∃ p, (position ← ceil_div (res * (t - cur)) len;
                  p ← py_mod position res; Ok (Z.of_nat idx, p)) = Ok (Z.of_nat idx, p)
                 ∧ 0 ≤ p < res) as Hpos.
  { intros len Hl.
    destruct (ceil_div_spec (res * (t - cur)) len Hl) as (c & -> & _).
    cbn [mbind result_bind]. unfold py_mod. destruct (decide (res = 0)); [lia|].
    cbn [mbind result_bind]. exists (c `mod` res). split; [done|].
    by apply Z.mod_pos_bound. }
  destruct (decide (Z.of_nat idx < Z.of_nat (length mt) - 1)) as [Hin|Hlast].
  - destruct (lookup_lt_is_Some_2 mt (S idx)) as [nxt Hnxt]; [lia|].
    replace (Z.of_nat idx + 1) with (Z.of_nat (S idx)) by lia.
    rewrite (index_nat _ _ _ Hnxt), (index_nat _ _ _ Hcur).
    cbn [mbind result_bind].
    destruct (Hpos (nxt - cur)) as (p & -> & Hp).
    { assert (cur < nxt); [|lia].
      apply (increasing_lookup_lt mt idx (S idx)); [done..|lia]. }
    exists (Z.of_nat idx), p. split; [done|]. lia.
  - assert (0 < idx)%nat as Hidx_pos by lia.
    destruct (lookup_lt_is_Some_2 mt (idx - 1)) as [prv Hprv]; [lia|].
    replace (Z.of_nat idx - 1) with (Z.of_nat (idx - 1)) by lia.
    rewrite (index_nat _ _ _ Hcur), (index_nat _ _ _ Hprv).
    cbn [mbind result_bind].
    destruct (Hpos (cur - prv)) as (p & -> & Hp).
    { assert (prv < cur); [|lia].
      apply (increasing_lookup_lt mt (idx - 1) idx); [done..|lia]. }
    exists (Z.of_nat idx), p. split; [done|]. lia.
Qed.

Lemma mapM_returns {A B} (f : A → result B) (P : A → Prop) (Q : B → Prop) (l : list A) :
  (∀ x, P x → ∃ y, f x = Ok y ∧ Q y) → Forall P l →
  ∃ k, mapM f l = Ok k ∧ Forall Q k.
Proof.
  intros Hf Hl. induction Hl as [|x l Hx Hl IH]; simpl.
  - exists []. split; [done|constructor].
  - destruct (Hf x Hx) as (y & -> & Hq). destruct IH as (k & -> & Hk).
    exists (y :: k). split; [done|by constructor].
Qed.

Lemma Forall_concat {A} (P : A → Prop) (ls : list (list A)) :
  Forall (Forall P) ls → Forall P (concat ls).
Proof.
  induction 1 as [|l ls Hl _ IH]; simpl; [constructor|].
  apply Forall_app. by split.
Qed.



(** ** Loading the pieces of [MSREMIFullSongTransformerDataset] *)

Lemma elem_of_zero_positions_from (p_evs : list Z) :
  ∀ (i : nat) (z : Z),
    z ∈ zero_positions_from i p_evs ↔
    ∃ j : nat, z = Z.of_nat (i + j) ∧ p_evs !! j = Some 0.
Proof.
  induction p_evs as [|x l IH]; intros i z; simpl.
  - split; [intros H; by apply elem_of_nil in H|]. by intros (j & _ & Hj).
  - assert (z ∈ zero_positions_from (S i) l ↔
            ∃ j : nat, z = Z.of_nat (i + S j) ∧ l !! j = Some 0) as Hrest.
    { rewrite IH. split; intros (j & -> & Hj); exists j; (split; [lia|done]). }
    destruct (decide (x = 0)) as [->|Hx].
    + rewrite elem_of_cons, Hrest. split.
      * intros [->|(j & -> & Hj)]; [exists 0%nat|exists (S j)]; (split; [lia|done]).
      * intros ([|j] & -> & Hj); [left; lia|right; by exists j].
    + rewrite Hrest. split.
      * intros (j & -> & Hj). by exists (S j).
      * intros ([|j] & -> & Hj); simpl in Hj; [congruence|by exists j].
Qed.

Lemma zero_positions_from_increasing (p_evs : list Z) :
  ∀ i, increasing (zero_positions_from i p_evs).
Proof.
  unfold increasing. induction p_evs as [|x l IH]; intros i; simpl; [constructor|].
  destruct (decide (x = 0)); [|apply IH].
  constructor; [apply IH|].
  apply Forall_forall. intros z Hz.
  apply elem_of_zero_positions_from in Hz as (j & -> & _). lia.
Qed.

Lemma elem_of_zero_positions (p_evs : list Z) (z : Z) :
  z ∈ zero_positions p_evs ↔ ∃ j : nat, z = Z.of_nat j ∧ p_evs !! j = Some 0.
Proof. apply (elem_of_zero_positions_from p_evs 0). Qed.

Lemma zero_positions_nil (p_evs : list Z) : zero_positions p_evs = [] ↔ 0 ∉ p_evs.
Proof.
  split.
  - intros Hnil H0. destruct (list_elem_of_lookup_1 _ _ H0) as [j Hj].
    assert (Z.of_nat j ∈ zero_positions p_evs) as Hin
      by (apply elem_of_zero_positions; eauto).
    rewrite Hnil in Hin. by apply elem_of_nil in Hin.
  - intros H0. destruct (zero_positions p_evs) as [|z l] eqn:Hz; [done|].
    assert (z ∈ zero_positions p_evs) as Hin by (rewrite Hz; by left).
    apply elem_of_zero_positions in Hin as (j & _ & Hj).
    destruct H0. by eapply list_elem_of_lookup_2.
Qed.

Lemma zero_positions_below (p_evs : list Z) (z : Z) :
  z ∈ zero_positions p_evs → 0 ≤ z < Z.of_nat (length p_evs).
Proof.
  intros Hz. apply elem_of_zero_positions in Hz as (j & -> & Hj).
  apply lookup_lt_Some in Hj. lia.
Qed.

(** The boundaries stored for a piece with a bar token. *)
Lemma ms_boundaries (p_evs : list Z) :
  0 ∈ p_evs →
  ∃ core dropped,
    normalize_bar_pos (zero_positions p_evs) (length p_evs)
      = Ok (core ++ [Z.of_nat (length p_evs)]) ∧
    zero_positions p_evs = core ++ dropped ∧
    (dropped = [] ∨ dropped = [Z.of_nat (length p_evs) - 2]) ∧
    increasing (core ++ [Z.of_nat (length p_evs)]).
Proof.
  intros H0. set (n := length p_evs).
  destruct (normalize_bar_pos_cases (zero_positions p_evs) n)
    as [[Hnil _]|[[Hone _]|(core & dropped & Hrun & _ & _ & Hsplit & Hlen & Hdrop & _)]].
  - by apply zero_positions_nil in Hnil.
  - assert (Z.of_nat n ∈ zero_positions p_evs) as Hin by (rewrite Hone; by left).
    apply zero_positions_below in Hin. unfold n in Hin. lia.
  - exists core, dropped. split; [done|]. split; [done|]. split.
    + assert (∀ d, d ∈ dropped → d = Z.of_nat n - 2) as Hd.
      { intros d Hin. rewrite Forall_forall in Hdrop.
        destruct (Hdrop d Hin) as [->|Hd]; [|done].
        assert (Z.of_nat n ∈ zero_positions p_evs) as Hin'.
        { rewrite Hsplit. apply elem_of_app. by right. }
        apply zero_positions_below in Hin'. unfold n in Hin'. lia. }
      destruct dropped as [|d1 [|d2 dropped]]; [by left| |].
      * right. f_equal. apply Hd. by left.
      * exfalso.
        pose proof (zero_positions_from_increasing p_evs 0) as Hinc.
        fold (zero_positions p_evs) in Hinc. rewrite Hsplit in Hinc.
        apply increasing_app_inv in Hinc as (_ & Hinc & _).
        assert (d1 < d2).
        { apply (increasing_lookup_lt (d1 :: d2 :: dropped) 0 1); [done..|lia]. }
        assert (d1 = Z.of_nat n - 2) by (apply Hd; by left).
        assert (d2 = Z.of_nat n - 2) by (apply Hd; right; by left).
        lia.
    + assert (∀ b, b ∈ zero_positions p_evs → 0 ≤ b ≤ Z.of_nat n) as Hbound.
      { intros b Hb. apply zero_positions_below in Hb. unfold n. lia. }
      destruct (normalize_increasing (zero_positions p_evs) n _
                  (zero_positions_from_increasing p_evs 0) Hbound Hrun)
        as (core' & _ & Hinc & _).
      done.
Qed.

Lemma ms_step_cases (st : ms_state) (f : ms_piece_file) :
  ((0 ∉ ms_events f) ∧ ms_step st f = st) ∨
  (0 ∈ ms_events f ∧
   ∃ bar_pos,
     normalize_bar_pos (zero_positions (ms_events f)) (length (ms_events f))
       = Ok bar_pos ∧
     ms_step st f =
       (st.1 ++ [bar_pos],
        st.2 ++ match ms_diffs f with
                | Some d => [replicate (length bar_pos) (d - 1)]
                | None => []
                end)).
Proof.
  unfold ms_step, ms_try. cbv zeta.
  destruct (decide (0 ∈ ms_events f)) as [H0|H0].
  - right. split; [done|].
    destruct (ms_boundaries _ H0) as (core & dropped & -> & _).
    cbn [mbind result_bind]. eexists. split; [done|].
    destruct (ms_diffs f); [done|]. by rewrite app_nil_r.
  - left. split; [done|].
    apply zero_positions_nil in H0. rewrite H0. done.
Qed.

(** The loop adds to the two lists and never reads them. *)
Lemma ms_step_added (st : ms_state) (f : ms_piece_file) :
  ms_step st f =
    (st.1 ++ (ms_step ([], []) f).1, st.2 ++ (ms_step ([], []) f).2).
Proof.
  unfold ms_step, ms_try. cbv zeta.
  destruct (normalize_bar_pos _ _) as [bp| |]; cbn [mbind result_bind fst snd];
    rewrite ?app_nil_r; [|by destruct st..].
  destruct (ms_diffs f); cbn [fst snd]; by rewrite ?app_nil_r.
Qed.

Lemma ms_loop_from (files : list ms_piece_file) :
  ∀ st : ms_state,
    foldl ms_step st files =
      (st.1 ++ (ms_build_dataset files).1, st.2 ++ (ms_build_dataset files).2).
Proof.
  unfold ms_build_dataset.
  induction files as [|f files IH] using rev_ind; intros st.
  - simpl. rewrite !app_nil_r. by destruct st.
  - rewrite !foldl_app. simpl. rewrite (IH st).
    rewrite (ms_step_added (foldl ms_step ([], []) files)).
    rewrite (ms_step_added (_, _)). cbn [fst snd]. by rewrite !app_assoc.
Qed.

Lemma ms_build_dataset_app (l1 l2 : list ms_piece_file) :
  ms_build_dataset (l1 ++ l2) =
    ((ms_build_dataset l1).1 ++ (ms_build_dataset l2).1,
     (ms_build_dataset l1).2 ++ (ms_build_dataset l2).2).
Proof.
  unfold ms_build_dataset at 1. rewrite foldl_app.
  fold (ms_build_dataset l1). apply ms_loop_from.
Qed.

Lemma ms_build_dataset_cons (f : ms_piece_file) (files : list ms_piece_file) :
  ms_build_dataset (f :: files) =
    ((ms_step ([], []) f).1 ++ (ms_build_dataset files).1,
     (ms_step ([], []) f).2 ++ (ms_build_dataset files).2).
Proof.
  change (f :: files) with ([f] ++ files). by rewrite ms_build_dataset_app.
Qed.

(** X17. In [MSREMIFullSongTransformerDataset] the boundaries of a piece
    are the positions of its bar tokens (code 0). Every list stored by
    [build_dataset] belongs to a piece that holds a bar token and is
    strictly increasing; it ends with the token count, and in front of it
    stand the positions of the bar tokens in order, all of them, or all but
    the last one when that one stands two tokens before the end. The test
    for a last boundary equal to the token count can never succeed here:
    a position is always below the count. *)
Theorem ms_build_dataset_boundaries (files : list ms_piece_file) (bar_pos : list Z) :
  bar_pos ∈ (ms_build_dataset files).1 →
  ∃ f core dropped,
    f ∈ files ∧ 0 ∈ ms_events f ∧
    bar_pos = core ++ [Z.of_nat (length (ms_events f))] ∧
    zero_positions (ms_events f) = core ++ dropped ∧
    (dropped = [] ∨ dropped = [Z.of_nat (length (ms_events f)) - 2]) ∧
    increasing bar_pos ∧
    (∀ z, z ∈ zero_positions (ms_events f) ↔
          ∃ j : nat, z = Z.of_nat j ∧ ms_events f !! j = Some 0) ∧
    last (zero_positions (ms_events f)) ≠ Some (Z.of_nat (length (ms_events f))).
Proof.
  induction files as [|f files IH]; intros Hin.
  { by apply elem_of_nil in Hin. }
  rewrite ms_build_dataset_cons in Hin. cbn [fst] in Hin.
  apply elem_of_app in Hin as [Hin|Hin].
  - destruct (ms_step_cases ([], []) f) as [[_ Hskip]|(H0 & bp & Hbp & Hadd)].
    { rewrite Hskip in Hin. by apply elem_of_nil in Hin. }
    rewrite Hadd in Hin. cbn [fst] in Hin.
    apply list_elem_of_singleton in Hin as ->.
    destruct (ms_boundaries _ H0) as (core & dropped & Hrun & Hsplit & Hdrop & Hinc).
    rewrite Hrun in Hbp. injection Hbp as <-.
    exists f, core, dropped. split; [by left|]. split; [done|]. split; [done|].
    split; [done|]. split; [done|]. split; [done|].
    split; [apply elem_of_zero_positions|].
    intros Hlast. rewrite last_lookup in Hlast.
    apply list_elem_of_lookup_2, zero_positions_below in Hlast. lia.
  - destruct (IH Hin) as (f' & core & dropped & Hf' & Hrest).
    exists f', core, dropped. split; [by right|done].
Qed.

Lemma ms_build_dataset_boundaries_witness :
  ∃ f core,
    f ∈ [ms_sample_piece] ∧
    [0; 3; 6] = core ++ [Z.of_nat (length (ms_events f))] ∧ increasing [0; 3; 6].
Proof.
  destruct (ms_build_dataset_boundaries [ms_sample_piece] [0; 3; 6])
    as (f & core & dropped & Hf & _ & Heq & _ & _ & Hinc & _).
  - vm_compute. by left.
  - exists f, core. split; [exact Hf|]. split; [exact Heq|exact Hinc].
Defined.

Lemma length_filter_all {A} (P : A → Prop) `{∀ x, Decision (P x)} (l : list A) :
  length (filter P l) = length l ↔ Forall P l.
Proof.
  induction l as [|x l IH]; [by split|].
  rewrite filter_cons, Forall_cons. pose proof (length_filter P l) as Hle.
  destruct (decide (P x)) as [Hx|Hx]; simpl.
  - split; [intros Hl; split; [done|]; apply IH; lia|].
    intros [_ Hl]. apply IH in Hl. lia.
  - split; [lia|]. by intros [? _].
Qed.

(** X18. In [MSREMIFullSongTransformerDataset] a piece without a bar
    token is skipped by [build_dataset] without a trace: the lists built are
    those of the other pieces, while the piece stays in [self.pieces]. So
    [piece_bar_pos] has one entry for each piece that holds a bar token,
    and [piece_bar_diffs] one for each of those whose difficulty is an
    [int]; [piece_bar_pos] is as long as [self.pieces] exactly when every
    piece holds a bar token, and then entry [i] is the list of piece [i]. *)
Theorem ms_build_dataset_alignment (files : list ms_piece_file) :
  let has_bar f := 0 ∈ ms_events f in
  length (ms_build_dataset files).1 = length (filter has_bar files) ∧
  length (ms_build_dataset files).2
    = length (filter (λ f, has_bar f ∧ is_Some (ms_diffs f)) files) ∧
  (length (ms_build_dataset files).1 = length files ↔ Forall has_bar files) ∧
  (∀ l1 f l2, files = l1 ++ f :: l2 → ¬ has_bar f →
     ms_build_dataset files = ms_build_dataset (l1 ++ l2)) ∧
  (Forall has_bar files →
   ∀ (i : nat) f, files !! i = Some f →
     ∃ core, (ms_build_dataset files).1 !! i
               = Some (core ++ [Z.of_nat (length (ms_events f))])).
Proof.
  intros has_bar.
  assert (length (ms_build_dataset files).1 = length (filter has_bar files) ∧
          length (ms_build_dataset files).2
            = length (filter (λ f, has_bar f ∧ is_Some (ms_diffs f)) files))
    as [Hpos Hdiffs].
  { induction files as [|f files [IH1 IH2]]; [done|].
    rewrite ms_build_dataset_cons, !filter_cons. cbn [fst snd].
    rewrite !length_app, IH1, IH2.
    destruct (ms_step_cases ([], []) f) as [[Hno ->]|(H0 & bp & _ & ->)].
    - destruct (decide (has_bar f)); [done|].
      destruct (decide (has_bar f ∧ is_Some (ms_diffs f))) as [[? _]|_]; done.
    - destruct (decide (has_bar f)); [|done]. cbn [fst snd].
      destruct (ms_diffs f) as [d|] eqn:Hd.
      + destruct (decide (has_bar f ∧ is_Some (Some d))) as [_|Hn]; [done|].
        destruct Hn. split; [done|by eexists].
      + destruct (decide (has_bar f ∧ is_Some None)) as [[_ Hn]|_]; [|done].
        by destruct Hn. }
  split; [done|]. split; [done|]. split.
  { rewrite Hpos. apply length_filter_all. }
  split.
  - intros l1 f l2 -> Hno.
    rewrite !ms_build_dataset_app, ms_build_dataset_cons.
    destruct (ms_step_cases ([], []) f) as [[_ ->]|(H0 & _)]; done.
  - clear Hpos Hdiffs. induction files as [|f files IH]; intros Hall i f' Hf'; [done|].
    apply Forall_cons in Hall as [Hf Hall].
    rewrite ms_build_dataset_cons. cbn [fst].
    destruct (ms_step_cases ([], []) f) as [[Hno _]|(_ & bp & Hbp & ->)]; [done|].
    cbn [fst app].
    destruct i as [|i]; simpl in Hf'.
    + injection Hf' as <-.
      destruct (ms_boundaries _ Hf) as (core & dropped & Hrun & _).
      rewrite Hrun in Hbp. injection Hbp as <-. by exists core.
    + simpl. by apply IH.
Qed.

(** ** The labels of a window *)

Lemma sorted_snoc_replicate (l : list Z) (x : Z) (k : nat) :
  increasing (l ++ [x]) → StronglySorted Z.le ((l ++ [x]) ++ replicate k x).
Proof.
  intros Hinc. apply StronglySorted_app. split; [|split].
  - intros a b Ha Hb. apply elem_of_replicate in Hb as [-> _].
    apply (increasing_below_last (l ++ [x])); [done|done|apply last_snoc].
  - by apply increasing_le.
  - induction k as [|k IH]; simpl; constructor; [done|].
    apply Forall_forall. intros b Hb. apply elem_of_replicate in Hb as [-> _]. done.
Qed.

(** The boundaries that [get_sample_from_file] returns are in order. *)
Lemma get_sample_ordered (ds : dataset) (draw idx : nat) (file : piece_file)
    (bar_pos : list Z) :
  constructed ds → appointed_ok ds →
  pieces ds !! idx = Some file → piece_bar_pos ds !! idx = Some bar_pos →
  increasing bar_pos → (∀ b, b ∈ bar_pos → 0 ≤ b) →
  ∃ evs (st : nat) picked n,
    get_sample_from_file ds draw idx = Ok (evs, Z.of_nat st, picked, n) ∧
    length picked = model_max_bars ds ∧
    StronglySorted Z.le picked ∧ (∀ b, b ∈ picked → 0 ≤ b).
Proof.
  intros Hc Hok Hf Hb Hinc Hpos.
  destruct (constructed_nonempty _ _ _ _ Hc Hf Hb) as [core Hcore].
  destruct (decide (length bar_pos ≤ model_max_bars ds)%nat) as [Hle|Hgt].
  - exists (file_events file), 0%nat. eexists _, _.
    split; [by apply sample_padding_branch|].
    split; [rewrite length_app, length_replicate; lia|]. split.
    + rewrite Hcore. apply sorted_snoc_replicate. by rewrite <- Hcore.
    + intros b Hin. apply elem_of_app in Hin as [Hin|Hin]; [by apply Hpos|].
      apply elem_of_replicate in Hin as [-> _]. lia.
  - destruct (sample_truncating_branch ds draw idx file bar_pos Hok Hf Hb)
      as (st & s & e & _ & Hst & Hs & He & Hrun); [lia|].
    exists (Py.slice (file_events file) s e), st. eexists _, _.
    split; [exact Hrun|].
    split; [rewrite length_fmap, length_take, length_drop; lia|].
    assert (∀ (i : nat) b,
              ((λ b, b - s) <$> take (model_max_bars ds) (drop st bar_pos)) !! i = Some b →
              bar_pos !! (st + i)%nat = Some (s + b)) as Hpicked.
    { intros i b. rewrite list_lookup_fmap, fmap_Some.
      intros (x & Hx & ->). apply lookup_take_Some in Hx as [Hx Hi].
      rewrite lookup_drop in Hx. rewrite Hx. f_equal. lia. }
    split.
    + apply increasing_le, increasing_of_lookup. intros i j x y Hi Hj Hij.
      apply Hpicked in Hi, Hj.
      assert (s + x < s + y); [|lia].
      apply (increasing_lookup_lt bar_pos (st + i) (st + j)); [done..|lia].
    + intros b Hin. destruct (list_elem_of_lookup_1 _ _ Hin) as [i Hi].
      apply Hpicked in Hi.
      assert (s ≤ s + b); [|lia].
      apply (sorted_lookup_le bar_pos st (st + i));
        [by apply increasing_le|done|done|lia].
Qed.



(** ** Times before the first barline *)



(** ** The padding bars of a short piece *)

Lemma transpose_events_length (evs out : list event) (n : Z) :
  transpose_events evs n = Ok out → length out = length evs.
Proof.
  rewrite transpose_events_mapM. apply mapM_Ok_length.
Qed.

Lemma pitch_augment_length (ds : dataset) (draws : list nat) (evs out : list event) :
  pitch_augment ds draws evs = Ok out → length out = length evs.
Proof.
  unfold pitch_augment. intros H.
  apply bind_Ok in H as (ext & _ & H). apply bind_Ok in H as (n & _ & H).
  by eapply transpose_events_length.
Qed.



(** ** Samples of [MSREMIFullSongTransformerDataset] *)

(** With a bar token and an [int] difficulty in every piece the two lists
    stay aligned with the pieces. *)
Lemma ms_build_dataset_aligned (files : list ms_piece_file) :
  Forall (λ f, 0 ∈ ms_events f ∧ is_Some (ms_diffs f)) files →
  ∀ (i : nat) f, files !! i = Some f →
    ∃ core d,
      (ms_build_dataset files).1 !! i
        = Some (core ++ [Z.of_nat (length (ms_events f))]) ∧
      increasing (core ++ [Z.of_nat (length (ms_events f))]) ∧
      (∀ b, b ∈ core → 0 ≤ b) ∧
      (ms_build_dataset files).2 !! i = Some (replicate (length core + 1) (d - 1)).
Proof.
  induction files as [|f files IH]; intros Hall i f' Hf'; [done|].
  apply Forall_cons in Hall as [[H0 [d Hd]] Hall].
  rewrite ms_build_dataset_cons. cbn [fst snd].
  destruct (ms_step_cases ([], []) f) as [[Hno _]|(_ & bp & Hbp & ->)]; [done|].
  cbn [fst snd app]. rewrite Hd.
  destruct i as [|i]; simpl in Hf'.
  - injection Hf' as <-.
    destruct (ms_boundaries _ H0) as (core & dropped & Hrun & Hsplit & _ & Hinc).
    rewrite Hrun in Hbp. injection Hbp as <-.
    exists core, d. split; [done|]. split; [done|]. split.
    + intros b Hb.
      assert (b ∈ zero_positions (ms_events f)) as Hin.
      { rewrite Hsplit. apply elem_of_app. by left. }
      apply zero_positions_below in Hin. lia.
    + simpl. by rewrite length_app.
  - simpl. by apply IH.
Qed.

(** On such a dataset the window of every piece is found and is not
    empty. *)
Lemma ms_get_sample_returns (ds : dataset) (files : list ms_piece_file)
    (draw idx : nat) (f : ms_piece_file) :
  Forall (λ f, 0 ∈ ms_events f ∧ is_Some (ms_diffs f)) files →
  appointed_ok ds → (0 < model_max_bars ds)%nat →
  files !! idx = Some f →
  ∃ evs st_bar picked n,
    ms_get_sample_from_file ds files (ms_build_dataset files) draw idx
      = Ok (evs, st_bar, picked, n) ∧
    evs ≠ [] ∧ length picked = model_max_bars ds.
Proof.
  intros Hall Hok HM Hf.
  destruct (ms_build_dataset_aligned files Hall idx f Hf)
    as (core & d & Hbp & Hinc & Hnn & _).
  assert (0 ∈ ms_events f) as H0.
  { rewrite Forall_forall in Hall. apply Hall. by eapply list_elem_of_lookup_2. }
  set (cnt := Z.of_nat (length (ms_events f))) in *.
  set (bar_pos := core ++ [cnt]) in *.
  unfold ms_get_sample_from_file. cbv zeta. rewrite Hf, Hbp.
  cbn [or_raise mbind result_bind].
  destruct (pick_st_bar_spec ds draw (length bar_pos) Hok)
    as (st & -> & Hst0 & Hst & _).
  cbn [mbind result_bind].
  destruct (decide (Z.of_nat (length bar_pos) > Z.of_nat (model_max_bars ds)))
    as [Hgt|Hle].
  - specialize (Hst Hgt). destruct (Z_of_nat_complete st Hst0) as [k ->].
    destruct (lookup_lt_is_Some_2 bar_pos k) as [s Hs]; [lia|].
    destruct (lookup_lt_is_Some_2 bar_pos (k + model_max_bars ds)) as [e He]; [lia|].
    rewrite (index_nat _ _ _ Hs). cbn [mbind result_bind].
    rewrite <- Nat2Z.inj_add, (index_nat _ _ _ He). cbn [mbind result_bind].
    eexists _, _, _, _. split; [done|].
    assert (s < e) as Hse.
    { apply (increasing_lookup_lt bar_pos k (k + model_max_bars ds)); [done..|lia]. }
    assert (0 ≤ s) as Hs0.
    { apply list_elem_of_lookup_2 in Hs. unfold bar_pos in Hs.
      apply elem_of_app in Hs as [Hs|Hs]; [by apply Hnn|].
      apply list_elem_of_singleton in Hs as ->. unfold cnt. lia. }
    assert (e ≤ cnt) as Hecnt.
    { apply (increasing_below_last bar_pos); [done| |apply last_snoc].
      by eapply list_elem_of_lookup_2. }
    split.
    + intros Hnil. apply (f_equal length) in Hnil.
      rewrite slice_nat, length_take, length_drop in Hnil by (unfold cnt in *; lia).
      unfold cnt in *. simpl in Hnil. lia.
    + rewrite Nat2Z.inj_add, slice_inside by lia.
      rewrite length_fmap, length_take, length_drop. lia.
  - assert (Py.index bar_pos (-1) = Ok cnt) as ->
      by (unfold bar_pos; apply index_last_snoc).
    cbn [mbind result_bind].
    rewrite assert_true by (rewrite length_app, length_replicate; lia).
    cbn [mbind result_bind].
    eexists _, _, _, _. split; [done|]. split.
    + intros Hnil. rewrite Hnil in H0. by apply elem_of_nil in H0.
    + rewrite length_app, length_replicate. lia.
Qed.

Lemma ms_expand_returns (diff_cls : list Z) (spans : list (Z * Z)) :
  ∀ (s : nat) (acc : list Z),
    (s + length spans ≤ length diff_cls)%nat →
    ∃ out, for_each (ms_expand_step diff_cls) (zip (seq s (length spans)) spans) acc
             = Ok out.
Proof.
  induction spans as [|[b_st b_ed] spans IH]; intros s acc Hlen.
  - by exists acc.
  - simpl in Hlen. simpl.
    destruct (lookup_lt_is_Some_2 diff_cls s) as [d Hd]; [lia|].
    rewrite (index_nat _ _ _ Hd). cbn [mbind result_bind].
    apply IH. lia.
Qed.


